(** * wavelength: the audio feed and its playback engine

    A shallow embedding of the two React components of the repository,
    [AudioFeed] (feed sequencer and preload cache) and [AudioVisualizer]
    (playback session controller), and the properties of the
    specification that talk about them.

    Conventions.  React state and refs become record fields that are
    passed explicitly.  A callback of the source is a function from state
    to state; where the source suspends ([await]), the callback is cut at
    the suspension point and the rest runs as the reaction to the event
    that settles the promise.  Logging is left out. *)

From Stdlib Require Import ZArith QArith Qround Qabs Lia Lqa.
From stdpp Require Import gmap strings list fin_maps sorting.

Local Open Scope Z_scope.
Local Open Scope nat_scope.

(** ** JavaScript values used by the components *)

Module JS.

(** A JavaScript number as the feed uses it: an integer that fits a
    double exactly (indices and lengths, at most 100 by the listing
    limit) or [NaN]. *)
Inductive num : Type :=
| Int (z : Z)
| NaN.

Definition add (a b : num) : num :=
  match a, b with
  | Int x, Int y => Int (x + y)
  | _, _ => NaN
  end.

Definition sub (a b : num) : num :=
  match a, b with
  | Int x, Int y => Int (x - y)
  | _, _ => NaN
  end.

(** [a % b]: the remainder takes the sign of the dividend, and a zero
    divisor gives [NaN] rather than an exception. *)
Definition rem (a b : num) : num :=
  match a, b with
  | Int x, Int y => if (y =? 0)%Z then NaN else Int (Z.rem x y)
  | _, _ => NaN
  end.

Definition of_nat (n : nat) : num := Int (Z.of_nat n).

(** [arr[i]] on a dense array: [None] is [undefined]. *)
Definition index {A} (arr : list A) (i : num) : option A :=
  match i with
  | Int z => if (z <? 0)%Z then None else arr !! Z.to_nat z
  | NaN => None
  end.

(** Arrays that may hold [undefined] (also in the holes an out-of-range
    write leaves): [None] is [undefined]. *)
Definition get {A} (arr : list (option A)) (i : Z) : option A :=
  if (i <? 0)%Z then None
  else match arr !! Z.to_nat i with
       | Some v => v
       | None => None
       end.

(** [arr[i] = v]: in range the slot is replaced; past the end the array
    is extended, the skipped slots being holes; a negative key names a
    property and leaves the elements alone. *)
Definition set {A} (arr : list (option A)) (i : Z) (v : option A)
  : list (option A) :=
  if (i <? 0)%Z then arr
  else
    let n := Z.to_nat i in
    if decide (n < length arr) then <[n := v]> arr
    else arr ++ replicate (n - length arr) None ++ [v].

(** [s.includes(p)] *)
Definition includes (p s : string) : bool :=
  match String.index 0 p s with
  | Some _ => true
  | None => false
  end.

(** [!v] for an optional boolean: [undefined] is falsy. *)
Definition not (v : option bool) : bool :=
  match v with
  | Some b => negb b
  | None => true
  end.

End JS.

(** ** AudioFeed: the feed sequencer *)

Module AudioFeed.

Record AudioSnippet : Type := mkSnippet {
  url : string;
  name : string;
  created_at : string;
  liked : option bool;
}.

Definition set_liked (v : bool) (s : AudioSnippet) : AudioSnippet :=
  {| url := url s; name := name s; created_at := created_at s;
     liked := Some v |}.

(** The [useState] cells of the component that the sequencer reads and
    writes. *)
Record Feed : Type := mkFeed {
  snippets : list AudioSnippet;
  currentIndex : JS.num;
  isPlaying : bool;
  autoplayEnabled : bool;
  playOrder : list nat;
}.

(** State on mount. *)
Definition initial : Feed :=
  {| snippets := []; currentIndex := JS.Int 0; isPlaying := false;
     autoplayEnabled := false; playOrder := [] |}.

Definition setCurrentIndex (f : JS.num → JS.num) (s : Feed) : Feed :=
  {| snippets := snippets s; currentIndex := f (currentIndex s);
     isPlaying := isPlaying s; autoplayEnabled := autoplayEnabled s;
     playOrder := playOrder s |}.

Definition setIsPlaying (b : bool) (s : Feed) : Feed :=
  {| snippets := snippets s; currentIndex := currentIndex s;
     isPlaying := b; autoplayEnabled := autoplayEnabled s;
     playOrder := playOrder s |}.

Definition setSnippets (l : list AudioSnippet) (s : Feed) : Feed :=
  {| snippets := l; currentIndex := currentIndex s;
     isPlaying := isPlaying s; autoplayEnabled := autoplayEnabled s;
     playOrder := playOrder s |}.

Definition setPlayOrder (o : list nat) (s : Feed) : Feed :=
  {| snippets := snippets s; currentIndex := currentIndex s;
     isPlaying := isPlaying s; autoplayEnabled := autoplayEnabled s;
     playOrder := o |}.

(** [setCurrentIndex(prev => (prev + 1) % snippets.length);
     setIsPlaying(true)] *)
Definition handleNext (s : Feed) : Feed :=
  let n := JS.of_nat (length (snippets s)) in
  setIsPlaying true
    (setCurrentIndex (λ prev, JS.rem (JS.add prev (JS.Int 1)) n) s).

(** [setCurrentIndex(prev => (prev - 1 + snippets.length) % snippets.length);
     setIsPlaying(true)] *)
Definition handlePrevious (s : Feed) : Feed :=
  let n := JS.of_nat (length (snippets s)) in
  setIsPlaying true
    (setCurrentIndex
       (λ prev, JS.rem (JS.add (JS.sub prev (JS.Int 1)) n) n) s).

(** [handleTrackEnd] *)
Definition handleTrackEnd (s : Feed) : Feed :=
  if autoplayEnabled s then handleNext s else setIsPlaying false s.

(** The updater of [handleDoubleTap] on the previous list:
    [updated[currentIndex] = {...updated[currentIndex],
                              liked: !updated[currentIndex].liked}].
    Reading [.liked] of [undefined] throws a TypeError: [None]. *)
Definition toggleAt (i : JS.num) (prev : list AudioSnippet)
  : option (list AudioSnippet) :=
  match i with
  | JS.Int z =>
      match JS.index prev i with
      | Some t => Some (<[Z.to_nat z := set_liked (JS.not (liked t)) t]> prev)
      | None => None
      end
  | JS.NaN => None
  end.

Definition handleDoubleTap (s : Feed) : option Feed :=
  match toggleAt (currentIndex s) (snippets s) with
  | Some updated => Some (setSnippets updated s)
  | None => None
  end.

(** [getCurrentTrack]; [null] and [undefined] are both [None], the
    caller only tests the result for truthiness. *)
Definition getCurrentTrack (s : Feed) : option AudioSnippet :=
  if bool_decide (length (snippets s) = 0) || bool_decide (length (playOrder s) = 0)
  then None
  else
    let orderIndex := JS.rem (currentIndex s) (JS.of_nat (length (playOrder s))) in
    match JS.index (playOrder s) orderIndex with
    | Some k => snippets s !! k
    | None => None
    end.

(** The loop of [generatePlayOrder], counting [i] down to 1.  [random k]
    is the value of the [k]-th call of [Math.random()]. *)
Fixpoint shuffleFrom (random : nat → Q) (calls : nat) (i : nat)
    (order : list (option nat)) : list (option nat) :=
  match i with
  | 0 => order
  | S i' =>
      let j := Qfloor (random calls * inject_Z (Z.of_nat i + 1)) in
      let oi := JS.get order (Z.of_nat i) in
      let oj := JS.get order j in
      shuffleFrom random (S calls) i'
        (JS.set (JS.set order (Z.of_nat i) oj) j oi)
  end.

(** [generatePlayOrder(length)]:
    [Array.from({ length }, (_, i) => i)], then the Fisher-Yates loop. *)
Definition generatePlayOrder (random : nat → Q) (length : nat)
  : list (option nat) :=
  shuffleFrom random 0 (length - 1) (Some <$> seq 0 length).

(** ** AudioFeed: the preload cache and its queue *)

(** An entry of [preloadedAudiosRef]; the audio element is kept as its
    [src] attribute. *)
Record PreloadedAudio : Type := mkPreloaded {
  audio : string;
  loaded : bool;
  error : bool;
}.

Definition maxPreloadCount : nat := 3.

(** How [preloadAudio] left its caller's [await]: it returned before its
    own [await], so the promise is already fulfilled and the caller goes
    on at the next microtask, or it waits for the element to signal
    [canplaythrough] or [error]. *)
Inductive Pending : Type :=
| Returned
| Loading.

(** The refs of the preloader.  [inflight] is the [url] local of the
    suspended [processPreloadQueue]; [timers] counts the scheduled
    [setTimeout(() => processPreloadQueue(), 1000)] callbacks. *)
Record Preload : Type := mkPreload {
  preloadedAudios : gmap string PreloadedAudio;
  preloadQueue : list string;
  isPreloading : bool;
  inflight : option (string * Pending);
  timers : nat;
}.

Definition preload_initial : Preload :=
  {| preloadedAudios := ∅; preloadQueue := []; isPreloading := false;
     inflight := None; timers := 0 |}.

(** [!url || url.includes('.emptyFolderPlaceholder')] *)
Definition skipped (u : string) : bool :=
  bool_decide (u = ""%string) || JS.includes ".emptyFolderPlaceholder" u.

Definition fresh_entry (u : string) : PreloadedAudio :=
  {| audio := u; loaded := false; error := false |}.

(** [preloadAudio(url)] up to its [await]: the new cache and how the
    call is left. *)
Definition preloadAudio (u : string) (cache : gmap string PreloadedAudio)
  : gmap string PreloadedAudio * Pending :=
  if skipped u then (cache, Returned)
  else if bool_decide (maxPreloadCount ≤ size cache) then (cache, Returned)
  else
    match cache !! u with
    | Some existing =>
        if error existing
        then (<[u := fresh_entry u]> (delete u cache), Loading)
        else (cache, Returned)
    | None => (<[u := fresh_entry u]> cache, Loading)
    end.

(** [onCanPlay]: [entry.loaded = true] when the entry is still there. *)
Definition mark_loaded (u : string) (cache : gmap string PreloadedAudio)
  : gmap string PreloadedAudio :=
  alter (λ e, {| audio := audio e; loaded := true; error := error e |}) u cache.

(** [onError] and the [catch] of [preloadAudio]: [entry.error = true],
    [entry.audio.src = ''] when the entry is still there. *)
Definition mark_error (u : string) (cache : gmap string PreloadedAudio)
  : gmap string PreloadedAudio :=
  alter (λ e, {| audio := ""; loaded := loaded e; error := true |}) u cache.

(** [processPreloadQueue] up to its [await]. *)
Definition processPreloadQueue (s : Preload) : Preload :=
  if isPreloading s then s
  else
    match preloadQueue s with
    | [] => s
    | u :: _ =>
        let r := preloadAudio u (preloadedAudios s) in
        {| preloadedAudios := r.1; preloadQueue := preloadQueue s;
           isPreloading := true; inflight := Some (u, r.2);
           timers := timers s |}
    end.

(** The [finally] block: the worker is idle again and, when URLs are
    left, another pass is scheduled. *)
Definition finally (cache : gmap string PreloadedAudio) (queue : list string)
    (s : Preload) : Preload :=
  {| preloadedAudios := cache; preloadQueue := queue;
     isPreloading := false; inflight := None;
     timers := match queue with [] => timers s | _ :: _ => S (timers s) end |}.

(** After a fulfilled [await preloadAudio(url)]:
    [preloadQueueRef.current.shift()]. *)
Definition resumeOk (cache : gmap string PreloadedAudio) (s : Preload) : Preload :=
  finally cache (tail (preloadQueue s)) s.

(** The [catch] block: the head is shifted off and, unless it is falsy,
    pushed to the tail. *)
Definition resumeFailed (cache : gmap string PreloadedAudio) (s : Preload)
  : Preload :=
  let queue :=
    match preloadQueue s with
    | [] => []
    | failedUrl :: rest =>
        if bool_decide (failedUrl = ""%string) then rest else rest ++ [failedUrl]
    end in
  finally cache queue s.

(** [queuePreload(url)] *)
Definition queuePreload (u : string) (s : Preload) : Preload :=
  if skipped u then s
  else if negb (bool_decide (u ∈ preloadQueue s))
          && negb (bool_decide (is_Some (preloadedAudios s !! u)))
  then
    processPreloadQueue
      {| preloadedAudios := preloadedAudios s;
         preloadQueue := preloadQueue s ++ [u];
         isPreloading := isPreloading s; inflight := inflight s;
         timers := timers s |}
  else s.

(** What can happen to the preloader. *)
Inductive PreloadEvent : Type :=
| Warm (u : string)      (* a call of [queuePreload(u)] *)
| Timeout                (* a scheduled [processPreloadQueue()] fires *)
| Microtask              (* the worker resumes after a fulfilled await *)
| CanPlayThrough         (* the element in preparation can play through *)
| LoadError.             (* the element in preparation fails *)

(** One reaction of the preloader.  An event that cannot happen in the
    state (no timer scheduled, nothing in flight) leaves it as it is. *)
Definition preload_step (s : Preload) (e : PreloadEvent) : Preload :=
  match e with
  | Warm u => queuePreload u s
  | Timeout =>
      match timers s with
      | 0 => s
      | S n =>
          processPreloadQueue
            {| preloadedAudios := preloadedAudios s;
               preloadQueue := preloadQueue s;
               isPreloading := isPreloading s; inflight := inflight s;
               timers := n |}
      end
  | Microtask =>
      match inflight s with
      | Some (_, Returned) => resumeOk (preloadedAudios s) s
      | _ => s
      end
  | CanPlayThrough =>
      match inflight s with
      | Some (u, Loading) => resumeOk (mark_loaded u (preloadedAudios s)) s
      | _ => s
      end
  | LoadError =>
      match inflight s with
      | Some (u, Loading) => resumeFailed (mark_error u (preloadedAudios s)) s
      | _ => s
      end
  end.

Definition preload_run (s : Preload) (es : list PreloadEvent) : Preload :=
  foldl preload_step s es.

(** ** Auxiliary definitions for the statements about the feed *)

(** The values [currentIndex] can take: it starts at 0 and is only
    written by [handleNext] and [handlePrevious]. *)
Definition index_ok (i : JS.num) : Prop :=
  match i with
  | JS.Int z => (0 ≤ z)%Z
  | JS.NaN => True
  end.

Definition trackA : AudioSnippet := mkSnippet "a.webm" "a.webm" "2024-01-01" None.
Definition trackB : AudioSnippet := mkSnippet "b.webm" "b.webm" "2024-01-02" None.
Definition trackC : AudioSnippet := mkSnippet "c.webm" "c.webm" "2024-01-03" None.

(** The scenario of the specification: tracks [A, B, C] in play order
    [1, 0, 2]. *)
Definition scenario : Feed :=
  setPlayOrder [1; 0; 2] (setSnippets [trackA; trackB; trackC] initial).

(** The like toggle as the specification words it: the flag of the track
    at the current play-order position is flipped. *)
Definition toggleLike_spec (s : Feed) : option (list AudioSnippet) :=
  let orderIndex := JS.rem (currentIndex s) (JS.of_nat (length (playOrder s))) in
  match JS.index (playOrder s) orderIndex with
  | Some k =>
      match snippets s !! k with
      | Some t => Some (<[k := set_liked (JS.not (liked t)) t]> (snippets s))
      | None => None
      end
  | None => None
  end.

(** [Math.random()] returns a number in [0, 1). *)
Definition unit_interval (random : nat → Q) : Prop :=
  ∀ k, (0 <= random k)%Q ∧ (random k < 1)%Q.

(** A cache of three entries, the third still in preparation, and the
    same cache once the third is loaded and the worker is idle. *)
Definition full_loading : Preload :=
  preload_run preload_initial
    [Warm "a.webm"; CanPlayThrough; Warm "b.webm"; CanPlayThrough;
     Warm "c.webm"].

Definition full_idle : Preload :=
  preload_step full_loading CanPlayThrough.

(** How one operation may change the key set of the cache: it is kept,
    or one new key is added to a cache of fewer than 3 entries. *)
Definition grows (c c' : gmap string PreloadedAudio) : Prop :=
  dom c' = dom c
  ∨ ∃ u, (u ∉ dom c) ∧ dom c' = ({[u]} ∪ dom c) ∧ size c < maxPreloadCount.

End AudioFeed.

(** ** AudioVisualizer: the playback session controller

    The model covers the refs of the component, [cleanupAudio], the
    track-change effect and the setup effect with [setupAudio] and its
    cleanup.  The platform objects a session holds are kept with the
    state the properties are about: the source and paused flag of an
    audio element, the state of an audio context, and whether a node is
    connected.  The platform decides when and how a promise settles and
    which events an element fires; these are the events of the model.
    Constructors and [connect] are taken to succeed.  The elements of
    the preload cache enter as they are created ([Preloaded]); the prop
    [preloadedAudio] names one of them.

    Not modelled: the canvas and the render loop ([draw], [animate], the
    resize listener), the attributes [crossOrigin], [loop], [onended]
    and [preload] of the element, the play/pause effect, and the gesture
    listener [resumePlayback] that a NotAllowedError registers (a setup
    that registered it is [Deferred] for good). *)

Module AudioVisualizer.

(** The [src] of an audio element: none, a URL as given, or a URL with
    the cache-buster parameter [_=Date.now()] appended. *)
Inductive Src : Type :=
| NoSrc
| Plain (u : string)
| CacheBusted (u : string).

#[global] Instance Src_eq_dec : EqDecision Src.
Proof. solve_decision. Defined.

(** An [HTMLAudioElement]: its source (a stream is open while it has
    one), whether it is paused, and whether it came from the preload
    cache rather than from [new Audio()] of the controller. *)
Record Element : Type := mkElement {
  src : Src;
  paused : bool;
  cached : bool;
}.

Inductive ContextState : Type :=
| Suspended
| Running
| Closed.

(** A [MediaElementAudioSourceNode]: the element it taps and whether it
    is connected to the analyser. *)
Record SourceNode : Type := mkSource {
  element : nat;
  connected : bool;
}.

(** Where a run of the setup effect is suspended. *)
Inductive Stage : Type :=
| AwaitMetadata            (* first promise: [loadedmetadata] or [error] *)
| AwaitBuffer              (* second promise: [canplaythrough] or [error] *)
| AwaitResume (c : nat)    (* [await audioContextRef.current.resume()] on context [c] *)
| AwaitPlay                (* [await playPromise] *)
| Deferred                 (* NotAllowedError: a gesture listener is registered *)
| Abandoned                (* a handler returned without settling the promise *)
| Finished.

(** One run of the setup effect: its props and the locals of its
    closure. *)
Record Setup : Type := mkSetup {
  audioUrl : string;
  preloadedAudio : option nat;
  isPlaying : bool;
  isCurrentSetup : bool;
  retryCount : nat;
  stage : Stage;
}.

Definition maxRetries : nat := 3.

(** The refs of the component, the platform objects they point to
    (elements, contexts, analysers and source nodes are numbered in the
    order of their creation; an analyser is [true] while connected to the
    destination), and the runs of the setup effect. *)
Record Visualizer : Type := mkVisualizer {
  audioRef : option nat;
  audioContextRef : option nat;
  analyserRef : option nat;
  sourceNodeRef : option nat;
  lastUrlRef : string;
  elements : list Element;
  contexts : list ContextState;
  analysers : list bool;
  sources : list SourceNode;
  userActivated : bool;
  setups : list Setup;
  current : option nat;
}.

Definition mounted : Visualizer :=
  {| audioRef := None; audioContextRef := None; analyserRef := None;
     sourceNodeRef := None; lastUrlRef := ""; elements := [];
     contexts := []; analysers := []; sources := [];
     userActivated := false; setups := []; current := None |}.

Definition set_audioRef (v : option nat) (s : Visualizer) : Visualizer :=
  {| audioRef := v; audioContextRef := audioContextRef s; analyserRef :=
     analyserRef s; sourceNodeRef := sourceNodeRef s; lastUrlRef :=
     lastUrlRef s; elements := elements s; contexts := contexts s;
     analysers := analysers s; sources := sources s; userActivated :=
     userActivated s; setups := setups s; current := current s |}.

Definition set_audioContextRef (v : option nat) (s : Visualizer) : Visualizer :=
  {| audioRef := audioRef s; audioContextRef := v; analyserRef :=
     analyserRef s; sourceNodeRef := sourceNodeRef s; lastUrlRef :=
     lastUrlRef s; elements := elements s; contexts := contexts s;
     analysers := analysers s; sources := sources s; userActivated :=
     userActivated s; setups := setups s; current := current s |}.

Definition set_analyserRef (v : option nat) (s : Visualizer) : Visualizer :=
  {| audioRef := audioRef s; audioContextRef := audioContextRef s;
     analyserRef := v; sourceNodeRef := sourceNodeRef s; lastUrlRef :=
     lastUrlRef s; elements := elements s; contexts := contexts s;
     analysers := analysers s; sources := sources s; userActivated :=
     userActivated s; setups := setups s; current := current s |}.

Definition set_sourceNodeRef (v : option nat) (s : Visualizer) : Visualizer :=
  {| audioRef := audioRef s; audioContextRef := audioContextRef s;
     analyserRef := analyserRef s; sourceNodeRef := v; lastUrlRef :=
     lastUrlRef s; elements := elements s; contexts := contexts s;
     analysers := analysers s; sources := sources s; userActivated :=
     userActivated s; setups := setups s; current := current s |}.

Definition set_lastUrlRef (v : string) (s : Visualizer) : Visualizer :=
  {| audioRef := audioRef s; audioContextRef := audioContextRef s;
     analyserRef := analyserRef s; sourceNodeRef := sourceNodeRef s;
     lastUrlRef := v; elements := elements s; contexts := contexts s;
     analysers := analysers s; sources := sources s; userActivated :=
     userActivated s; setups := setups s; current := current s |}.

Definition set_elements (v : list Element) (s : Visualizer) : Visualizer :=
  {| audioRef := audioRef s; audioContextRef := audioContextRef s;
     analyserRef := analyserRef s; sourceNodeRef := sourceNodeRef s;
     lastUrlRef := lastUrlRef s; elements := v; contexts := contexts
     s; analysers := analysers s; sources := sources s; userActivated
     := userActivated s; setups := setups s; current := current s |}.

Definition set_contexts (v : list ContextState) (s : Visualizer) : Visualizer :=
  {| audioRef := audioRef s; audioContextRef := audioContextRef s;
     analyserRef := analyserRef s; sourceNodeRef := sourceNodeRef s;
     lastUrlRef := lastUrlRef s; elements := elements s; contexts :=
     v; analysers := analysers s; sources := sources s; userActivated
     := userActivated s; setups := setups s; current := current s |}.

Definition set_analysers (v : list bool) (s : Visualizer) : Visualizer :=
  {| audioRef := audioRef s; audioContextRef := audioContextRef s;
     analyserRef := analyserRef s; sourceNodeRef := sourceNodeRef s;
     lastUrlRef := lastUrlRef s; elements := elements s; contexts :=
     contexts s; analysers := v; sources := sources s; userActivated
     := userActivated s; setups := setups s; current := current s |}.

Definition set_sources (v : list SourceNode) (s : Visualizer) : Visualizer :=
  {| audioRef := audioRef s; audioContextRef := audioContextRef s;
     analyserRef := analyserRef s; sourceNodeRef := sourceNodeRef s;
     lastUrlRef := lastUrlRef s; elements := elements s; contexts :=
     contexts s; analysers := analysers s; sources := v; userActivated
     := userActivated s; setups := setups s; current := current s |}.

Definition set_userActivated (v : bool) (s : Visualizer) : Visualizer :=
  {| audioRef := audioRef s; audioContextRef := audioContextRef s;
     analyserRef := analyserRef s; sourceNodeRef := sourceNodeRef s;
     lastUrlRef := lastUrlRef s; elements := elements s; contexts :=
     contexts s; analysers := analysers s; sources := sources s;
     userActivated := v; setups := setups s; current := current s |}.

Definition set_setups (v : list Setup) (s : Visualizer) : Visualizer :=
  {| audioRef := audioRef s; audioContextRef := audioContextRef s;
     analyserRef := analyserRef s; sourceNodeRef := sourceNodeRef s;
     lastUrlRef := lastUrlRef s; elements := elements s; contexts :=
     contexts s; analysers := analysers s; sources := sources s;
     userActivated := userActivated s; setups := v; current := current
     s |}.

Definition set_current (v : option nat) (s : Visualizer) : Visualizer :=
  {| audioRef := audioRef s; audioContextRef := audioContextRef s;
     analyserRef := analyserRef s; sourceNodeRef := sourceNodeRef s;
     lastUrlRef := lastUrlRef s; elements := elements s; contexts :=
     contexts s; analysers := analysers s; sources := sources s;
     userActivated := userActivated s; setups := setups s; current :=
     v |}.


Definition with_stage (st : Stage) (r : Setup) : Setup :=
  {| audioUrl := audioUrl r; preloadedAudio := preloadedAudio r;
     isPlaying := isPlaying r; isCurrentSetup := isCurrentSetup r;
     retryCount := retryCount r; stage := st |}.

Definition with_retryCount (n : nat) (r : Setup) : Setup :=
  {| audioUrl := audioUrl r; preloadedAudio := preloadedAudio r;
     isPlaying := isPlaying r; isCurrentSetup := isCurrentSetup r;
     retryCount := n; stage := stage r |}.

Definition with_isCurrentSetup (b : bool) (r : Setup) : Setup :=
  {| audioUrl := audioUrl r; preloadedAudio := preloadedAudio r;
     isPlaying := isPlaying r; isCurrentSetup := b;
     retryCount := retryCount r; stage := stage r |}.

(** Writes to the locals of run [a] of the setup effect. *)
Definition set_stage (a : nat) (st : Stage) (s : Visualizer) : Visualizer :=
  set_setups (alter (with_stage st) a (setups s)) s.

Definition set_retryCount (a : nat) (n : nat) (s : Visualizer) : Visualizer :=
  set_setups (alter (with_retryCount n) a (setups s)) s.

Definition set_isCurrentSetup (a : nat) (b : bool) (s : Visualizer) : Visualizer :=
  set_setups (alter (with_isCurrentSetup b) a (setups s)) s.

(** [el.pause(); el.src = ''; el.load()] *)
Definition release (el : Element) : Element :=
  {| src := NoSrc; paused := true; cached := cached el |}.

(** [el.removeAttribute('src'); el.load(); el.src = cacheBuster] *)
Definition load_busted (u : string) (el : Element) : Element :=
  {| src := CacheBusted u; paused := true; cached := cached el |}.

Definition set_paused (b : bool) (el : Element) : Element :=
  {| src := src el; paused := b; cached := cached el |}.

Definition disconnect (n : SourceNode) : SourceNode :=
  {| element := element n; connected := false |}.

(** [cleanupAudio] *)
Definition cleanupAudio (s : Visualizer) : Visualizer :=
  let s1 :=
    match sourceNodeRef s with
    | Some n => set_sourceNodeRef None (set_sources (alter disconnect n (sources s)) s)
    | None => s
    end in
  let s2 :=
    match audioRef s1 with
    | Some e => set_audioRef None (set_elements (alter release e (elements s1)) s1)
    | None => s1
    end in
  let s3 :=
    match audioContextRef s2 with
    | Some c => set_audioContextRef None (set_contexts (<[c := Closed]> (contexts s2)) s2)
    | None => s2
    end in
  match analyserRef s3 with
  | Some n => set_analyserRef None (set_analysers (<[n := false]> (analysers s3)) s3)
  | None => s3
  end.

(** [audioRef.current.play()] or [.pause()] on the element the ref
    points to. *)
Definition request_play (e : nat) (s : Visualizer) : Visualizer :=
  set_elements (alter (set_paused false) e (elements s)) s.

Definition request_pause (e : nat) (s : Visualizer) : Visualizer :=
  set_elements (alter (set_paused true) e (elements s)) s.

(** [if (!audioContextRef.current) audioContextRef.current =
    new AudioContext(...)]; a context starts suspended until a user
    gesture has unlocked audio. *)
Definition ensureContext (s : Visualizer) : Visualizer :=
  match audioContextRef s with
  | Some _ => s
  | None =>
      set_audioContextRef (Some (length (contexts s)))
        (set_contexts
           (contexts s ++ [if userActivated s then Running else Suspended]) s)
  end.

(** [if (!analyserRef.current && audioContextRef.current)
    analyserRef.current = audioContextRef.current.createAnalyser()] *)
Definition ensureAnalyser (s : Visualizer) : Visualizer :=
  match analyserRef s, audioContextRef s with
  | None, Some _ =>
      set_analyserRef (Some (length (analysers s)))
        (set_analysers (analysers s ++ [false]) s)
  | _, _ => s
  end.

(** [if (!sourceNodeRef.current && audioRef.current &&
    audioContextRef.current && analyserRef.current)]: the source node is
    created on the element, connected to the analyser, and the analyser
    to the destination. *)
Definition connectNodes (s : Visualizer) : Visualizer :=
  match sourceNodeRef s, audioRef s, audioContextRef s, analyserRef s with
  | None, Some e, Some _, Some n =>
      set_sourceNodeRef (Some (length (sources s)))
        (set_sources (sources s ++ [{| element := e; connected := true |}])
           (set_analysers (<[n := true]> (analysers s)) s))
  | _, _, _, _ => s
  end.

(** [if (isPlaying && audioRef.current && isCurrentSetup)]: resume a
    suspended context first, else request play ([play()] returns a
    promise, which is awaited); otherwise pause. *)
Definition startPlayback (a : nat) (s : Visualizer) : Visualizer :=
  match setups s !! a with
  | None => s
  | Some r =>
      match audioRef s with
      | Some e =>
          if isPlaying r && isCurrentSetup r then
            match audioContextRef s with
            | Some c =>
                match contexts s !! c with
                | Some Suspended => set_stage a (AwaitResume c) s
                | _ => set_stage a AwaitPlay (request_play e s)
                end
            | None => set_stage a AwaitPlay (request_play e s)
            end
          else set_stage a Finished (request_pause e s)
      | None => set_stage a Finished s
      end
  end.

(** The part of [setupAudio] after the two waits, up to the next
    [await]: the lazy construction of context, analyser and source node,
    then the playback decision. *)
Definition buildGraph (a : nat) (s : Visualizer) : Visualizer :=
  startPlayback a (connectNodes (ensureAnalyser (ensureContext s))).

(** [if (!audioRef.current) audioRef.current = preloadedAudio || new Audio()] *)
Definition ensureElement (r : Setup) (s : Visualizer) : Visualizer :=
  match audioRef s with
  | Some _ => s
  | None =>
      match preloadedAudio r with
      | Some p => set_audioRef (Some p) s
      | None =>
          set_audioRef (Some (length (elements s)))
            (set_elements
               (elements s ++ [{| src := NoSrc; paused := true; cached := false |}]) s)
      end
  end.

(** [setupAudio] from its entry to its first [await].  The test
    [audioRef.current.src !== audioUrl] fails only for an element whose
    source is the track URL as given (a preloaded element): track URLs
    are public URLs of the store, so an element without source or with a
    cache-busted source differs. *)
Definition setupAudio (a : nat) (s : Visualizer) : Visualizer :=
  match setups s !! a with
  | None => s
  | Some r =>
      let s1 := ensureElement r s in
      match audioRef s1 with
      | None => s1
      | Some e =>
          if decide (src <$> elements s1 !! e = Some (Plain (audioUrl r)))
          then buildGraph a s1
          else
            let s2 := set_elements (alter (load_busted (audioUrl r)) e (elements s1)) s1 in
            (* the executor of the first promise rejects a cancelled
               setup, and the [catch] then returns at once *)
            if isCurrentSetup r then set_stage a AwaitMetadata s2
            else set_stage a Finished s2
      end
  end.

(** [retryCount++; cleanupAudio(); await setupAudio()] *)
Definition retry (a : nat) (n : nat) (s : Visualizer) : Visualizer :=
  setupAudio a (cleanupAudio (set_retryCount a (S n) s)).

(** The outer [catch]: a failed acquisition. *)
Definition catchSetup (a : nat) (s : Visualizer) : Visualizer :=
  match setups s !! a with
  | None => s
  | Some r =>
      if negb (isCurrentSetup r) then set_stage a Finished s
      else if bool_decide (retryCount r < maxRetries) then retry a (retryCount r) s
      else set_stage a Finished (cleanupAudio s)
  end.

(** The inner [catch]: a failed play attempt, [name] being
    [error.name]. *)
Definition catchPlayback (a : nat) (name : string) (s : Visualizer) : Visualizer :=
  match setups s !! a with
  | None => s
  | Some r =>
      if negb (isCurrentSetup r) then set_stage a Finished s
      else if bool_decide (name = "NotAllowedError"%string) then set_stage a Deferred s
      else if bool_decide (retryCount r < maxRetries) then retry a (retryCount r) s
      else set_stage a Finished s
  end.

(** The cleanup of the setup effect:
    [isCurrentSetup = false; cleanupAudio()]. *)
Definition effectCleanup (s : Visualizer) : Visualizer :=
  match current s with
  | Some a => set_current None (cleanupAudio (set_isCurrentSetup a false s))
  | None => s
  end.

(** A commit in which a dependency of the setup effect changed: the
    cleanup of the previous run of the setup effect, then the
    track-change effect ([cleanupAudio] and [lastUrlRef] when the URL
    differs), then a new run of the setup effect with its own
    [isCurrentSetup] and [retryCount]. *)
Definition render (u : string) (preloaded : option nat) (playing : bool)
    (s : Visualizer) : Visualizer :=
  let s1 := effectCleanup s in
  let s2 :=
    if decide (u = lastUrlRef s1) then s1
    else set_lastUrlRef u (cleanupAudio s1) in
  let a := length (setups s2) in
  setupAudio a
    (set_current (Some a)
       (set_setups
          (setups s2 ++ [{| audioUrl := u; preloadedAudio := preloaded;
                            isPlaying := playing; isCurrentSetup := true;
                            retryCount := 0; stage := Finished |}]) s2)).

(** What can happen to the controller.  Promises are settled by the
    platform; [err] is [None] for fulfilled and the [name] of the error
    for rejected. *)
Inductive Event : Type :=
| Render (u : string) (preloaded : option nat) (playing : bool)
| Unmount
| Activate                                  (* a user gesture unlocks audio *)
| Preloaded (u : string)                    (* the preload cache creates an element for [u] *)
| Loadedmetadata (a : nat) (ready : bool)   (* [ready]: [readyState >= 4] *)
| Canplaythrough (a : nat)
| MediaError (a : nat)
| ResumeSettled (a : nat) (err : option string)
| PlaySettled (a : nat) (err : option string).

Definition onLoadedmetadata (a : nat) (ready : bool) (r : Setup)
    (s : Visualizer) : Visualizer :=
  match stage r with
  | AwaitMetadata =>
      if negb (isCurrentSetup r) then set_stage a Abandoned s
      else
        match audioRef s with
        | None => catchSetup a s
        | Some _ => if ready then buildGraph a s else set_stage a AwaitBuffer s
        end
  | _ => s
  end.

Definition onCanplaythrough (a : nat) (r : Setup) (s : Visualizer) : Visualizer :=
  match stage r with
  | AwaitBuffer =>
      if negb (isCurrentSetup r) then set_stage a Abandoned s
      else buildGraph a s
  | _ => s
  end.

Definition onError (a : nat) (r : Setup) (s : Visualizer) : Visualizer :=
  match stage r with
  | AwaitMetadata | AwaitBuffer =>
      if isCurrentSetup r then catchSetup a s else set_stage a Abandoned s
  | _ => s
  end.

(** After [await audioContextRef.current.resume()]: on success the code
    goes straight on to [audioRef.current.play()], which throws a
    TypeError when the ref is empty. *)
Definition onResumeSettled (a : nat) (err : option string) (r : Setup)
    (s : Visualizer) : Visualizer :=
  match stage r with
  | AwaitResume c =>
      match err with
      | None =>
          let s1 :=
            match contexts s !! c with
            | Some Suspended => set_contexts (<[c := Running]> (contexts s)) s
            | _ => s
            end in
          match audioRef s1 with
          | Some e => set_stage a AwaitPlay (request_play e s1)
          | None => catchPlayback a "TypeError" s1
          end
      | Some name => catchPlayback a name s
      end
  | _ => s
  end.

(** After [await playPromise]: [retryCount = 0] on success. *)
Definition onPlaySettled (a : nat) (err : option string) (r : Setup)
    (s : Visualizer) : Visualizer :=
  match stage r with
  | AwaitPlay =>
      match err with
      | None => set_stage a Finished (set_retryCount a 0 s)
      | Some name => catchPlayback a name s
      end
  | _ => s
  end.

Definition on_setup (a : nat) (k : Setup → Visualizer → Visualizer)
    (s : Visualizer) : Visualizer :=
  match setups s !! a with
  | Some r => k r s
  | None => s
  end.

Definition step (s : Visualizer) (e : Event) : Visualizer :=
  match e with
  | Render u preloaded playing => render u preloaded playing s
  | Unmount => effectCleanup s
  | Activate => set_userActivated true s
  | Preloaded u =>
      set_elements
        (elements s ++ [{| src := Plain u; paused := true; cached := true |}]) s
  | Loadedmetadata a ready => on_setup a (onLoadedmetadata a ready) s
  | Canplaythrough a => on_setup a (onCanplaythrough a) s
  | MediaError a => on_setup a (onError a) s
  | ResumeSettled a err => on_setup a (onResumeSettled a err) s
  | PlaySettled a err => on_setup a (onPlaySettled a err) s
  end.

Definition run (s : Visualizer) (es : list Event) : Visualizer :=
  foldl step s es.


(** ** Auxiliary definitions for the statements about the controller *)

(** Among the objects [l] only the one the ref [r] points to may satisfy
    [P]. *)
Definition only {A} (P : A → Prop) (l : list A) (r : option nat) : Prop :=
  ∀ i x, l !! i = Some x → P x → r = Some i.

Definition is_open (st : ContextState) : Prop := st ≠ Closed.

(** The element holds a stream of the session: it has a source, and it
    is not an element of the preload cache still on the source the cache
    gave it. *)
Definition streaming (el : Element) : Prop :=
  match src el with
  | NoSrc => False
  | Plain _ => cached el = false
  | CacheBusted _ => True
  end.

(** The resources of the session are held through the refs: a context
    that is not closed, a connected source node, a connected analyser and
    an element of the controller that has a source are the ones the refs
    point to, so there is at most one of each. *)
Definition exclusive (s : Visualizer) : Prop :=
  only is_open (contexts s) (audioContextRef s)
  ∧ only (λ n, connected n = true) (sources s) (sourceNodeRef s)
  ∧ only (λ b, b = true) (analysers s) (analyserRef s)
  ∧ only streaming (elements s) (audioRef s).

(** The session is torn down: the refs are empty and nothing is open. *)
Definition torn_down (s : Visualizer) : Prop :=
  audioRef s = None ∧ audioContextRef s = None
  ∧ analyserRef s = None ∧ sourceNodeRef s = None
  ∧ only is_open (contexts s) None
  ∧ only (λ n, connected n = true) (sources s) None
  ∧ only (λ b, b = true) (analysers s) None
  ∧ only streaming (elements s) None.

(** No run of the setup effect has counted more than [maxRetries]
    retries. *)
Definition retries_bounded (s : Visualizer) : Prop :=
  Forall (λ r, retryCount r ≤ maxRetries) (setups s).

(** A run that is in one of these stages has ended: no event moves it. *)
Definition ended (st : Stage) : bool :=
  match st with
  | Deferred | Abandoned | Finished => true
  | AwaitMetadata | AwaitBuffer | AwaitResume _ | AwaitPlay => false
  end.

Definition retryCount_of (a : nat) (s : Visualizer) : nat :=
  default 0 (retryCount <$> setups s !! a).

(** The number of retries run [a] of the setup effect makes along a
    sequence of events; a retry is a step that raises its [retryCount]. *)
Fixpoint retries (a : nat) (s : Visualizer) (es : list Event) : nat :=
  match es with
  | [] => 0
  | e :: es' =>
      (if decide (retryCount_of a s < retryCount_of a (step s e)) then 1 else 0)
      + retries a (step s e) es'
  end.

(** What an event may do to the retry count of a run: leave it, reset
    it when the run ends with a successful play, or raise it by one from
    below [maxRetries]. *)
Definition budgeted (r r' : Setup) : Prop :=
  retryCount r' = retryCount r
  ∨ (retryCount r' = 0 ∧ stage r' = Finished)
  ∨ (retryCount r < maxRetries ∧ retryCount r' = S (retryCount r)).

(** How one event may move a run: within the budget, and not at all
    once the run has ended. *)
Definition moves (r r' : Setup) : Prop :=
  budgeted r r'
  ∧ (ended (stage r) = true → stage r' = stage r ∧ retryCount r' = retryCount r).

(** How one event may change run [a] in the list of runs: an existing
    run moves, a new run starts without a retry counted. *)
Definition run_moves (a : nat) (l l' : list Setup) : Prop :=
  match l !! a with
  | Some r => ∃ r', l' !! a = Some r' ∧ moves r r'
  | None => l' !! a = None ∨ ∃ r', l' !! a = Some r' ∧ retryCount r' = 0
  end.

Definition keeps_count (g : Setup → Setup) : Prop :=
  ∀ r, retryCount (g r) = retryCount r.

(** Stage and retry count of every run are as before. *)
Definition framed (l l' : list Setup) : Prop :=
  Forall2 (λ r r', stage r' = stage r ∧ retryCount r' = retryCount r) l l'.

(** [c] retries of run [a] have been counted so far and the budget
    allows the rest. *)
Definition within_budget (a c : nat) (s : Visualizer) : Prop :=
  match setups s !! a with
  | None => c = 0
  | Some r =>
      c ≤ maxRetries
      ∧ (ended (stage r) = false → c ≤ retryCount r ∧ retryCount r ≤ maxRetries)
  end.

(** The event settles a promise of run [a] of the setup effect. *)
Definition settles (a : nat) (e : Event) : Prop :=
  match e with
  | Loadedmetadata b _ | Canplaythrough b | MediaError b
  | ResumeSettled b _ | PlaySettled b _ => b = a
  | Render _ _ _ | Unmount | Activate | Preloaded _ => False
  end.

(** Nothing of the graph is created, rewired or released between [s]
    and [s']: the refs, the nodes and the sources of the elements are the
    same, and no context was created. *)
Definition same_graph (s s' : Visualizer) : Prop :=
  audioRef s' = audioRef s
  ∧ audioContextRef s' = audioContextRef s
  ∧ analyserRef s' = analyserRef s
  ∧ sourceNodeRef s' = sourceNodeRef s
  ∧ sources s' = sources s
  ∧ analysers s' = analysers s
  ∧ src <$> elements s' = src <$> elements s
  ∧ length (contexts s') = length (contexts s).

(** Four failed play attempts in a row on track [a.webm], after a user
    gesture has unlocked audio. *)
Definition play_fails_four_times : list Event :=
  [Activate; Render "a.webm" None true;
   Loadedmetadata 0 true; PlaySettled 0 (Some "NotSupportedError"%string);
   Loadedmetadata 0 true; PlaySettled 0 (Some "NotSupportedError"%string);
   Loadedmetadata 0 true; PlaySettled 0 (Some "NotSupportedError"%string);
   Loadedmetadata 0 true; PlaySettled 0 (Some "NotSupportedError"%string)].

(** Four failed loads in a row on track [a.webm]. *)
Definition load_fails_four_times : list Event :=
  [Activate; Render "a.webm" None true;
   MediaError 0; MediaError 0; MediaError 0; MediaError 0].

(** Track [a.webm] is set up while audio is still locked, so that the
    setup waits for [resume()]; then the track is switched to
    [b.webm]. *)
Definition switch_during_resume : list Event :=
  [Render "a.webm" None true; Loadedmetadata 0 true;
   Render "b.webm" None true].

(** The preload cache has prepared [b.webm]; track [a.webm] plays, then
    the track changes to [b.webm] with the prepared element, which plays
    at once, and the play attempt fails once. *)
Definition preloaded_switch : list Event :=
  [Activate; Preloaded "b.webm"; Render "a.webm" None true;
   Loadedmetadata 0 true; PlaySettled 0 None;
   Render "b.webm" (Some 0) true;
   PlaySettled 1 (Some "AbortError"%string)].

(** Track [a.webm] plays; then two track changes in a row, the last
    track loading and starting to play. *)
Definition rapid_switches : list Event :=
  [Activate; Render "a.webm" None true; Loadedmetadata 0 true;
   PlaySettled 0 None; Render "b.webm" None true;
   Render "c.webm" None true; Loadedmetadata 2 true; PlaySettled 2 None].

End AudioVisualizer.

(** ** Auxiliary definitions for the invariants of the preloader *)

Module PreloadInvariants.
Import AudioFeed.

(** The three conditions a cache entry for [u] can be in, given what
    the worker waits for: in preparation (then it is the entry the worker
    waits for), loaded, or errored with its element reset. *)
Definition entry_ok (fl : option (string * Pending)) (u : string)
    (e : PreloadedAudio) : Prop :=
  (loaded e = false ∧ error e = false ∧ audio e = u ∧ fl = Some (u, Loading))
  ∨ (loaded e = true ∧ error e = false ∧ audio e = u)
  ∨ (loaded e = false ∧ error e = true ∧ audio e = ""%string).

Definition entries_ok (s : Preload) : Prop :=
  ∀ u e, preloadedAudios s !! u = Some e → entry_ok (inflight s) u e.

(** The flag [isPreloadingRef] is up exactly while a call of
    [processPreloadQueue] is suspended; the URL it took is still the head
    of the queue, and when it waits for the element, the entry of that
    URL is in preparation. *)
Definition worker_ok (s : Preload) : Prop :=
  match inflight s with
  | Some (u, p) =>
      isPreloading s = true
      ∧ head (preloadQueue s) = Some u
      ∧ (p = Loading →
         ∃ e, preloadedAudios s !! u = Some e
              ∧ loaded e = false ∧ error e = false)
  | None => isPreloading s = false
  end.

(** The queue holds no URL twice, and neither queue nor cache hold a URL
    the preloader skips. *)
Definition queue_ok (s : Preload) : Prop :=
  NoDup (preloadQueue s)
  ∧ Forall (λ u, skipped u = false) (preloadQueue s)
  ∧ ∀ u, is_Some (preloadedAudios s !! u) → skipped u = false.

(** A queue that is not empty is being worked on or has a pass
    scheduled. *)
Definition scheduled (s : Preload) : Prop :=
  preloadQueue s ≠ [] → isPreloading s = true ∨ 0 < timers s.

Definition preload_inv (s : Preload) : Prop :=
  worker_ok s ∧ entries_ok s ∧ queue_ok s ∧ scheduled s.

End PreloadInvariants.

(** ** Auxiliary definitions for the invariants of the controller *)

Module SessionInvariants.
Import AudioVisualizer.

(** Only the run the setup effect holds is not cancelled. *)
Definition latest_only (s : Visualizer) : Prop :=
  ∀ a r, setups s !! a = Some r → isCurrentSetup r = true → current s = Some a.

(** The stages in which a run has decided to play: it waits for
    [resume()], for [play()], or for a user gesture. *)
Definition play_requested (st : Stage) : bool :=
  match st with
  | AwaitResume _ | AwaitPlay | Deferred => true
  | AwaitMetadata | AwaitBuffer | Abandoned | Finished => false
  end.

(** A run reaches such a stage only with the prop [isPlaying] set. *)
Definition plays_on_request (r : Setup) : Prop :=
  play_requested (stage r) = true → isPlaying r = true.

(** What holds of the controller between two events: the resources are
    held through the refs, only the run of the effect is not cancelled,
    without a run of the effect nothing is open, and the run of the
    effect is the one started last. *)
Definition session_inv (s : Visualizer) : Prop :=
  exclusive s
  ∧ latest_only s
  ∧ (current s = None → torn_down s)
  ∧ (∀ a, current s = Some a → S a = length (setups s)).

(** The state in which a commit starts its run of the setup effect:
    after the cleanup of the previous run and the track-change effect. *)
Definition committed (u : string) (s : Visualizer) : Visualizer :=
  let s1 := effectCleanup s in
  if decide (u = lastUrlRef s1) then s1 else set_lastUrlRef u (cleanupAudio s1).

End SessionInvariants.

(** ** AudioFeed: taps, swipes, keys, loading and the autoplay effect

    The handlers of the component that the sequencer does not cover.
    Pointer coordinates ([clientX], [clientY]) are rationals, and the
    differences the handlers take of them are exact; times are the
    integer milliseconds of [Date.now()].  A handler that calls
    [handleDoubleTap] yields [None] for the feed when the updater throws
    at the next render; the refs it wrote stay written. *)

Module FeedControls.
Import AudioFeed.

(** [setIsPlaying(prev => !prev)] *)
Definition handlePlayPause (s : Feed) : Feed :=
  setIsPlaying (negb (isPlaying s)) s.

Definition handleTap (s : Feed) : Feed := handlePlayPause s.

Definition handleClick (s : Feed) : Feed := handleTap s.

Definition setAutoplayEnabled (b : bool) (s : Feed) : Feed :=
  {| snippets := snippets s; currentIndex := currentIndex s;
     isPlaying := isPlaying s; autoplayEnabled := b;
     playOrder := playOrder s |}.

(** The [switch (e.key)] of the keydown listener. *)
Definition handleKeyDown (key : string) (s : Feed) : Feed :=
  if bool_decide (key = "ArrowUp"%string) || bool_decide (key = "ArrowLeft"%string)
  then handlePrevious s
  else if bool_decide (key = "ArrowDown"%string)
          || bool_decide (key = "ArrowRight"%string)
  then handleNext s
  else s.

(** The refs of the touch handlers. *)
Record Refs : Type := mkRefs {
  touchStartX : Q;
  touchStartY : Q;
  touchStartTime : Z;
  lastTapTime : Z;
  isTouchMoveRef : bool;
}.

Definition refs_initial : Refs :=
  {| touchStartX := 0; touchStartY := 0; touchStartTime := 0;
     lastTapTime := 0; isTouchMoveRef := false |}.

(** The first entry of [e.touches] or [e.changedTouches]. *)
Record Touch : Type := mkTouch {
  clientX : Q;
  clientY : Q;
}.

(** [!x] on a number: zero is falsy. *)
Definition falsy (x : Q) : bool := Qeq_bool x 0.

(** [a > b] and [a < b] on numbers. *)
Definition gt (a b : Q) : bool := negb (Qle_bool a b).

Definition lt (a b : Q) : bool := gt b a.

Definition handleTouchStart (t : Touch) (now : Z) (r : Refs) : Refs :=
  {| touchStartX := clientX t; touchStartY := clientY t;
     touchStartTime := now; lastTapTime := lastTapTime r;
     isTouchMoveRef := false |}.

Definition handleTouchMove (t : Touch) (r : Refs) : Refs :=
  if falsy (touchStartX r) then r
  else
    let deltaX := (clientX t - touchStartX r)%Q in
    let deltaY := (clientY t - touchStartY r)%Q in
    if gt (Qabs deltaY) (Qabs deltaX) && gt (Qabs deltaY) 50
    then {| touchStartX := touchStartX r; touchStartY := touchStartY r;
            touchStartTime := touchStartTime r; lastTapTime := lastTapTime r;
            isTouchMoveRef := true |}
    else r.

(** The tail of [handleTouchEnd]:
    [touchStartX.current = 0; touchStartY.current = 0]. *)
Definition touchReset (r : Refs) : Refs :=
  {| touchStartX := 0; touchStartY := 0;
     touchStartTime := touchStartTime r; lastTapTime := lastTapTime r;
     isTouchMoveRef := isTouchMoveRef r |}.

Definition set_lastTapTime (now : Z) (r : Refs) : Refs :=
  {| touchStartX := touchStartX r; touchStartY := touchStartY r;
     touchStartTime := touchStartTime r; lastTapTime := now;
     isTouchMoveRef := isTouchMoveRef r |}.

Definition handleTouchEnd (t : Touch) (now : Z) (r : Refs) (s : Feed)
  : Refs * option Feed :=
  if falsy (touchStartX r) then (r, Some s)
  else
    let touchDuration := (now - touchStartTime r)%Z in
    if isTouchMoveRef r then
      let deltaY := (clientY t - touchStartY r)%Q in
      if gt (Qabs deltaY) 50 then
        (touchReset r,
         Some (if gt deltaY 0 then handlePrevious s else handleNext s))
      else (touchReset r, Some s)
    else if (touchDuration <? 200)%Z
            && lt (Qabs (clientX t - touchStartX r)) 10
            && lt (Qabs (clientY t - touchStartY r)) 10
    then
      (touchReset (set_lastTapTime now r),
       if (now - lastTapTime r <? 300)%Z then handleDoubleTap s
       else Some (handleTap s))
    else (touchReset r, Some s).

(** *** Loading *)

(** An entry of the listing of the bucket. *)
Record FileObject : Type := mkFile {
  file_name : string;
  file_created_at : string;
}.

(** What [supabase.storage.from(...).list(...)] resolves to:
    [{ data, error: null }] or [{ data: null, error }]. *)
Inductive Listing : Type :=
| Listed (snippetsData : list FileObject)
| ListFailed.

(** The feed with the [isLoading] cell. *)
Record View : Type := mkView {
  feed : Feed;
  isLoading : bool;
}.

(** State on mount: [useState(true)] for [isLoading]. *)
Definition view_initial : View := {| feed := initial; isLoading := true |}.

(** [snippetsData.map(file => ({ url: ...getPublicUrl(file.name)...,
    name: file.name, created_at: file.created_at }))] *)
Definition rawSnippets (getPublicUrl : string → string)
    (snippetsData : list FileObject) : list AudioSnippet :=
  (λ file, {| url := getPublicUrl (file_name file); name := file_name file;
              created_at := file_created_at file; liked := None |})
    <$> snippetsData.

(** [rawSnippets.filter(s => !s.name.includes('.emptyFolderPlaceholder'))] *)
Definition filteredSnippets (raw : list AudioSnippet) : list AudioSnippet :=
  filter (λ s, JS.includes ".emptyFolderPlaceholder" (name s) = false) raw.

(** An array of numbers without holes, as a list. *)
Definition dense (order : list (option nat)) : option (list nat) :=
  mapM id order.

(** [fetchSnippets] after its [await].  The generated order is stored as
    it is; [None] stands for an order with a hole, which the state of
    this model cannot hold and which takes a value of [Math.random()]
    outside [0, 1). *)
Definition fetchSnippets (random : nat → Q) (getPublicUrl : string → string)
    (response : Listing) (v : View) : option View :=
  match response with
  | ListFailed => Some {| feed := feed v; isLoading := false |}
  | Listed snippetsData =>
      let filtered := filteredSnippets (rawSnippets getPublicUrl snippetsData) in
      match dense (generatePlayOrder random (length filtered)) with
      | Some newOrder =>
          Some {| feed := setSnippets filtered (setPlayOrder newOrder (feed v));
                  isLoading := false |}
      | None => None
      end
  end.

(** [initializeAudio] after [await fetchSnippets()]:
    [setAutoplayEnabled(true); setIsPlaying(false)]. *)
Definition initializeAudio (s : Feed) : Feed :=
  setIsPlaying false (setAutoplayEnabled true s).

(** The autoplay effect:
    [if (!snippets.length || !autoplayEnabled) return; setIsPlaying(true)]. *)
Definition autoplayEffect (s : Feed) : Feed :=
  if bool_decide (length (snippets s) = 0) || negb (autoplayEnabled s) then s
  else setIsPlaying true s.

(** A commit from [prev] to [next]: the autoplay effect runs when one of
    its dependencies [snippets.length], [autoplayEnabled] has changed. *)
Definition commit (prev next : Feed) : Feed :=
  if bool_decide (length (snippets next) = length (snippets prev))
     && bool_decide (autoplayEnabled next = autoplayEnabled prev)
  then next
  else autoplayEffect next.

(** The button of the header: [setAutoplayEnabled(prev => !prev)]. *)
Definition toggleAutoplay (s : Feed) : Feed :=
  setAutoplayEnabled (negb (autoplayEnabled s)) s.

(** Mount to first idle state, the listing being [response].  The
    updates of [fetchSnippets] and those of [initializeAudio] are made
    in two steps of the same promise chain; React may commit them one
    after the other ([separately = true]) or together. *)
Definition mount (separately : bool) (random : nat → Q)
    (getPublicUrl : string → string) (response : Listing) : option View :=
  match fetchSnippets random getPublicUrl response view_initial with
  | None => None
  | Some v1 =>
      let f0 := feed view_initial in
      let f :=
        if separately then
          let f1 := commit f0 (feed v1) in
          commit f1 (initializeAudio f1)
        else commit f0 (initializeAudio (feed v1)) in
      Some {| feed := f; isLoading := isLoading v1 |}
  end.

(** *** The progress bar *)

(** The value of a division of numbers. *)
Inductive Quotient : Type :=
| Finite (q : Q)
| Infinite (positive : bool)
| Undefined.                 (* NaN *)

(** [(currentIndex / (snippets.length - 1)) * 100], the height of the
    progress bar in percent. *)
Definition progressHeight (s : Feed) : Quotient :=
  match currentIndex s with
  | JS.NaN => Undefined
  | JS.Int i =>
      let d := (Z.of_nat (length (snippets s)) - 1)%Z in
      if (d =? 0)%Z then
        if (i =? 0)%Z then Undefined else Infinite (0 <? i)%Z
      else Finite (inject_Z i / inject_Z d * 100)
  end.

(** *** What the user and the player can do to a loaded feed *)

Inductive Action : Type :=
| KeyDown (key : string)
| Click
| TouchStart (t : Touch) (now : Z)
| TouchMove (t : Touch)
| TouchEnd (t : Touch) (now : Z)
| TrackEnded                      (* [onEnded] of the visualizer *)
| AutoplayButton.

(** One action and the commit that follows it; [None] for the feed when
    the render throws. *)
Definition act (a : Action) (r : Refs) (s : Feed) : Refs * option Feed :=
  let (r', s') :=
    match a with
    | KeyDown key => (r, Some (handleKeyDown key s))
    | Click => (r, Some (handleClick s))
    | TouchStart t now => (handleTouchStart t now r, Some s)
    | TouchMove t => (handleTouchMove t r, Some s)
    | TouchEnd t now => handleTouchEnd t now r s
    | TrackEnded => (r, Some (handleTrackEnd s))
    | AutoplayButton => (r, Some (toggleAutoplay s))
    end in
  (r', commit s <$> s').

(** A sequence of actions; after a render has thrown nothing is handled
    any more. *)
Fixpoint perform (acts : list Action) (r : Refs) (s : Feed)
  : Refs * option Feed :=
  match acts with
  | [] => (r, Some s)
  | a :: acts' =>
      match act a r s with
      | (r', Some s') => perform acts' r' s'
      | (r', None) => (r', None)
      end
  end.


(** A feed as a successful fetch leaves it, at a position the handlers
    can reach: the play order is a permutation of the indices of a
    non-empty track list and the index is within the list. *)
Definition loaded_feed (s : Feed) : Prop :=
  snippets s ≠ []
  ∧ playOrder s ≡ₚ seq 0 (length (snippets s))
  ∧ ∃ i : nat, currentIndex s = JS.of_nat i ∧ i < length (snippets s).

(** The tracks are the same up to their [liked] flags. *)
Definition same_tracks (l l' : list AudioSnippet) : Prop :=
  Forall2 (λ t t', url t' = url t ∧ name t' = name t
                   ∧ created_at t' = created_at t) l l'.

End FeedControls.

(** ** AudioRecorder: the record button

    [startRecording] is cut at [await getUserMedia(...)]; the platform
    fulfils or rejects the request later.  A [MediaRecorder] is kept as
    whether it is recording and whether the tracks of its stream are
    live; blobs are numbered.  The platform decides when a recorder
    delivers data and when its [stop] event fires: these are events of
    the model.  [recording] and [live] are what the handlers have made
    of a recorder: the constructor and [start()] are taken to succeed,
    and a recorder is not taken to stop by itself.  [stopRecording] reads
    [isRecording] as of the last render, which is taken to have happened
    before the next event.  The file name and the outcome of the upload
    are left out (the outcome is only logged). *)

Module AudioRecorder.

Record MediaRecorder : Type := mkMediaRecorder {
  recording : bool;
  live : bool;
}.

(** The state cell, the two refs, the recorders created so far, the
    requests for the microphone that are still pending, and the blobs
    handed to [upload], oldest first. *)
Record Recorder : Type := mkRecorder {
  isRecording : bool;
  mediaRecorder : option nat;
  audioChunks : list nat;
  recorders : list MediaRecorder;
  requests : nat;
  uploads : list (list nat);
}.

Definition recorder_initial : Recorder :=
  {| isRecording := false; mediaRecorder := None; audioChunks := [];
     recorders := []; requests := 0; uploads := [] |}.

(** [startRecording] up to its [await]. *)
Definition startRecording (s : Recorder) : Recorder :=
  {| isRecording := isRecording s; mediaRecorder := mediaRecorder s;
     audioChunks := audioChunks s; recorders := recorders s;
     requests := S (requests s); uploads := uploads s |}.

(** [startRecording] after the request is fulfilled: a recorder is
    created on the stream, its handlers are set, it is started, and
    [setIsRecording(true)]. *)
Definition granted (s : Recorder) : Recorder :=
  match requests s with
  | 0 => s
  | S n =>
      {| isRecording := true;
         mediaRecorder := Some (length (recorders s));
         audioChunks := audioChunks s;
         recorders := recorders s ++ [{| recording := true; live := true |}];
         requests := n; uploads := uploads s |}
  end.

(** The request is rejected: the [catch] logs the error. *)
Definition denied (s : Recorder) : Recorder :=
  match requests s with
  | 0 => s
  | S n =>
      {| isRecording := isRecording s; mediaRecorder := mediaRecorder s;
         audioChunks := audioChunks s; recorders := recorders s;
         requests := n; uploads := uploads s |}
  end.

(** [stopRecording]: [if (mediaRecorder.current && isRecording)] the
    recorder is stopped, the tracks of its stream are stopped, and
    [setIsRecording(false)]. *)
Definition stopRecording (s : Recorder) : Recorder :=
  match mediaRecorder s with
  | Some m =>
      if isRecording s then
        {| isRecording := false; mediaRecorder := mediaRecorder s;
           audioChunks := audioChunks s;
           recorders :=
             alter (λ _, {| recording := false; live := false |}) m (recorders s);
           requests := requests s; uploads := uploads s |}
      else s
  | None => s
  end.

(** [ondataavailable]: [audioChunks.current.push(e.data)]. *)
Definition ondataavailable (blob : nat) (s : Recorder) : Recorder :=
  {| isRecording := isRecording s; mediaRecorder := mediaRecorder s;
     audioChunks := audioChunks s ++ [blob]; recorders := recorders s;
     requests := requests s; uploads := uploads s |}.

(** [onstop] up to its [await]: the chunks are made into one blob, the
    buffer is emptied, and the blob is handed to [upload]. *)
Definition onstop (s : Recorder) : Recorder :=
  {| isRecording := isRecording s; mediaRecorder := mediaRecorder s;
     audioChunks := []; recorders := recorders s;
     requests := requests s; uploads := uploads s ++ [audioChunks s] |}.

Inductive RecorderEvent : Type :=
| Press                            (* mousedown or touchstart on the button *)
| Release                          (* mouseup or touchend on the button *)
| Granted                          (* a pending [getUserMedia] is fulfilled *)
| Denied                           (* a pending [getUserMedia] is rejected *)
| Dataavailable (m : nat) (blob : nat)
| Stop (m : nat).                  (* the [stop] event of recorder [m] *)

(** One reaction; the events of a recorder that does not exist do not
    happen. *)
Definition recorder_step (s : Recorder) (e : RecorderEvent) : Recorder :=
  match e with
  | Press => startRecording s
  | Release => stopRecording s
  | Granted => granted s
  | Denied => denied s
  | Dataavailable m blob =>
      if decide (m < length (recorders s)) then ondataavailable blob s else s
  | Stop m => if decide (m < length (recorders s)) then onstop s else s
  end.

Definition recorder_run (s : Recorder) (es : list RecorderEvent) : Recorder :=
  foldl recorder_step s es.

(** The blobs the recorders deliver along a sequence of events, in the
    order of delivery. *)
Fixpoint delivered (s : Recorder) (es : list RecorderEvent) : list nat :=
  match es with
  | [] => []
  | e :: es' =>
      match e with
      | Dataavailable m blob =>
          if decide (m < length (recorders s)) then [blob] else []
      | _ => []
      end ++ delivered (recorder_step s e) es'
  end.

(** What holds of the recorder between two events: the ref holds the
    recorder created last, and while [isRecording] is set that recorder
    has not been stopped. *)
Definition recorder_inv (s : Recorder) : Prop :=
  match mediaRecorder s with
  | Some c =>
      S c = length (recorders s)
      ∧ (isRecording s = true →
         recorders s !! c = Some {| recording := true; live := true |})
  | None => recorders s = [] ∧ isRecording s = false
  end.

End AudioRecorder.

(** * Properties of the feed sequencer *)

Module FeedProofs.
Import AudioFeed.

Lemma rem_nonneg_mod (a n : Z) :
  (0 ≤ a)%Z → (0 < n)%Z → Z.rem a n = (a `mod` n)%Z ∧ (0 ≤ Z.rem a n < n)%Z.
Proof.
  intros Ha Hn. rewrite Z.rem_mod_nonneg by lia.
  split; [done | apply Z.mod_pos_bound; lia].
Qed.

Lemma rem_succ_pred (z n : Z) :
  (0 ≤ z)%Z → (0 < n)%Z →
  Z.rem (Z.rem (Z.rem (z + 1) n - 1 + n) n) n = Z.rem z n.
Proof.
  intros Hz Hn.
  destruct (rem_nonneg_mod (z + 1) n) as [E1 B1]; [lia.. |].
  destruct (rem_nonneg_mod (Z.rem (z + 1) n - 1 + n) n) as [E2 B2]; [lia.. |].
  destruct (rem_nonneg_mod (Z.rem (Z.rem (z + 1) n - 1 + n) n) n) as [E3 _]; [lia.. |].
  destruct (rem_nonneg_mod z n) as [E4 _]; [lia.. |].
  rewrite E3, E2, E1, E4, Z.mod_mod by lia.
  replace ((z + 1) `mod` n - 1 + n)%Z with ((z + 1) `mod` n + (n - 1))%Z by lia.
  rewrite Zplus_mod_idemp_l.
  replace (z + 1 + (n - 1))%Z with (z + 1 * n)%Z by lia.
  apply Z_mod_plus_full.
Qed.

Lemma rem_pred_succ (z n : Z) :
  (0 ≤ z)%Z → (0 < n)%Z →
  Z.rem (Z.rem (Z.rem (z - 1 + n) n + 1) n) n = Z.rem z n.
Proof.
  intros Hz Hn.
  destruct (rem_nonneg_mod (z - 1 + n) n) as [E1 B1]; [lia.. |].
  destruct (rem_nonneg_mod (Z.rem (z - 1 + n) n + 1) n) as [E2 B2]; [lia.. |].
  destruct (rem_nonneg_mod (Z.rem (Z.rem (z - 1 + n) n + 1) n) n) as [E3 _]; [lia.. |].
  destruct (rem_nonneg_mod z n) as [E4 _]; [lia.. |].
  rewrite E3, E2, E1, E4, Z.mod_mod by lia.
  rewrite Zplus_mod_idemp_l.
  replace (z - 1 + n + 1)%Z with (z + 1 * n)%Z by lia.
  apply Z_mod_plus_full.
Qed.

(** The handlers keep the index a non-negative integer or [NaN]. *)
Lemma initial_index_ok : index_ok (currentIndex initial).
Proof. simpl. lia. Qed.

Lemma handleNext_index_ok s :
  index_ok (currentIndex s) → index_ok (currentIndex (handleNext s)).
Proof.
  unfold handleNext; simpl. destruct (currentIndex s) as [z|]; simpl; [|done].
  intros Hz. case_match; simpl; [done|].
  apply Z.rem_nonneg; lia.
Qed.

Lemma handlePrevious_index_ok s :
  index_ok (currentIndex s) → index_ok (currentIndex (handlePrevious s)).
Proof.
  unfold handlePrevious; simpl. destruct (currentIndex s) as [z|]; simpl; [|done].
  intros Hz. case_match eqn:E; simpl; [done|].
  apply Z.eqb_neq in E.
  apply Z.rem_nonneg; lia.
Qed.

Lemma getCurrentTrack_rem s s' :
  snippets s' = snippets s → playOrder s' = playOrder s →
  JS.rem (currentIndex s') (JS.of_nat (length (playOrder s)))
  = JS.rem (currentIndex s) (JS.of_nat (length (playOrder s))) →
  getCurrentTrack s' = getCurrentTrack s.
Proof.
  intros Hs Ho Hi. unfold getCurrentTrack. rewrite Hs, Ho, Hi. done.
Qed.

(** C7.  On a non-empty track list whose play order has the same length,
    [next()] then [previous()], and [previous()] then [next()], bring
    [currentIndex % length] back to what it was, and with it the current
    track.  The index ranges over the values the handlers can leave in
    [currentIndex]: a non-negative integer or [NaN]. *)
Theorem next_previous_restores_position (s : Feed) :
  snippets s ≠ [] →
  length (playOrder s) = length (snippets s) →
  index_ok (currentIndex s) →
  let n := JS.of_nat (length (snippets s)) in
  JS.rem (currentIndex (handlePrevious (handleNext s))) n = JS.rem (currentIndex s) n
  ∧ JS.rem (currentIndex (handleNext (handlePrevious s))) n = JS.rem (currentIndex s) n
  ∧ getCurrentTrack (handlePrevious (handleNext s)) = getCurrentTrack s
  ∧ getCurrentTrack (handleNext (handlePrevious s)) = getCurrentTrack s.
Proof.
  intros Hne Hlen Hok n.
  assert (Hn : length (snippets s) ≠ 0) by (by destruct (snippets s)).
  assert (E1 : JS.rem (currentIndex (handlePrevious (handleNext s))) n
               = JS.rem (currentIndex s) n).
  { unfold handlePrevious, handleNext, n; simpl.
    destruct (currentIndex s) as [z|]; simpl in *; [|done].
    destruct (Z.eqb_spec (Z.of_nat (length (snippets s))) 0) as [?|_]; [lia|].
    simpl. destruct (Z.eqb_spec (Z.of_nat (length (snippets s))) 0) as [?|_]; [lia|].
    simpl. destruct (Z.eqb_spec (Z.of_nat (length (snippets s))) 0) as [?|_]; [lia|].
    f_equal. apply rem_succ_pred; lia. }
  assert (E2 : JS.rem (currentIndex (handleNext (handlePrevious s))) n
               = JS.rem (currentIndex s) n).
  { unfold handlePrevious, handleNext, n; simpl.
    destruct (currentIndex s) as [z|]; simpl in *; [|done].
    destruct (Z.eqb_spec (Z.of_nat (length (snippets s))) 0) as [?|_]; [lia|].
    simpl. destruct (Z.eqb_spec (Z.of_nat (length (snippets s))) 0) as [?|_]; [lia|].
    simpl. destruct (Z.eqb_spec (Z.of_nat (length (snippets s))) 0) as [?|_]; [lia|].
    f_equal. apply rem_pred_succ; lia. }
  split; [done|]. split; [done|].
  split; apply getCurrentTrack_rem; try done; rewrite Hlen; done.
Qed.

Lemma next_previous_restores_position_witness :
  getCurrentTrack (handlePrevious (handleNext scenario)) = Some trackB.
Proof.
  transitivity (getCurrentTrack scenario); [|reflexivity].
  apply (next_previous_restores_position scenario);
    [discriminate | reflexivity | simpl; lia].
Defined.

(** The scenario of the specification: B, then A, then C, then B again. *)
Example scenario_walk :
  getCurrentTrack scenario = Some trackB
  ∧ getCurrentTrack (handleNext scenario) = Some trackA
  ∧ getCurrentTrack (handleNext (handleNext scenario)) = Some trackC
  ∧ getCurrentTrack (handleNext (handleNext (handleNext scenario))) = Some trackB.
Proof. repeat split. Qed.

(** What [handleDoubleTap] does: it replaces the entry at index
    [currentIndex] of the track list itself, whatever the play order. *)
Lemma handleDoubleTap_in_range (s : Feed) (i : nat) (t : AudioSnippet) :
  currentIndex s = JS.of_nat i →
  snippets s !! i = Some t →
  snippets <$> handleDoubleTap s
  = Some (<[i := set_liked (JS.not (liked t)) t]> (snippets s)).
Proof.
  intros Hi Ht. unfold handleDoubleTap, toggleAt. rewrite Hi. simpl.
  destruct (Z.ltb_spec (Z.of_nat i) 0); [lia|].
  rewrite Nat2Z.id, Ht. done.
Qed.

(** C2.  With tracks [A, B, C] in play order [1, 0, 2] and
    [currentIndex = 0] the current track is B, and the double tap flips
    the [liked] flag of A: B is left as it was, and the result differs
    from the toggle at the current play-order position. *)
Theorem handleDoubleTap_toggles_by_raw_index :
  getCurrentTrack scenario = Some trackB
  ∧ snippets <$> handleDoubleTap scenario
    = Some [set_liked true trackA; trackB; trackC]
  ∧ toggleLike_spec scenario = Some [trackA; set_liked true trackB; trackC]
  ∧ snippets <$> handleDoubleTap scenario ≠ toggleLike_spec scenario.
Proof. repeat split. discriminate. Qed.

(** C9.  With an empty track list [handleNext] and [handlePrevious]
    return, but the remainder by the length 0 is not guarded: the index
    becomes [NaN].  It stays [NaN] under every later navigation, also
    once tracks are loaded, and no track is current any more. *)
Theorem navigation_on_empty_list_yields_NaN :
  currentIndex (handleNext initial) = JS.NaN
  ∧ currentIndex (handlePrevious initial) = JS.NaN
  ∧ ∀ tracks order,
      let s := setPlayOrder order (setSnippets tracks (handleNext initial)) in
      currentIndex (handleNext s) = JS.NaN
      ∧ currentIndex (handlePrevious s) = JS.NaN
      ∧ getCurrentTrack s = None.
Proof.
  repeat split.
  unfold getCurrentTrack; simpl.
  destruct (bool_decide _ || bool_decide _); done.
Qed.

End FeedProofs.

(** * The play order is a permutation *)

Module ShuffleProofs.
Import AudioFeed.

Section Draws.
Variable random : nat → Q.
Hypothesis random_unit : unit_interval random.

(** [Math.floor(Math.random() * (i + 1))] is an index from 0 to [i]. *)
Lemma draw_in_range (k i : nat) :
  (0 ≤ Qfloor (random k * inject_Z (Z.of_nat i + 1)) ≤ Z.of_nat i)%Z.
Proof.
  destruct (random_unit k) as [Hlo Hhi].
  assert (Hpos : (0 < inject_Z (Z.of_nat i + 1))%Q).
  { rewrite <- (Zlt_Qlt 0). lia. }
  split.
  - rewrite <- (Qfloor_Z 0). apply Qfloor_resp_le.
    apply Qmult_le_0_compat; [done | by apply Qlt_le_weak].
  - assert (Hlt : (random k * inject_Z (Z.of_nat i + 1)
                   < inject_Z (Z.of_nat i + 1))%Q).
    { rewrite <- (Qmult_1_l (inject_Z (Z.of_nat i + 1))) at 2.
      by apply Qmult_lt_compat_r. }
    pose proof (Qfloor_le (random k * inject_Z (Z.of_nat i + 1))) as Hfl.
    assert (Hz : (inject_Z (Qfloor (random k * inject_Z (Z.of_nat i + 1)))
                  < inject_Z (Z.of_nat i + 1))%Q)
      by (eapply Qle_lt_trans; eassumption).
    rewrite <- Zlt_Qlt in Hz. lia.
Qed.
End Draws.

(** Reads and writes inside a dense array of numbers. *)
Lemma get_dense (l : list nat) (z : Z) :
  (0 ≤ z < Z.of_nat (length l))%Z →
  JS.get (Some <$> l) z = l !! Z.to_nat z.
Proof.
  intros Hz. unfold JS.get.
  destruct (Z.ltb_spec z 0); [lia|].
  rewrite list_lookup_fmap.
  destruct (lookup_lt_is_Some_2 l (Z.to_nat z)) as [x ->]; [lia | done].
Qed.

Lemma set_dense (l : list nat) (z : Z) (v : nat) :
  (0 ≤ z < Z.of_nat (length l))%Z →
  JS.set (Some <$> l) z (Some v) = Some <$> <[Z.to_nat z := v]> l.
Proof.
  intros Hz. unfold JS.set.
  destruct (Z.ltb_spec z 0); [lia|].
  rewrite length_fmap. case_decide; [|lia].
  by rewrite list_fmap_insert.
Qed.

(** One pass of the loop body swaps two slots of a dense array. *)
Lemma swap_dense (l : list nat) (i : nat) (j : Z) :
  i < length l → (0 ≤ j ≤ Z.of_nat i)%Z →
  ∃ l', JS.set (JS.set (Some <$> l) (Z.of_nat i) (JS.get (Some <$> l) j)) j
               (JS.get (Some <$> l) (Z.of_nat i))
        = Some <$> l'
        ∧ l' ≡ₚ l.
Proof.
  intros Hi Hj.
  destruct (lookup_lt_is_Some_2 l i) as [a Ha]; [done|].
  destruct (lookup_lt_is_Some_2 l (Z.to_nat j)) as [b Hb]; [lia|].
  rewrite !get_dense by lia. rewrite Nat2Z.id, Ha, Hb.
  rewrite set_dense by lia. rewrite Nat2Z.id.
  rewrite set_dense by (rewrite length_insert; lia).
  eexists; split; [done|].
  by apply Permutation_insert_swap.
Qed.

Lemma shuffleFrom_permutation (random : nat → Q) :
  unit_interval random →
  ∀ (i calls : nat) (l : list nat),
    i < length l ∨ i = 0 →
    ∃ l', shuffleFrom random calls i (Some <$> l) = Some <$> l' ∧ l' ≡ₚ l.
Proof.
  intros Hr. induction i as [|i IH]; intros calls l Hi; cbn [shuffleFrom].
  - by exists l.
  - destruct Hi as [Hi|?]; [|done].
    destruct (swap_dense l (S i)
                (Qfloor (random calls * inject_Z (Z.of_nat (S i) + 1))))
      as (l1 & -> & Hp1); [done | by apply draw_in_range |].
    destruct (IH (S calls) l1) as (l2 & -> & Hp2).
    { left. rewrite Hp1. lia. }
    exists l2. split; [done|]. by rewrite Hp2.
Qed.

Lemma Sorted_seq (a n : nat) : Sorted le (seq a n).
Proof.
  revert a. induction n as [|n IH]; intros a; simpl; [constructor|].
  constructor; [apply IH|].
  destruct n; simpl; constructor. lia.
Qed.

(** C8.  When [Math.random()] returns numbers in [0, 1), the play order
    generated for a list of [n] tracks is a dense array of [n] numbers
    that is a permutation of [0 .. n-1]: sorting it gives [0 .. n-1], it
    has no duplicates and holds exactly the indices below [n]. *)
Theorem generatePlayOrder_permutation (random : nat → Q) (n : nat) :
  unit_interval random →
  ∃ order : list nat,
    generatePlayOrder random n = Some <$> order
    ∧ length order = n
    ∧ order ≡ₚ seq 0 n
    ∧ merge_sort le order = seq 0 n
    ∧ NoDup order
    ∧ ∀ i, i ∈ order ↔ i < n.
Proof.
  intros Hr. unfold generatePlayOrder.
  destruct (shuffleFrom_permutation random Hr (n - 1) 0 (seq 0 n))
    as (order & -> & Hp).
  { rewrite length_seq. lia. }
  exists order. split; [done|].
  split; [by rewrite Hp, length_seq|].
  split; [done|].
  split.
  { apply (Sorted_unique le).
    - apply Sorted_merge_sort; apply _.
    - apply Sorted_seq.
    - by rewrite merge_sort_Permutation. }
  split; [rewrite Hp; apply NoDup_seq|].
  intros i. rewrite Hp, elem_of_seq. lia.
Qed.

Lemma generatePlayOrder_permutation_witness :
  ∃ order : list nat,
    generatePlayOrder (λ k, Z.of_nat (k mod 7) # 7)%Q 6 = Some <$> order
    ∧ length order = 6
    ∧ order ≡ₚ seq 0 6
    ∧ merge_sort le order = seq 0 6
    ∧ NoDup order
    ∧ ∀ i, i ∈ order ↔ i < 6.
Proof.
  apply (generatePlayOrder_permutation (λ k, Z.of_nat (k mod 7) # 7)%Q 6).
  intros k. pose proof (Nat.mod_upper_bound k 7). split.
  - unfold Qle; simpl. lia.
  - unfold Qlt; simpl. lia.
Defined.

End ShuffleProofs.

(** * Properties of the preload cache *)

Module PreloadProofs.
Import AudioFeed.

Implicit Types (c : gmap string PreloadedAudio) (s : Preload) (u : string).

Lemma size_as_dom c : size c = size (dom c).
Proof. symmetry. apply size_dom. Qed.

Lemma grows_refl c : grows c c.
Proof. by left. Qed.

Lemma grows_size c c' : grows c c' → size c ≤ size c'.
Proof.
  rewrite !size_as_dom. intros [->|(u & Hu & -> & _)]; [done|].
  rewrite size_union by set_solver. lia.
Qed.

Lemma grows_bound c c' :
  grows c c' → size c ≤ maxPreloadCount → size c' ≤ maxPreloadCount.
Proof.
  intros [Hd|(u & Hu & Hd & Hlt)] Hle.
  - by rewrite size_as_dom, Hd, <- size_as_dom.
  - rewrite size_as_dom, Hd.
    rewrite size_union by (by apply disjoint_singleton_l).
    rewrite size_singleton, <- size_as_dom. lia.
Qed.

Lemma grows_full c c' :
  grows c c' → maxPreloadCount ≤ size c → dom c' = dom c.
Proof. intros [H|(u & _ & _ & Hlt)] Hle; [done | lia]. Qed.

Lemma grows_subseteq c c' : grows c c' → dom c ⊆ dom c'.
Proof. intros [->|(u & _ & -> & _)]; set_solver. Qed.

Lemma grows_alter c c' f u : grows c c' → grows c (alter f u c').
Proof. unfold grows. by rewrite dom_alter_L. Qed.

Lemma preloadAudio_full u c :
  maxPreloadCount ≤ size c → preloadAudio u c = (c, Returned).
Proof.
  intros Hfull. unfold preloadAudio.
  destruct (skipped u); [done|].
  by rewrite bool_decide_eq_true_2.
Qed.

Lemma preloadAudio_grows u c : grows c (preloadAudio u c).1.
Proof.
  unfold preloadAudio.
  destruct (skipped u); [apply grows_refl|].
  case_bool_decide as Hsz; [apply grows_refl|].
  destruct (c !! u) as [existing|] eqn:Hu.
  - destruct (error existing); [|apply grows_refl].
    left; simpl. rewrite insert_delete_eq.
    apply dom_insert_lookup_L. by rewrite Hu.
  - right; simpl. exists u. split; [by apply not_elem_of_dom|].
    split; [apply dom_insert_L | lia].
Qed.

Lemma processPreloadQueue_grows s :
  grows (preloadedAudios s) (preloadedAudios (processPreloadQueue s)).
Proof.
  unfold processPreloadQueue.
  destruct (isPreloading s); [apply grows_refl|].
  destruct (preloadQueue s); [apply grows_refl|].
  apply preloadAudio_grows.
Qed.

Lemma queuePreload_grows u s :
  grows (preloadedAudios s) (preloadedAudios (queuePreload u s)).
Proof.
  unfold queuePreload.
  destruct (skipped u); [apply grows_refl|].
  destruct (_ && _); [|apply grows_refl].
  apply (processPreloadQueue_grows (mkPreload _ _ _ _ _)).
Qed.

Lemma preload_step_grows s e :
  grows (preloadedAudios s) (preloadedAudios (preload_step s e)).
Proof.
  destruct e as [u| | | |]; simpl.
  - apply queuePreload_grows.
  - destruct (timers s); [apply grows_refl|].
    apply (processPreloadQueue_grows (mkPreload _ _ _ _ _)).
  - destruct (inflight s) as [[? []]|]; apply grows_refl.
  - destruct (inflight s) as [[? []]|]; try apply grows_refl.
    simpl. apply grows_alter, grows_refl.
  - destruct (inflight s) as [[? []]|]; try apply grows_refl.
    simpl. apply grows_alter, grows_refl.
Qed.

Lemma preload_run_snoc s es e :
  preload_run s (es ++ [e]) = preload_step (preload_run s es) e.
Proof. unfold preload_run. by rewrite foldl_app. Qed.

Lemma preload_run_size_le s es :
  size (preloadedAudios s) ≤ size (preloadedAudios (preload_run s es)).
Proof.
  induction es as [|e es IH] using rev_ind; [done|].
  rewrite preload_run_snoc. etrans; [apply IH|].
  apply grows_size, preload_step_grows.
Qed.

(** C5.  Every sequence of warm requests, timer passes and load events
    keeps the cache at 3 entries at most, and the cache holds each URL
    once. *)
Theorem preload_cache_bounded s es :
  size (preloadedAudios s) ≤ 3 →
  size (preloadedAudios (preload_run s es)) ≤ 3
  ∧ NoDup (map_to_list (preloadedAudios (preload_run s es))).*1.
Proof.
  intros Hs. split; [|apply NoDup_fst_map_to_list].
  induction es as [|e es IH] using rev_ind; [done|].
  rewrite preload_run_snoc.
  eapply (grows_bound _ _ (preload_step_grows _ e)), IH.
Qed.

Lemma preload_cache_bounded_witness :
  size (preloadedAudios
          (preload_run preload_initial
             [Warm "a.webm"; CanPlayThrough; Warm "b.webm"; LoadError;
              Warm "c.webm"; Warm "d.webm"; CanPlayThrough; Timeout;
              Microtask; Timeout; Microtask])) ≤ 3.
Proof.
  apply (preload_cache_bounded preload_initial).
  vm_compute. lia.
Defined.

(** C10.  No operation shrinks the cache: its key set only grows, so its
    size never decreases; and from the moment it holds 3 entries its key
    set stays as it is for every further sequence of events, each call of
    [preloadAudio] returning before it prepares anything. *)
Theorem preload_cache_never_shrinks :
  (∀ s e, dom (preloadedAudios s) ⊆ dom (preloadedAudios (preload_step s e))
          ∧ size (preloadedAudios s) ≤ size (preloadedAudios (preload_step s e)))
  ∧ (∀ s es,
       3 ≤ size (preloadedAudios s) →
       let s' := preload_run s es in
       dom (preloadedAudios s') = dom (preloadedAudios s)
       ∧ ∀ u, preloadAudio u (preloadedAudios s') = (preloadedAudios s', Returned)).
Proof.
  split.
  - intros s e. split.
    + apply grows_subseteq, preload_step_grows.
    + apply grows_size, preload_step_grows.
  - intros s es Hfull s'.
    assert (Hdom : dom (preloadedAudios s') = dom (preloadedAudios s)).
    { subst s'. induction es as [|e es IH] using rev_ind; [done|].
      rewrite preload_run_snoc, <- IH.
      apply grows_full; [apply preload_step_grows|].
      etrans; [exact Hfull | apply preload_run_size_le]. }
    split; [done|].
    intros u. apply preloadAudio_full.
    etrans; [exact Hfull | apply preload_run_size_le].
Qed.

Lemma preload_cache_never_shrinks_witness :
  dom (preloadedAudios (preload_run full_loading [Warm "d.webm"; LoadError; Timeout]))
  = dom (preloadedAudios full_loading).
Proof.
  apply (proj2 preload_cache_never_shrinks full_loading
           [Warm "d.webm"; LoadError; Timeout]).
  vm_compute. lia.
Defined.

(** The deletion of an errored entry is undone by the insertion that
    follows it. *)
Lemma preloadAudio_retry u c existing :
  skipped u = false → size c < maxPreloadCount →
  c !! u = Some existing → error existing = true →
  preloadAudio u c = (<[u := fresh_entry u]> c, Loading).
Proof.
  intros Hsk Hsz Hu He. unfold preloadAudio.
  rewrite Hsk, bool_decide_eq_false_2, Hu, He by lia.
  by rewrite insert_delete_eq.
Qed.

(** A cache of three entries, the third still in preparation. *)
Lemma full_cache_facts :
  size (preloadedAudios full_loading) = 3
  ∧ preloadQueue full_loading = ["c.webm"]
  ∧ isPreloading full_loading = true
  ∧ preloadedAudios full_loading !! "d.webm" = None.
Proof. vm_compute. repeat split. Qed.

(** C4, as stated, fails: with 3 entries in the cache, a warm request
    for a new URL is appended to the queue.  While a preparation is in
    flight it stays there; with the worker idle the worker is started on
    it. *)
Lemma warm_at_capacity_enqueues :
  size (preloadedAudios full_loading) = 3
  ∧ skipped "d.webm" = false
  ∧ preloadedAudios full_loading !! "d.webm" = None
  ∧ ("d.webm" ∉ preloadQueue full_loading)
  ∧ preloadQueue (queuePreload "d.webm" full_loading) = ["c.webm"; "d.webm"]
  ∧ size (preloadedAudios full_idle) = 3
  ∧ preloadQueue full_idle = []
  ∧ preloadQueue (queuePreload "d.webm" full_idle) = ["d.webm"]
  ∧ isPreloading (queuePreload "d.webm" full_idle) = true.
Proof.
  assert (Hq : preloadQueue full_loading = ["c.webm"])
    by (vm_compute; reflexivity).
  split; [vm_compute; reflexivity|].
  split; [vm_compute; reflexivity|].
  split; [vm_compute; reflexivity|].
  split; [rewrite Hq, list_elem_of_singleton; discriminate|].
  split; [vm_compute; reflexivity|].
  split; [vm_compute; reflexivity|].
  split; [vm_compute; reflexivity|].
  split; vm_compute; reflexivity.
Qed.

(** C4, amended.  With 3 entries in the cache, a warm request for a new
    URL leaves the cache as it is and appends the URL to the queue; when
    the worker takes such a URL from the head of the queue, the
    preparation is skipped, the cache is left as it is and the URL is
    removed from the queue. *)
Theorem warm_at_capacity_queued_then_skipped s u :
  3 ≤ size (preloadedAudios s) →
  skipped u = false →
  preloadedAudios s !! u = None →
  u ∉ preloadQueue s →
  preloadedAudios (queuePreload u s) = preloadedAudios s
  ∧ preloadQueue (queuePreload u s) = preloadQueue s ++ [u]
  ∧ ∀ w rest,
      3 ≤ size (preloadedAudios w) →
      isPreloading w = false →
      preloadQueue w = u :: rest →
      inflight (processPreloadQueue w) = Some (u, Returned)
      ∧ preloadedAudios (preload_step (processPreloadQueue w) Microtask)
        = preloadedAudios w
      ∧ preloadQueue (preload_step (processPreloadQueue w) Microtask) = rest.
Proof.
  intros Hfull Hsk Hu Hq.
  assert (E : queuePreload u s
              = processPreloadQueue
                  (mkPreload (preloadedAudios s) (preloadQueue s ++ [u])
                     (isPreloading s) (inflight s) (timers s))).
  { unfold queuePreload. rewrite Hsk.
    rewrite bool_decide_eq_false_2 by done.
    rewrite bool_decide_eq_false_2; [done|].
    rewrite Hu. by intros [? ?]. }
  split; [|split].
  - rewrite E. unfold processPreloadQueue; simpl.
    destruct (isPreloading s); [done|].
    destruct (preloadQueue s ++ [u]); [done|]. simpl.
    by rewrite preloadAudio_full.
  - rewrite E. unfold processPreloadQueue; simpl.
    destruct (isPreloading s); [done|].
    by destruct (preloadQueue s ++ [u]).
  - intros w rest Hw Hidle Hhead.
    unfold processPreloadQueue. rewrite Hidle, Hhead.
    rewrite preloadAudio_full by done. simpl.
    repeat split.
Qed.

Lemma warm_at_capacity_queued_then_skipped_witness :
  preloadedAudios (queuePreload "d.webm" full_loading)
  = preloadedAudios full_loading
  ∧ preloadQueue (queuePreload "d.webm" full_loading)
    = preloadQueue full_loading ++ ["d.webm"].
Proof.
  destruct (warm_at_capacity_queued_then_skipped full_loading "d.webm")
    as (H1 & H2 & _).
  - vm_compute. lia.
  - reflexivity.
  - reflexivity.
  - replace (preloadQueue full_loading) with ["c.webm"] by reflexivity.
    rewrite list_elem_of_singleton. discriminate.
  - split; [exact H1 | exact H2].
Defined.

(** C3, as stated, fails.  A URL that keeps failing is put back in the
    queue after its second failure as after its first, and a third
    preparation starts; and a URL that fails as the third entry of the
    cache is not prepared again at all: at the next pass the preparation
    is skipped and the URL leaves the queue, its entry staying errored. *)
Lemma failed_preload_retry_count_not_one :
  (let s := preload_run preload_initial
              [Warm "a.webm"; LoadError; Timeout; LoadError] in
   preloadQueue s = ["a.webm"] ∧ timers s = 1
   ∧ inflight (preload_step s Timeout) = Some ("a.webm", Loading))
  ∧ (let s := preload_run full_loading [LoadError; Timeout] in
     inflight s = Some ("c.webm", Returned)
     ∧ preloadQueue (preload_step s Microtask) = []
     ∧ timers (preload_step s Microtask) = 0
     ∧ error <$> (preloadedAudios (preload_step s Microtask) !! "c.webm")
       = Some true).
Proof. vm_compute. repeat split. Qed.

(** C3, amended.  Whenever a preparation fails, the entry is marked
    errored, the URL moves from the head of the queue to its tail and
    another pass is scheduled, however often the URL has failed before.
    Whenever a pass finds at the head of the queue a URL whose entry is
    errored while the cache holds fewer than 3 entries, the entry is
    replaced by a fresh one and the preparation starts again. *)
Theorem failed_preload_requeued_on_every_failure s u rest :
  skipped u = false →
  preloadQueue s = u :: rest →
  (inflight s = Some (u, Loading) →
   let s' := preload_step s LoadError in
   preloadedAudios s' = mark_error u (preloadedAudios s)
   ∧ preloadQueue s' = rest ++ [u]
   ∧ isPreloading s' = false
   ∧ timers s' = S (timers s))
  ∧ (isPreloading s = false →
     size (preloadedAudios s) < 3 →
     (∃ e, preloadedAudios s !! u = Some e ∧ error e = true) →
     let s' := processPreloadQueue s in
     inflight s' = Some (u, Loading)
     ∧ preloadedAudios s' = <[u := fresh_entry u]> (preloadedAudios s)
     ∧ preloadQueue s' = u :: rest).
Proof.
  intros Hsk Hq.
  assert (Hu : u ≠ ""%string).
  { intros ->. by vm_compute in Hsk. }
  split.
  - intros Hin. simpl. rewrite Hin. unfold resumeFailed; simpl.
    rewrite Hq, bool_decide_eq_false_2 by done. simpl.
    repeat split. by destruct (rest ++ [u]) eqn:E; [destruct rest|].
  - intros Hidle Hsz (e & He & Herr).
    unfold processPreloadQueue. rewrite Hidle, Hq.
    rewrite (preloadAudio_retry u _ e) by done. done.
Qed.

Lemma failed_preload_requeued_on_every_failure_witness :
  (let s := preload_run preload_initial
              [Warm "a.webm"; LoadError; Timeout] in
   preloadQueue (preload_step s LoadError) = ["a.webm"])
  ∧ (let s := preload_run preload_initial
                [Warm "a.webm"; LoadError; Timeout; LoadError] in
     inflight (processPreloadQueue s) = Some ("a.webm", Loading)).
Proof.
  split.
  - refine (proj1 (proj2 (proj1
      (failed_preload_requeued_on_every_failure
         (preload_run preload_initial [Warm "a.webm"; LoadError; Timeout])
         "a.webm" [] _ _) _))); reflexivity.
  - refine (proj1 (proj2
      (failed_preload_requeued_on_every_failure
         (preload_run preload_initial
            [Warm "a.webm"; LoadError; Timeout; LoadError])
         "a.webm" [] _ _) _ _ _)).
    + reflexivity.
    + reflexivity.
    + reflexivity.
    + vm_compute. lia.
    + eexists. split; reflexivity.
Defined.

End PreloadProofs.

(** * Properties of the playback session controller *)

Module VisualizerProofs.
Import AudioVisualizer.

(** ** One object per ref *)

Section Only.
Context {A : Type} (P : A → Prop).
Implicit Types (l : list A) (r : option nat).

Lemma only_nil r : only P [] r.
Proof. intros i x Hi. by rewrite lookup_nil in Hi. Qed.

Lemma only_weaken l r : only P l None → only P l r.
Proof. intros H i x Hi Hx. by specialize (H i x Hi Hx). Qed.

Lemma only_snoc l x : only P l None → only P (l ++ [x]) (Some (length l)).
Proof.
  intros H i y Hi Hy.
  apply lookup_app_Some in Hi as [Hi|[Hge Hi]].
  - by specialize (H i y Hi Hy).
  - apply list_lookup_singleton_Some in Hi as [Hi _].
    f_equal. lia.
Qed.

Lemma only_snoc_not l r x : only P l r → ¬ P x → only P (l ++ [x]) r.
Proof.
  intros H Hx i y Hi Hy.
  apply lookup_app_Some in Hi as [Hi|[Hge Hi]].
  - by apply (H i y).
  - apply list_lookup_singleton_Some in Hi as [_ <-]. done.
Qed.

Lemma only_insert l i x : only P l (Some i) → only P (<[i := x]> l) (Some i).
Proof.
  intros H j y Hj Hy.
  destruct (decide (i = j)) as [->|Hne]; [done|].
  rewrite list_lookup_insert_ne in Hj by done. by apply (H j y).
Qed.

Lemma only_alter l i f : only P l (Some i) → only P (alter f i l) (Some i).
Proof.
  intros H j y Hj Hy.
  destruct (decide (i = j)) as [->|Hne]; [done|].
  rewrite list_lookup_alter_ne in Hj by done. by apply (H j y).
Qed.

Lemma only_alter_keep l r i f :
  (∀ x, P (f x) → P x) → only P l r → only P (alter f i l) r.
Proof.
  intros Hf H j y Hj Hy.
  destruct (decide (i = j)) as [->|Hne].
  - rewrite list_lookup_alter_eq in Hj.
    destruct (l !! j) as [x|] eqn:E; simplify_eq/=.
    apply (H j x E). by apply Hf.
  - rewrite list_lookup_alter_ne in Hj by done. by apply (H j y).
Qed.

Lemma only_insert_release l i x :
  only P l (Some i) → ¬ P x → only P (<[i := x]> l) None.
Proof.
  intros H Hx j y Hj Hy.
  destruct (decide (i = j)) as [->|Hne].
  - destruct (decide (j < length l)) as [Hlt|Hge].
    + rewrite list_lookup_insert_eq in Hj by done. by simplify_eq.
    + rewrite list_insert_ge in Hj by lia.
      apply lookup_lt_Some in Hj. lia.
  - rewrite list_lookup_insert_ne in Hj by done.
    specialize (H j y Hj Hy). by simplify_eq.
Qed.

Lemma only_alter_release l i f :
  only P l (Some i) → (∀ x, ¬ P (f x)) → only P (alter f i l) None.
Proof.
  intros H Hf j y Hj Hy.
  destruct (decide (i = j)) as [->|Hne].
  - rewrite list_lookup_alter_eq in Hj.
    destruct (l !! j) as [x|] eqn:E; simplify_eq/=. by apply Hf in Hy.
  - rewrite list_lookup_alter_ne in Hj by done.
    specialize (H j y Hj Hy). by simplify_eq.
Qed.
End Only.

Lemma not_streaming_release el : ¬ streaming (release el).
Proof. by intros ?. Qed.

Lemma streaming_set_paused b el : streaming (set_paused b el) → streaming el.
Proof. done. Qed.

(** The runs of the setup effect do not matter for what is open. *)
Lemma exclusive_set_setups v s : exclusive (set_setups v s) ↔ exclusive s.
Proof. done. Qed.

Lemma exclusive_set_stage a st s : exclusive (set_stage a st s) ↔ exclusive s.
Proof. done. Qed.

Lemma torn_down_exclusive s : torn_down s → exclusive s.
Proof.
  unfold torn_down, exclusive.
  intros (Ha & Hc & Hn & Hs & ? & ? & ? & ?).
  by rewrite Ha, Hc, Hn, Hs.
Qed.

(** [cleanupAudio] releases everything the refs hold. *)
Lemma cleanupAudio_torn_down s : exclusive s → torn_down (cleanupAudio s).
Proof.
  destruct s as [ra rc rn rs lu els cxs ans srs ua sts cur].
  intros (Hc & Hs & Hn & He); simpl in *.
  unfold cleanupAudio, torn_down; simpl.
  destruct rs as [n|], ra as [e|], rc as [c|], rn as [m|]; simpl;
    repeat split;
    first [ reflexivity
          | assumption
          | by apply only_insert_release
          | apply only_alter_release; [assumption | apply not_streaming_release]
          | apply only_alter_release; [assumption | by intros []]
          | apply only_insert_release; [assumption | by intros ?] ].
Qed.

Lemma cleanupAudio_setups s : setups (cleanupAudio s) = setups s.
Proof.
  destruct s as [ra rc rn rs lu els cxs ans srs ua sts cur].
  by destruct rs, ra, rc, rn.
Qed.


(** ** The graph is built at most once per session *)

Ltac open_state s :=
  destruct s as [ra rc rn rs lu els cxs ans srs ua sts cur];
  unfold exclusive in *; simpl in *.

Lemma ensureContext_exclusive s : exclusive s → exclusive (ensureContext s).
Proof.
  unfold ensureContext. open_state s.
  intros (Hc & Hs & Hn & He).
  destruct rc as [c|]; simpl; [done|].
  repeat split; try done. by apply only_snoc.
Qed.

Lemma ensureAnalyser_exclusive s : exclusive s → exclusive (ensureAnalyser s).
Proof.
  unfold ensureAnalyser. open_state s.
  intros (Hc & Hs & Hn & He).
  destruct rn as [n|], rc as [c|]; simpl; try done.
  repeat split; try done. by apply only_snoc.
Qed.

Lemma connectNodes_exclusive s : exclusive s → exclusive (connectNodes s).
Proof.
  unfold connectNodes. open_state s.
  intros (Hc & Hs & Hn & He).
  destruct rs as [m|], ra as [e|], rc as [c|], rn as [n|]; simpl; try done.
  repeat split; try done.
  - by apply only_snoc.
  - by apply only_insert.
Qed.

Lemma request_play_exclusive e s : exclusive s → exclusive (request_play e s).
Proof.
  unfold request_play. open_state s.
  intros (Hc & Hs & Hn & He). repeat split; try done.
  apply only_alter_keep; [apply streaming_set_paused | done].
Qed.

Lemma request_pause_exclusive e s : exclusive s → exclusive (request_pause e s).
Proof.
  unfold request_pause. open_state s.
  intros (Hc & Hs & Hn & He). repeat split; try done.
  apply only_alter_keep; [apply streaming_set_paused | done].
Qed.

Lemma startPlayback_exclusive a s : exclusive s → exclusive (startPlayback a s).
Proof.
  intros H. unfold startPlayback.
  repeat case_match; try done;
    rewrite exclusive_set_stage;
    auto using request_play_exclusive, request_pause_exclusive.
Qed.

Lemma buildGraph_exclusive a s : exclusive s → exclusive (buildGraph a s).
Proof.
  intros H. unfold buildGraph.
  by apply startPlayback_exclusive, connectNodes_exclusive,
    ensureAnalyser_exclusive, ensureContext_exclusive.
Qed.

(** A setup that starts on a torn-down session holds the one element it
    takes or creates. *)
Lemma ensureElement_exclusive r s : exclusive s → exclusive (ensureElement r s).
Proof.
  unfold ensureElement. open_state s.
  intros (Hc & Hs & Hn & He).
  destruct ra as [e|]; simpl; [done|].
  destruct (preloadedAudio r) as [p|]; simpl; repeat split; try done.
  - by apply only_weaken.
  - apply only_snoc_not; [by apply only_weaken | by intros ?].
Qed.

Lemma load_exclusive u e s :
  audioRef s = Some e → exclusive s →
  exclusive (set_elements (alter (load_busted u) e (elements s)) s).
Proof.
  open_state s. intros -> (Hc & Hs & Hn & He).
  repeat split; try done. by apply only_alter.
Qed.

Lemma setupAudio_exclusive a s : exclusive s → exclusive (setupAudio a s).
Proof.
  intros H. unfold setupAudio.
  destruct (setups s !! a) as [r|]; [|done].
  pose proof (ensureElement_exclusive r s H) as H1.
  destruct (audioRef (ensureElement r s)) as [e|] eqn:E; [|done].
  case_decide; [by apply buildGraph_exclusive|].
  destruct (isCurrentSetup r); rewrite exclusive_set_stage;
    by apply load_exclusive.
Qed.

Lemma retry_exclusive a n s : exclusive s → exclusive (retry a n s).
Proof.
  intros H. unfold retry.
  apply setupAudio_exclusive, torn_down_exclusive, cleanupAudio_torn_down.
  by apply exclusive_set_setups.
Qed.

Lemma catchSetup_exclusive a s : exclusive s → exclusive (catchSetup a s).
Proof.
  intros H. unfold catchSetup.
  destruct (setups s !! a) as [r|]; [|done].
  destruct (isCurrentSetup r); simpl; [|by apply exclusive_set_stage].
  case_bool_decide; [by apply retry_exclusive|].
  apply exclusive_set_stage, torn_down_exclusive.
  by apply cleanupAudio_torn_down.
Qed.

Lemma catchPlayback_exclusive a name s :
  exclusive s → exclusive (catchPlayback a name s).
Proof.
  intros H. unfold catchPlayback.
  destruct (setups s !! a) as [r|]; [|done].
  destruct (isCurrentSetup r); simpl; [|by apply exclusive_set_stage].
  repeat case_bool_decide; try by apply exclusive_set_stage.
  by apply retry_exclusive.
Qed.

Lemma effectCleanup_exclusive s : exclusive s → exclusive (effectCleanup s).
Proof.
  intros H. unfold effectCleanup.
  destruct (current s) as [a|]; [|done].
  change (exclusive (cleanupAudio (set_isCurrentSetup a false s))).
  by apply torn_down_exclusive, cleanupAudio_torn_down, exclusive_set_setups.
Qed.

Lemma render_exclusive u p b s : exclusive s → exclusive (render u p b s).
Proof.
  intros H. unfold render.
  apply setupAudio_exclusive.
  pose proof (effectCleanup_exclusive s H) as H1.
  case_decide; [done|].
  by apply torn_down_exclusive, cleanupAudio_torn_down.
Qed.

Lemma resume_mark_exclusive c s :
  contexts s !! c = Some Suspended → exclusive s →
  exclusive (set_contexts (<[c := Running]> (contexts s)) s).
Proof.
  open_state s. intros Hlk (Hc & Hs & Hn & He).
  repeat split; try done.
  rewrite (Hc c Suspended Hlk) by done.
  apply only_insert. by rewrite <- (Hc c Suspended Hlk).
Qed.

Lemma step_exclusive s e : exclusive s → exclusive (step s e).
Proof.
  intros H. destruct e as [u p b| | |u|a ready|a|a|a err|a err]; simpl.
  - by apply render_exclusive.
  - by apply effectCleanup_exclusive.
  - done.
  - destruct H as (Hc & Hs & Hn & He). repeat split; try done.
    simpl. apply only_snoc_not; [done | by intros ?].
  - unfold on_setup. destruct (setups s !! a) as [r|]; [|done].
    unfold onLoadedmetadata. destruct (stage r); try done.
    destruct (isCurrentSetup r); simpl; [|by apply exclusive_set_stage].
    destruct (audioRef s); [|by apply catchSetup_exclusive].
    destruct ready; [by apply buildGraph_exclusive | by apply exclusive_set_stage].
  - unfold on_setup. destruct (setups s !! a) as [r|]; [|done].
    unfold onCanplaythrough. destruct (stage r); try done.
    destruct (isCurrentSetup r); simpl; [|by apply exclusive_set_stage].
    by apply buildGraph_exclusive.
  - unfold on_setup. destruct (setups s !! a) as [r|]; [|done].
    unfold onError.
    destruct (stage r); try done;
      (destruct (isCurrentSetup r);
       [by apply catchSetup_exclusive | by apply exclusive_set_stage]).
  - unfold on_setup. destruct (setups s !! a) as [r|]; [|done].
    unfold onResumeSettled. destruct (stage r) as [| |c| | | |]; try done.
    destruct err as [name|]; [by apply catchPlayback_exclusive|].
    assert (H1 : exclusive
                   match contexts s !! c with
                   | Some Suspended => set_contexts (<[c := Running]> (contexts s)) s
                   | _ => s
                   end).
    { destruct (contexts s !! c) as [[]|] eqn:E; try done.
      by apply resume_mark_exclusive. }
    destruct (audioRef _); [|by apply catchPlayback_exclusive].
    by apply exclusive_set_stage, request_play_exclusive.
  - unfold on_setup. destruct (setups s !! a) as [r|]; [|done].
    unfold onPlaySettled. destruct (stage r); try done.
    destruct err as [name|]; [by apply catchPlayback_exclusive|].
    by apply exclusive_set_stage, exclusive_set_setups.
Qed.

Lemma run_snoc s es e : run s (es ++ [e]) = step (run s es) e.
Proof. unfold run. by rewrite foldl_app. Qed.

Lemma mounted_exclusive : exclusive mounted.
Proof. repeat split; apply only_nil. Qed.

(** Whatever happens, the open context, the connected nodes and the
    streaming element of the controller are those the refs point to. *)
Lemma run_exclusive es : exclusive (run mounted es).
Proof.
  induction es as [|e es IH] using rev_ind; [apply mounted_exclusive|].
  rewrite run_snoc. by apply step_exclusive.
Qed.


(** ** The retry counter *)

Lemma bounded_set_stage a st s : retries_bounded s → retries_bounded (set_stage a st s).
Proof. intros H. apply Forall_alter; [done | by intros []]. Qed.

Lemma bounded_set_isCurrentSetup a b s :
  retries_bounded s → retries_bounded (set_isCurrentSetup a b s).
Proof. intros H. apply Forall_alter; [done | by intros []]. Qed.

Lemma bounded_set_retryCount a n s :
  n ≤ maxRetries → retries_bounded s → retries_bounded (set_retryCount a n s).
Proof. intros Hn H. apply Forall_alter; [done | by intros []]. Qed.

Lemma ensureContext_setups s : setups (ensureContext s) = setups s.
Proof. unfold ensureContext. by destruct (audioContextRef s). Qed.

Lemma ensureAnalyser_setups s : setups (ensureAnalyser s) = setups s.
Proof. unfold ensureAnalyser. by destruct (analyserRef s), (audioContextRef s). Qed.

Lemma connectNodes_setups s : setups (connectNodes s) = setups s.
Proof.
  unfold connectNodes.
  by destruct (sourceNodeRef s), (audioRef s), (audioContextRef s), (analyserRef s).
Qed.

Lemma ensureElement_setups r s : setups (ensureElement r s) = setups s.
Proof. unfold ensureElement. by destruct (audioRef s), (preloadedAudio r). Qed.

Lemma startPlayback_bounded a s :
  retries_bounded s → retries_bounded (startPlayback a s).
Proof.
  intros H. unfold startPlayback.
  repeat case_match; try done; by apply bounded_set_stage.
Qed.

Lemma buildGraph_bounded a s : retries_bounded s → retries_bounded (buildGraph a s).
Proof.
  intros H. apply startPlayback_bounded. unfold retries_bounded.
  by rewrite connectNodes_setups, ensureAnalyser_setups, ensureContext_setups.
Qed.

Lemma setupAudio_bounded a s : retries_bounded s → retries_bounded (setupAudio a s).
Proof.
  intros H. unfold setupAudio.
  destruct (setups s !! a) as [r|]; [|done].
  assert (H1 : retries_bounded (ensureElement r s))
    by (unfold retries_bounded; by rewrite ensureElement_setups).
  destruct (audioRef (ensureElement r s)); [|done].
  case_decide; [by apply buildGraph_bounded|].
  destruct (isCurrentSetup r); by apply bounded_set_stage.
Qed.

Lemma cleanupAudio_bounded s : retries_bounded s → retries_bounded (cleanupAudio s).
Proof. unfold retries_bounded. by rewrite cleanupAudio_setups. Qed.

Lemma retry_bounded a n s :
  n < maxRetries → retries_bounded s → retries_bounded (retry a n s).
Proof.
  intros Hn H. unfold retry.
  apply setupAudio_bounded, cleanupAudio_bounded, bounded_set_retryCount; [lia | done].
Qed.

Lemma catchSetup_bounded a s : retries_bounded s → retries_bounded (catchSetup a s).
Proof.
  intros H. unfold catchSetup.
  destruct (setups s !! a) as [r|]; [|done].
  destruct (isCurrentSetup r); simpl; [|by apply bounded_set_stage].
  case_bool_decide; [by apply retry_bounded|].
  by apply bounded_set_stage, cleanupAudio_bounded.
Qed.

Lemma catchPlayback_bounded a name s :
  retries_bounded s → retries_bounded (catchPlayback a name s).
Proof.
  intros H. unfold catchPlayback.
  destruct (setups s !! a) as [r|]; [|done].
  destruct (isCurrentSetup r); simpl; [|by apply bounded_set_stage].
  repeat case_bool_decide; try by apply bounded_set_stage.
  by apply retry_bounded.
Qed.

Lemma effectCleanup_bounded s : retries_bounded s → retries_bounded (effectCleanup s).
Proof.
  intros H. unfold effectCleanup.
  destruct (current s) as [a|]; [|done].
  change (retries_bounded (cleanupAudio (set_isCurrentSetup a false s))).
  by apply cleanupAudio_bounded, bounded_set_isCurrentSetup.
Qed.

Lemma render_bounded u p b s : retries_bounded s → retries_bounded (render u p b s).
Proof.
  intros H. unfold render. apply setupAudio_bounded.
  pose proof (effectCleanup_bounded s H) as H1.
  unfold retries_bounded; simpl.
  apply Forall_app. split.
  - case_decide; [done|]. by apply cleanupAudio_bounded.
  - constructor; [simpl; unfold maxRetries; lia | constructor].
Qed.

Lemma step_bounded s e : retries_bounded s → retries_bounded (step s e).
Proof.
  intros H. destruct e as [u p b| | |u|a ready|a|a|a err|a err]; simpl.
  - by apply render_bounded.
  - by apply effectCleanup_bounded.
  - done.
  - done.
  - unfold on_setup. destruct (setups s !! a) as [r|]; [|done].
    unfold onLoadedmetadata. destruct (stage r); try done.
    destruct (isCurrentSetup r); simpl; [|by apply bounded_set_stage].
    destruct (audioRef s); [|by apply catchSetup_bounded].
    destruct ready; [by apply buildGraph_bounded | by apply bounded_set_stage].
  - unfold on_setup. destruct (setups s !! a) as [r|]; [|done].
    unfold onCanplaythrough. destruct (stage r); try done.
    destruct (isCurrentSetup r); simpl; [|by apply bounded_set_stage].
    by apply buildGraph_bounded.
  - unfold on_setup. destruct (setups s !! a) as [r|]; [|done].
    unfold onError.
    destruct (stage r); try done;
      (destruct (isCurrentSetup r);
       [by apply catchSetup_bounded | by apply bounded_set_stage]).
  - unfold on_setup. destruct (setups s !! a) as [r|]; [|done].
    unfold onResumeSettled. destruct (stage r) as [| |c| | | |]; try done.
    destruct err as [name|]; [by apply catchPlayback_bounded|].
    assert (H1 : retries_bounded
                   match contexts s !! c with
                   | Some Suspended => set_contexts (<[c := Running]> (contexts s)) s
                   | _ => s
                   end).
    { by destruct (contexts s !! c) as [[]|]. }
    destruct (audioRef _); [|by apply catchPlayback_bounded].
    by apply bounded_set_stage.
  - unfold on_setup. destruct (setups s !! a) as [r|]; [|done].
    unfold onPlaySettled. destruct (stage r); try done.
    destruct err as [name|]; [by apply catchPlayback_bounded|].
    apply bounded_set_stage, bounded_set_retryCount; [lia | done].
Qed.

(** A run of the setup effect counts at most 3 retries, and every retry
    counts: a retry is made only from a count below 3 and raises it. *)
Lemma run_retries_bounded es : retries_bounded (run mounted es).
Proof.
  induction es as [|e es IH] using rev_ind; [constructor|].
  rewrite run_snoc. by apply step_bounded.
Qed.

(** Once the budget is used up, a failed load tears the session down. *)
Lemma catchSetup_exhausted a r s :
  exclusive s → setups s !! a = Some r → isCurrentSetup r = true →
  maxRetries ≤ retryCount r →
  catchSetup a s = set_stage a Finished (cleanupAudio s)
  ∧ torn_down (catchSetup a s).
Proof.
  intros H Ha Hcur Hn. unfold catchSetup. rewrite Ha, Hcur. simpl.
  rewrite bool_decide_eq_false_2 by lia.
  split; [done|]. by apply (cleanupAudio_torn_down s).
Qed.

(** Once the budget is used up, a failed play attempt only ends the run:
    nothing is released. *)
Lemma catchPlayback_exhausted a r name s :
  setups s !! a = Some r → isCurrentSetup r = true →
  maxRetries ≤ retryCount r → name ≠ "NotAllowedError"%string →
  catchPlayback a name s = set_stage a Finished s.
Proof.
  intros Ha Hcur Hn Hname. unfold catchPlayback. rewrite Ha, Hcur. simpl.
  rewrite bool_decide_eq_false_2 by done.
  by rewrite bool_decide_eq_false_2 by lia.
Qed.


(** ** The retry budget of a run *)

Lemma keeps_count_id : keeps_count id.
Proof. done. Qed.

Lemma keeps_count_with_stage st : keeps_count (with_stage st).
Proof. done. Qed.

Lemma budgeted_keeps g r : keeps_count g → budgeted r (g r).
Proof. intros Hg. left. apply Hg. Qed.

Lemma alter_id_setups (l : list Setup) b : alter id b l = l.
Proof. by apply list_alter_id. Qed.

Lemma startPlayback_alters b s :
  ∃ g, keeps_count g ∧ setups (startPlayback b s) = alter g b (setups s).
Proof.
  unfold startPlayback.
  repeat case_match;
    first [ by exists id; rewrite alter_id_setups
          | by eexists (with_stage _) ].
Qed.

Lemma buildGraph_alters b s :
  ∃ g, keeps_count g ∧ setups (buildGraph b s) = alter g b (setups s).
Proof.
  unfold buildGraph.
  destruct (startPlayback_alters b (connectNodes (ensureAnalyser (ensureContext s))))
    as (g & Hg & E).
  exists g. split; [done|].
  by rewrite E, connectNodes_setups, ensureAnalyser_setups, ensureContext_setups.
Qed.

Lemma setupAudio_alters b s :
  ∃ g, keeps_count g ∧ setups (setupAudio b s) = alter g b (setups s).
Proof.
  unfold setupAudio.
  destruct (setups s !! b) as [r|]; [|by exists id; rewrite alter_id_setups].
  destruct (audioRef (ensureElement r s)) as [e|].
  - case_decide.
    + destruct (buildGraph_alters b (ensureElement r s)) as (g & Hg & E).
      exists g. split; [done|]. by rewrite E, ensureElement_setups.
    + destruct (isCurrentSetup r); eexists (with_stage _);
        (split; [done|]); simpl; by rewrite ensureElement_setups.
  - exists id. by rewrite alter_id_setups, ensureElement_setups.
Qed.

Lemma retry_alters b n s :
  ∃ g, (∀ r, retryCount (g r) = S n) ∧ setups (retry b n s) = alter g b (setups s).
Proof.
  unfold retry.
  destruct (setupAudio_alters b (cleanupAudio (set_retryCount b (S n) s)))
    as (g & Hg & E).
  exists (g ∘ with_retryCount (S n)). split.
  - intros r. simpl. by rewrite Hg.
  - rewrite E, cleanupAudio_setups. simpl. apply list_alter_alter_eq.
Qed.

Lemma catchSetup_alters b s r0 :
  setups s !! b = Some r0 →
  ∃ g, setups (catchSetup b s) = alter g b (setups s) ∧ budgeted r0 (g r0).
Proof.
  intros Hb. unfold catchSetup. rewrite Hb.
  destruct (isCurrentSetup r0); simpl.
  - case_bool_decide as Hn.
    + destruct (retry_alters b (retryCount r0) s) as (g & Hg & E).
      exists g. split; [done|]. right; right. by rewrite Hg.
    + exists (with_stage Finished). split; [|by left].
      simpl. by rewrite cleanupAudio_setups.
  - exists (with_stage Finished). split; [done | by left].
Qed.

Lemma catchPlayback_alters b name s r0 :
  setups s !! b = Some r0 →
  ∃ g, setups (catchPlayback b name s) = alter g b (setups s) ∧ budgeted r0 (g r0).
Proof.
  intros Hb. unfold catchPlayback. rewrite Hb.
  destruct (isCurrentSetup r0); simpl.
  - case_bool_decide; [by exists (with_stage Deferred); split; [|left]|].
    case_bool_decide as Hn.
    + destruct (retry_alters b (retryCount r0) s) as (g & Hg & E).
      exists g. split; [done|]. right; right. by rewrite Hg.
    + exists (with_stage Finished). split; [done | by left].
  - exists (with_stage Finished). split; [done | by left].
Qed.

(** An event that settles a promise of run [b] only writes the locals
    of run [b], within the budget, and not at all once the run has
    ended. *)
Lemma settle_alters b e s r0 :
  settles b e → setups s !! b = Some r0 →
  ∃ g, setups (step s e) = alter g b (setups s)
       ∧ budgeted r0 (g r0)
       ∧ (ended (stage r0) = true → g r0 = r0).
Proof.
  intros He Hb.
  assert (Hid : ∃ g, setups s = alter g b (setups s)
                     ∧ budgeted r0 (g r0) ∧ (ended (stage r0) = true → g r0 = r0)).
  { exists id. rewrite alter_id_setups. repeat split; by left. }
  destruct e as [| | | |b' ready|b'|b'|b' err|b' err]; simpl in He; try done;
    subst b'; simpl; unfold on_setup; rewrite Hb.
  - unfold onLoadedmetadata. destruct (stage r0) eqn:Est; try done.
    destruct (isCurrentSetup r0); simpl.
    + destruct (audioRef s).
      * destruct ready.
        -- destruct (buildGraph_alters b s) as (g & Hg & E).
           exists g. split; [done|]. split; [by apply budgeted_keeps | done].
        -- exists (with_stage AwaitBuffer). repeat split; [by left | done].
      * destruct (catchSetup_alters b s r0 Hb) as (g & E & Hg).
        exists g. repeat (split; [done|]). done.
    + exists (with_stage Abandoned). repeat split; [by left | done].
  - unfold onCanplaythrough. destruct (stage r0) eqn:Est; try done.
    destruct (isCurrentSetup r0); simpl.
    + destruct (buildGraph_alters b s) as (g & Hg & E).
      exists g. split; [done|]. split; [by apply budgeted_keeps | done].
    + exists (with_stage Abandoned). repeat split; [by left | done].
  - unfold onError.
    destruct (stage r0) eqn:Est; try done;
      (destruct (isCurrentSetup r0);
       [ destruct (catchSetup_alters b s r0 Hb) as (g & E & Hg);
         exists g; repeat (split; [done|]); done
       | exists (with_stage Abandoned); repeat split; [by left | done] ]).
  - unfold onResumeSettled. destruct (stage r0) as [| |c| | | |] eqn:Est; try done.
    destruct err as [name|].
    { destruct (catchPlayback_alters b name s r0 Hb) as (g & E & Hg).
      exists g. repeat (split; [done|]). done. }
    set (s1 := match contexts s !! c with
               | Some Suspended => set_contexts (<[c := Running]> (contexts s)) s
               | _ => s
               end).
    assert (E1 : setups s1 = setups s)
      by (subst s1; by destruct (contexts s !! c) as [[]|]).
    destruct (audioRef s1).
    + exists (with_stage AwaitPlay). simpl. rewrite E1.
      repeat split; [by left | done].
    + destruct (catchPlayback_alters b "TypeError" s1 r0) as (g & E & Hg);
        [by rewrite E1|].
      exists g. rewrite E, E1. repeat (split; [done|]). done.
  - unfold onPlaySettled. destruct (stage r0) eqn:Est; try done.
    destruct err as [name|].
    { destruct (catchPlayback_alters b name s r0 Hb) as (g & E & Hg).
      exists g. repeat (split; [done|]). done. }
    exists (with_stage Finished ∘ with_retryCount 0). simpl.
    rewrite list_alter_alter_eq.
    repeat split; [right; left; by split | done].
Qed.

Lemma framed_refl l : framed l l.
Proof. apply Forall_Forall2_diag, Forall_forall. by intros. Qed.

Lemma effectCleanup_framed s : framed (setups s) (setups (effectCleanup s)).
Proof.
  unfold effectCleanup. destruct (current s) as [a|]; [|apply framed_refl].
  change (framed (setups s) (setups (cleanupAudio (set_isCurrentSetup a false s)))).
  rewrite cleanupAudio_setups. simpl.
  apply Forall2_alter_r; [apply framed_refl|]. by intros ?? _ _ [].
Qed.

(** A commit leaves stage and retry count of the earlier runs as they
    are and appends a run that has counted no retry. *)
Lemma render_alters u p b s :
  ∃ l0 g r0,
    framed (setups s) l0 ∧ keeps_count g ∧ retryCount r0 = 0
    ∧ setups (render u p b s) = alter g (length l0) (l0 ++ [r0]).
Proof.
  unfold render.
  set (s2 := if decide (u = lastUrlRef (effectCleanup s)) then effectCleanup s
             else set_lastUrlRef u (cleanupAudio (effectCleanup s))).
  assert (E2 : setups s2 = setups (effectCleanup s)).
  { subst s2. case_decide; [done|]. simpl. apply cleanupAudio_setups. }
  match goal with |- context [setupAudio ?a ?t] =>
    destruct (setupAudio_alters a t) as (g & Hg & E) end.
  eexists (setups s2), g, _. split; [|split; [done|split; [|exact E]]].
  - rewrite E2. apply effectCleanup_framed.
  - done.
Qed.

Lemma moves_refl r : moves r r.
Proof. split; [by left | done]. Qed.

Lemma run_moves_refl a l : run_moves a l l.
Proof.
  unfold run_moves. destruct (l !! a) as [r|]; [|by left].
  exists r. split; [done | apply moves_refl].
Qed.

Lemma run_moves_framed a l l' : framed l l' → run_moves a l l'.
Proof.
  intros Hl. unfold run_moves. destruct (l !! a) as [r|] eqn:Ha.
  - destruct (Forall2_lookup_l _ _ _ _ _ Hl Ha) as (r' & Hr' & Hst & Hn).
    exists r'. split; [done|]. split; [by left | done].
  - left. apply lookup_ge_None. rewrite <- (Forall2_length _ _ _ Hl).
    by apply lookup_ge_None.
Qed.

Lemma run_moves_alter a b g l r0 :
  l !! b = Some r0 → moves r0 (g r0) → run_moves a l (alter g b l).
Proof.
  intros Hb Hg. unfold run_moves.
  destruct (decide (a = b)) as [->|Hab].
  - rewrite Hb, list_lookup_alter_eq, Hb. by exists (g r0).
  - rewrite list_lookup_alter_ne by done. apply run_moves_refl.
Qed.

(** What an event does to a run, whichever event it is. *)
Lemma step_run_moves a s e : run_moves a (setups s) (setups (step s e)).
Proof.
  assert (Hsettle : ∀ b, settles b e → run_moves a (setups s) (setups (step s e))).
  { intros b Hb. destruct (setups s !! b) as [r0|] eqn:Hr0.
    - destruct (settle_alters b e s r0 Hb Hr0) as (g & E & Hg & Hend).
      rewrite E. apply (run_moves_alter a b g _ r0); [done|].
      split; [done|]. intros Hr. by rewrite Hend.
    - assert (E : step s e = s).
      { destruct e; simpl in Hb; try done; subst; simpl;
          unfold on_setup; by rewrite Hr0. }
      rewrite E. apply run_moves_refl. }
  destruct e as [u p b| | |u|b ready|b|b|b err|b err];
    try (by apply (Hsettle b)).
  - destruct (render_alters u p b s) as (l0 & g & r0 & Hl0 & Hg & Hr0 & E).
    simpl. rewrite E.
    pose proof (run_moves_framed a _ _ Hl0) as Hframe.
    unfold run_moves in *.
    destruct (setups s !! a) as [r|] eqn:Ha.
    + destruct Hframe as (r' & Hr' & Hm).
      exists r'. split; [|done].
      apply lookup_lt_Some in Hr' as Hlt.
      rewrite list_lookup_alter_ne by lia. by rewrite lookup_app_l.
    + destruct Hframe as [Hnone|(r' & Hr' & _)].
      * apply lookup_ge_None in Hnone.
        destruct (decide (a = length l0)) as [->|Hne].
        -- right. exists (g r0).
           rewrite list_lookup_alter_eq, list_lookup_middle by done.
           split; [done|]. by rewrite Hg.
        -- left. apply lookup_ge_None.
           rewrite length_alter, length_app. simpl. lia.
      * apply lookup_lt_Some in Hr'.
        apply lookup_ge_None in Ha.
        rewrite (Forall2_length _ _ _ Hl0) in Ha. lia.
  - simpl. apply run_moves_framed, effectCleanup_framed.
  - simpl. apply run_moves_refl.
  - simpl. apply run_moves_refl.
Qed.

Lemma step_within_budget a c s e :
  within_budget a c s →
  within_budget a
    (c + (if decide (retryCount_of a s < retryCount_of a (step s e)) then 1 else 0))
    (step s e).
Proof.
  unfold within_budget, retryCount_of.
  pose proof (step_run_moves a s e) as H. unfold run_moves in H.
  destruct (setups s !! a) as [r|].
  - destruct H as (r' & -> & Hb & Hend). simpl.
    intros [Hc Hlive].
    destruct (ended (stage r)) eqn:Er.
    + destruct (Hend eq_refl) as [-> ->]. rewrite Er.
      case_decide; [lia|]. split; [lia | done].
    + destruct (Hlive eq_refl) as [Hc1 Hc2].
      destruct Hb as [Hb|[[Hb Hfin]|[Hb1 Hb2]]]; case_decide; try lia.
      rewrite Hfin. simpl. split; [lia | done].
  - intros ->. simpl.
    destruct H as [->|(r' & -> & Hr')]; simpl.
    + done.
    + rewrite Hr'. simpl. unfold maxRetries. split; [lia|]. intros _. lia.
Qed.

(** Along every sequence of events a run of the setup effect makes at
    most 3 retries. *)
Lemma retries_within_budget a c s es :
  within_budget a c s → c + retries a s es ≤ maxRetries.
Proof.
  revert c s. induction es as [|e es IH]; intros c s H; simpl.
  - unfold within_budget in H.
    destruct (setups s !! a); [lia | subst; unfold maxRetries; lia].
  - rewrite Nat.add_assoc. apply IH. by apply step_within_budget.
Qed.

Lemma at_most_three_retries a es : retries a mounted es ≤ 3.
Proof. by apply (retries_within_budget a 0 mounted es). Qed.

(** ** Superseded runs *)

Lemma same_graph_refl s : same_graph s s.
Proof. by repeat split. Qed.

Lemma same_graph_set_stage a st s : same_graph s (set_stage a st s).
Proof. by repeat split. Qed.

Lemma src_set_paused b e (l : list Element) :
  src <$> alter (set_paused b) e l = src <$> l.
Proof.
  rewrite (list_fmap_alter src (set_paused b) id).
  - by rewrite list_alter_id.
  - by apply Forall_forall.
Qed.

(** A superseded run of the setup effect creates, rewires and releases
    nothing when one of its promises is settled. *)
Lemma superseded_same_graph s a r e :
  setups s !! a = Some r → isCurrentSetup r = false → settles a e →
  same_graph s (step s e).
Proof.
  intros Ha Hcur He.
  destruct e as [| | | |b ready|b|b|b err|b err]; simpl in He; try done;
    subst b; simpl; unfold on_setup; rewrite Ha.
  - unfold onLoadedmetadata. rewrite Hcur.
    destruct (stage r); first [apply same_graph_refl | apply same_graph_set_stage].
  - unfold onCanplaythrough. rewrite Hcur.
    destruct (stage r); first [apply same_graph_refl | apply same_graph_set_stage].
  - unfold onError. rewrite Hcur.
    destruct (stage r); first [apply same_graph_refl | apply same_graph_set_stage].
  - unfold onResumeSettled, catchPlayback.
    destruct (stage r) as [| |c| | | |]; try apply same_graph_refl.
    destruct err as [name|].
    { rewrite Ha, Hcur. apply same_graph_set_stage. }
    destruct s as [ra rc rn rs lu els cxs ans srs ua sts cur]; simpl in *.
    destruct (cxs !! c) as [[]|], ra as [e|]; simpl;
      rewrite ?Ha, ?Hcur; simpl; unfold same_graph; simpl;
      rewrite ?src_set_paused, ?length_insert; by repeat split.
  - unfold onPlaySettled, catchPlayback.
    destruct (stage r); try apply same_graph_refl.
    destruct err as [name|]; [|by repeat split].
    rewrite Ha, Hcur. apply same_graph_set_stage.
Qed.


(** ** Track changes *)

(** The cleanup of the setup effect, which a track change runs first,
    leaves nothing of the previous session open. *)
Lemma effectCleanup_torn_down s a :
  exclusive s → current s = Some a → torn_down (effectCleanup s).
Proof.
  intros H Ha. unfold effectCleanup. rewrite Ha.
  change (torn_down (cleanupAudio (set_isCurrentSetup a false s))).
  by apply cleanupAudio_torn_down, exclusive_set_setups.
Qed.

Ltac nothing_in l :=
  let i := fresh "i" in let x := fresh "x" in
  let Hi := fresh "Hi" in let Hx := fresh "Hx" in
  intros i x Hi Hx; exfalso;
  repeat (destruct i as [|i]; simpl in Hi;
          [injection Hi as <-; first [by destruct Hx | done] |]);
  by rewrite ?lookup_nil in Hi.

(** After two track changes in a row on a playing session and the load
    of the last track, one context is open and one source node is
    connected, on the element that streams the last track; everything
    created before is released. *)
Example rapid_switches_one_graph :
  let s := run mounted rapid_switches in
  contexts s = [Closed; Running]
  ∧ audioContextRef s = Some 1
  ∧ sources s = [{| element := 0; connected := false |};
                 {| element := 2; connected := true |}]
  ∧ sourceNodeRef s = Some 1
  ∧ analysers s = [false; true]
  ∧ analyserRef s = Some 1
  ∧ audioRef s = Some 2
  ∧ elements s
    = [{| src := NoSrc; paused := true; cached := false |};
       {| src := NoSrc; paused := true; cached := false |};
       {| src := CacheBusted "c.webm"; paused := false; cached := false |}].
Proof. vm_compute. repeat split. Qed.

(** A prepared element is taken as it is and plays without a load; the
    retry after the failed play attempt releases it and loads it again,
    cache-busted. *)
Example preloaded_switch_reloads :
  let s := run mounted preloaded_switch in
  audioRef s = Some 0
  ∧ elements s
    = [{| src := CacheBusted "b.webm"; paused := true; cached := true |};
       {| src := NoSrc; paused := true; cached := false |}]
  ∧ contexts s = [Closed; Closed]
  ∧ audioContextRef s = None
  ∧ setups s !! 1
    = Some {| audioUrl := "b.webm"; preloadedAudio := Some 0; isPlaying := true;
              isCurrentSetup := true; retryCount := 1; stage := AwaitMetadata |}.
Proof. vm_compute. repeat split. Qed.

(** C1.  Track [a.webm] is set up while audio is locked and waits for
    [resume()]; the track changes to [b.webm], which supersedes that
    setup and starts a new one, waiting for metadata on a new element.
    When the promise of [resume()] is then fulfilled, the superseded
    setup goes on without looking at its flag and requests play on the
    element of [b.webm]. *)
Theorem superseded_setup_requests_play :
  let s := run mounted switch_during_resume in
  let s' := step s (ResumeSettled 0 None) in
  setups s !! 0
  = Some {| audioUrl := "a.webm"; preloadedAudio := None; isPlaying := true;
            isCurrentSetup := false; retryCount := 0; stage := AwaitResume 0 |}
  ∧ current s = Some 1
  ∧ audioRef s = Some 1
  ∧ stage <$> (setups s !! 1) = Some AwaitMetadata
  ∧ elements s !! 1
    = Some {| src := CacheBusted "b.webm"; paused := true; cached := false |}
  ∧ elements s' !! 1
    = Some {| src := CacheBusted "b.webm"; paused := false; cached := false |}
  ∧ stage <$> (setups s' !! 1) = Some AwaitMetadata
  ∧ stage <$> (setups s' !! 0) = Some AwaitPlay.
Proof. vm_compute. repeat split. Qed.

(** C6.  A fourth failed play attempt (not a NotAllowedError) finds the
    budget of 3 retries used up and ends the run, but the graph rebuilt
    by the third retry stays: the context runs, source node and analyser
    are connected and the element keeps its stream.  A fourth failed load
    tears the session down. *)
Theorem exhausted_play_retries_keep_graph :
  let s := run mounted play_fails_four_times in
  setups s
  = [{| audioUrl := "a.webm"; preloadedAudio := None; isPlaying := true;
        isCurrentSetup := true; retryCount := 3; stage := Finished |}]
  ∧ audioContextRef s = Some 3 ∧ contexts s !! 3 = Some Running
  ∧ sourceNodeRef s = Some 3
  ∧ sources s !! 3 = Some {| element := 3; connected := true |}
  ∧ analyserRef s = Some 3 ∧ analysers s !! 3 = Some true
  ∧ audioRef s = Some 3
  ∧ elements s !! 3
    = Some {| src := CacheBusted "a.webm"; paused := false; cached := false |}
  ∧ ¬ torn_down s
  ∧ torn_down (run mounted load_fails_four_times).
Proof.
  split; [vm_compute; reflexivity|].
  split; [vm_compute; reflexivity|].
  split; [vm_compute; reflexivity|].
  split; [vm_compute; reflexivity|].
  split; [vm_compute; reflexivity|].
  split; [vm_compute; reflexivity|].
  split; [vm_compute; reflexivity|].
  split; [vm_compute; reflexivity|].
  split; [vm_compute; reflexivity|].
  split.
  - intros (Ha & _). vm_compute in Ha. discriminate.
  - unfold torn_down.
    replace (run mounted load_fails_four_times) with
      {| audioRef := None; audioContextRef := None; analyserRef := None;
         sourceNodeRef := None; lastUrlRef := "a.webm";
         elements := replicate 4 {| src := NoSrc; paused := true; cached := false |};
         contexts := []; analysers := []; sources := [];
         userActivated := true;
         setups := [{| audioUrl := "a.webm"; preloadedAudio := None;
                       isPlaying := true; isCurrentSetup := true;
                       retryCount := 3; stage := Finished |}];
         current := Some 0 |}
      by (vm_compute; reflexivity).
    simpl. repeat split; nothing_in 0.
Qed.

End VisualizerProofs.

(** * Invariants of the preloader *)

Module PreloadInvariantProofs.
Import AudioFeed PreloadInvariants.

Implicit Types (c : gmap string PreloadedAudio) (s : Preload) (u : string).

(** What a call of [preloadAudio] can do: return at once with the cache
    as it is, or put a fresh entry for a URL it does not skip where the
    cache has none or an errored one. *)
Lemma preloadAudio_cases u c :
  preloadAudio u c = (c, Returned)
  ∨ (skipped u = false
     ∧ preloadAudio u c = (<[u := fresh_entry u]> c, Loading)
     ∧ (c !! u = None ∨ ∃ e, c !! u = Some e ∧ error e = true)).
Proof.
  unfold preloadAudio.
  destruct (skipped u); [by left|].
  case_bool_decide; [by left|].
  destruct (c !! u) as [e|] eqn:Hu.
  - destruct (error e) eqn:He; [|by left].
    right. rewrite insert_delete_eq. repeat split. right. by exists e.
  - right. repeat split. by left.
Qed.

Lemma entry_ok_idle fl fl' u e :
  entry_ok fl u e → fl ≠ Some (u, Loading) → entry_ok fl' u e.
Proof.
  intros [(_ & _ & _ & H)|[H|H]] Hfl; [done | right; by left | right; by right].
Qed.

Lemma entry_ok_settled fl fl' u e :
  entry_ok fl u e → fl = None → entry_ok fl' u e.
Proof. intros H ->. by eapply entry_ok_idle. Qed.

Lemma processPreloadQueue_inv s :
  worker_ok s → entries_ok s → queue_ok s → preload_inv (processPreloadQueue s).
Proof.
  intros Hw He Hq. unfold processPreloadQueue.
  destruct (isPreloading s) eqn:Hp.
  { split; [done|split; [done|split; [done|]]]. intros _. by left. }
  destruct (preloadQueue s) as [|u q] eqn:Hqueue.
  { split; [done|split; [done|split; [done|]]]. intros H. by rewrite Hqueue in H. }
  assert (Hnone : inflight s = None).
  { unfold worker_ok in Hw. destruct (inflight s) as [[v p]|]; [|done].
    destruct Hw as (Hw & _). congruence. }
  destruct Hq as (Hnd & Hsk & Hc).
  destruct (preloadAudio_cases u (preloadedAudios s))
    as [->|(Hu & -> & Hold)]; simpl.
  - split; [|split; [|split]].
    + unfold worker_ok; simpl. by repeat split.
    + intros v e Hv; simpl in *. eapply entry_ok_settled; eauto.
    + rewrite Hqueue in Hnd, Hsk. by repeat split.
    + intros _. by left.
  - split; [|split; [|split]].
    + unfold worker_ok; simpl. repeat split.
      intros _. exists (fresh_entry u). by rewrite lookup_insert_eq.
    + intros v e Hv; simpl in *.
      apply lookup_insert_Some in Hv as [[<- <-]|[Hne Hv]].
      * by left.
      * eapply entry_ok_settled; eauto.
    + rewrite Hqueue in Hnd, Hsk. repeat split; try done. simpl.
      intros v [e Hv].
      apply lookup_insert_Some in Hv as [[<- _]|[_ Hv]]; [done|].
      apply Hc. by exists e.
    + intros _. by left.
Qed.

Lemma queuePreload_inv u s : preload_inv s → preload_inv (queuePreload u s).
Proof.
  intros (Hw & He & Hq & Hs). unfold queuePreload.
  destruct (skipped u) eqn:Hu; [done|].
  destruct (_ && _) eqn:Hcond; [|done].
  apply andb_true_iff in Hcond as [Hin _].
  apply negb_true_iff, bool_decide_eq_false in Hin.
  destruct Hq as (Hnd & Hsk & Hc).
  apply processPreloadQueue_inv.
  - unfold worker_ok in *; simpl.
    destruct (inflight s) as [[v p]|]; [|done].
    destruct Hw as (H1 & H2 & H3). repeat split; try done.
    destruct (preloadQueue s); simplify_eq/=. done.
  - done.
  - repeat split; simpl; try done.
    + apply NoDup_app. repeat split; [done | | apply NoDup_singleton].
      intros v Hv ->%list_elem_of_singleton. done.
    + apply Forall_app. split; [done|]. by constructor.
Qed.

Lemma finally_inv c q s :
  NoDup q → Forall (λ u, skipped u = false) q →
  (∀ u e, c !! u = Some e → entry_ok None u e) →
  (∀ u, is_Some (c !! u) → skipped u = false) →
  preload_inv (finally c q s).
Proof.
  intros Hnd Hsk He Hc. repeat split; try done.
  unfold scheduled; simpl. destruct q; [done|]. intros _. right. lia.
Qed.

Lemma NoDup_tail {A} (l : list A) : NoDup l → NoDup (tail l).
Proof. destruct l; [done|]. by intros ?%NoDup_cons_1_2. Qed.

Lemma Forall_tail_of {A} (P : A → Prop) (l : list A) : Forall P l → Forall P (tail l).
Proof. destruct l; [done|]. by intros [_ ?]%Forall_cons. Qed.

Lemma mark_inv (g : PreloadedAudio → PreloadedAudio) u p q s :
  preload_inv s → inflight s = Some (u, p) →
  NoDup q → Forall (λ v, skipped v = false) q →
  (∀ e, preloadedAudios s !! u = Some e →
        entry_ok (Some (u, p)) u e → entry_ok None u (g e)) →
  preload_inv (finally (alter g u (preloadedAudios s)) q s).
Proof.
  intros (Hw & He & (_ & _ & Hc) & _) Hfl Hnd Hsk Hg.
  apply finally_inv; try done.
  - intros v e Hv.
    apply lookup_alter_Some in Hv as [(<- & e0 & Hv & ->)|[Hne Hv]].
    + apply Hg; [done|]. rewrite <- Hfl. by apply He.
    + eapply entry_ok_idle; [by apply He|]. rewrite Hfl. congruence.
  - intros v Hv. apply Hc. by apply lookup_alter_is_Some in Hv.
Qed.

Lemma alter_id_cache c u : alter (λ e : PreloadedAudio, e) u c = c.
Proof. by apply alter_id. Qed.

Lemma preload_step_inv s e : preload_inv s → preload_inv (preload_step s e).
Proof.
  intros Hinv. destruct e as [u| | | |]; simpl.
  - by apply queuePreload_inv.
  - destruct (timers s) as [|n] eqn:Ht; [done|].
    destruct Hinv as (Hw & He & Hq & _).
    by apply processPreloadQueue_inv.
  - destruct (inflight s) as [[u []]|] eqn:Hfl; try done.
    pose proof Hinv as (_ & _ & (Hnd & Hsk & _) & _).
    unfold resumeOk. rewrite <- (alter_id_cache (preloadedAudios s) u).
    apply (mark_inv _ u Returned); try done.
    + by apply NoDup_tail.
    + by apply Forall_tail_of.
    + intros e _ He. by eapply entry_ok_idle.
  - destruct (inflight s) as [[u []]|] eqn:Hfl; try done.
    pose proof Hinv as (Hw & _ & (Hnd & Hsk & _) & _).
    unfold resumeOk, mark_loaded.
    unfold worker_ok in Hw. rewrite Hfl in Hw.
    destruct Hw as (_ & _ & Hfresh).
    destruct (Hfresh eq_refl) as (e0 & Hu & Hl0 & He0).
    apply (mark_inv _ u Loading); try done.
    + by apply NoDup_tail.
    + by apply Forall_tail_of.
    + intros e ? [(? & ? & ? & _)|[(? & ? & ?)|(? & ? & ?)]]; simplify_eq;
        right; left; simpl; repeat split; congruence.
  - destruct (inflight s) as [[u []]|] eqn:Hfl; try done.
    pose proof Hinv as (Hw & _ & (Hnd & Hsk & _) & _).
    unfold resumeFailed, mark_error.
    unfold worker_ok in Hw. rewrite Hfl in Hw.
    destruct Hw as (_ & Hhead & Hfresh).
    destruct (Hfresh eq_refl) as (e0 & Hu & Hl0 & He0).
    destruct (preloadQueue s) as [|v rest] eqn:Hq; simplify_eq/=.
    apply NoDup_cons in Hnd as [Hnin Hnd].
    apply Forall_cons in Hsk as [Hu' Hsk].
    apply (mark_inv _ u Loading); try done.
    + case_bool_decide; [done|].
      apply NoDup_app. repeat split; [done | | apply NoDup_singleton].
      intros w Hw ->%list_elem_of_singleton. done.
    + case_bool_decide; [done|].
      apply Forall_app. split; [done|]. by constructor.
    + intros e ? [(? & ? & ? & _)|[(? & ? & ?)|(? & ? & ?)]]; simplify_eq;
        right; right; simpl; repeat split; congruence.
Qed.

Lemma preload_initial_inv : preload_inv preload_initial.
Proof.
  split; [done|]. split; [by intros u e Hu|].
  split; [|by intros H].
  split; [constructor|]. split; [constructor|].
  intros u [e Hu]. simpl in Hu. by rewrite lookup_empty in Hu.
Qed.

Lemma preload_run_from_inv s es : preload_inv s → preload_inv (preload_run s es).
Proof.
  intros Hs. induction es as [|e es IH] using rev_ind; [done|].
  unfold preload_run. rewrite foldl_app. by apply preload_step_inv.
Qed.

Lemma preload_run_inv es : preload_inv (preload_run preload_initial es).
Proof. apply preload_run_from_inv, preload_initial_inv. Qed.

Lemma skipped_nonempty u : skipped u = false → u ≠ ""%string.
Proof. intros Hsk ->. by vm_compute in Hsk. Qed.

(** X1.  In every state the preloader can reach, the flag
    [isPreloadingRef] is up exactly while a call of [processPreloadQueue]
    is suspended, and the URL that call took is still the head of the
    queue and occurs nowhere else in it, whatever was warmed in between:
    the [shift()] after the [await] removes the URL that was prepared,
    and a failure moves that URL to the tail. *)
Theorem preload_worker_holds_queue_head (es : list PreloadEvent) :
  let s := preload_run preload_initial es in
  (isPreloading s = true ↔ is_Some (inflight s))
  ∧ ∀ u p, inflight s = Some (u, p) →
      ∃ rest, preloadQueue s = u :: rest ∧ (u ∉ rest)
        ∧ (p = Returned → preloadQueue (preload_step s Microtask) = rest)
        ∧ (p = Loading →
           preloadQueue (preload_step s CanPlayThrough) = rest
           ∧ preloadQueue (preload_step s LoadError) = rest ++ [u]).
Proof.
  intros s. destruct (preload_run_inv es) as (Hw & _ & (Hnd & Hsk & _) & _).
  fold s in Hw, Hnd, Hsk. unfold worker_ok in Hw. split.
  - destruct (inflight s) as [[u p]|].
    + destruct Hw as (-> & _). split; [by eexists | done].
    + rewrite Hw. split; [done | by intros [? ?]].
  - intros u p Hfl. simpl. rewrite Hfl in *.
    destruct Hw as (_ & Hhead & _).
    destruct (preloadQueue s) as [|v rest] eqn:Hq; simplify_eq/=.
    apply NoDup_cons in Hnd as [Hnin _].
    apply Forall_cons in Hsk as [Hu%skipped_nonempty _].
    exists rest. split; [done|]. split; [done|].
    split; intros ->; simpl; rewrite ?Hq; simpl; [done|].
    split; [done|].
    by rewrite bool_decide_eq_false_2.
Qed.

(** X2.  In every state the preloader can reach, each cache entry is in
    one of three conditions: in preparation (neither loaded nor errored,
    its element on the URL, and the worker is waiting for it), loaded
    (not errored, its element on the URL), or errored (not loaded, its
    element reset to the empty source).  So no entry is both loaded and
    errored, and at most one entry is in preparation. *)
Theorem preload_entry_conditions (es : list PreloadEvent) :
  let s := preload_run preload_initial es in
  (∀ u e, preloadedAudios s !! u = Some e → entry_ok (inflight s) u e)
  ∧ (∀ u e, preloadedAudios s !! u = Some e →
       ¬ (loaded e = true ∧ error e = true))
  ∧ (∀ u1 e1 u2 e2,
       preloadedAudios s !! u1 = Some e1 → preloadedAudios s !! u2 = Some e2 →
       loaded e1 = false → error e1 = false →
       loaded e2 = false → error e2 = false →
       u1 = u2).
Proof.
  intros s. destruct (preload_run_inv es) as (_ & He & _).
  fold s in He. split; [exact He|]. split.
  - intros u e Hu [Hl Herr].
    destruct (He u e Hu) as [(? & ? & _)|[(? & ? & _)|(? & ? & _)]]; congruence.
  - intros u1 e1 u2 e2 H1 H2 Hl1 He1 Hl2 He2.
    destruct (He u1 e1 H1) as [(_ & _ & _ & Hf1)|[(? & ? & _)|(? & ? & _)]];
      [|congruence..].
    destruct (He u2 e2 H2) as [(_ & _ & _ & Hf2)|[(? & ? & _)|(? & ? & _)]];
      [|congruence..].
    congruence.
Qed.

(** X3.  In every state the preloader can reach, the queue holds no URL
    twice, and neither the queue nor the cache holds the empty URL or a
    URL that contains [.emptyFolderPlaceholder]. *)
Theorem preload_queue_hygiene (es : list PreloadEvent) :
  let s := preload_run preload_initial es in
  NoDup (preloadQueue s)
  ∧ (∀ u, u ∈ preloadQueue s ∨ is_Some (preloadedAudios s !! u) →
       u ≠ ""%string ∧ JS.includes ".emptyFolderPlaceholder" u = false).
Proof.
  intros s. destruct (preload_run_inv es) as (_ & _ & (Hnd & Hsk & Hc) & _).
  fold s in Hnd, Hsk, Hc. split; [done|].
  assert (Hall : ∀ u, skipped u = false →
            u ≠ ""%string ∧ JS.includes ".emptyFolderPlaceholder" u = false).
  { intros u Hu. split; [by apply skipped_nonempty|].
    unfold skipped in Hu. by apply orb_false_iff in Hu as [_ ?]. }
  intros u [Hu|Hu]; apply Hall.
  - rewrite Forall_forall in Hsk. by apply Hsk.
  - by apply Hc.
Qed.

(** X4.  In every state the preloader can reach, a queue that is not
    empty is being worked on or has a pass scheduled: URLs are never left
    in the queue with nothing pending. *)
Theorem preload_queue_never_stalls (es : list PreloadEvent) :
  let s := preload_run preload_initial es in
  preloadQueue s = [] ∨ isPreloading s = true ∨ 0 < timers s.
Proof.
  intros s. destruct (preload_run_inv es) as (_ & _ & _ & Hs).
  fold s in Hs. destruct (preloadQueue s) eqn:Hq; [by left|].
  right. apply Hs. by rewrite Hq.
Qed.

(** X5.  Warming is idempotent: a second [queuePreload] of the same URL
    right after the first changes nothing, in every state. *)
Theorem queuePreload_idempotent (u : string) (s : Preload) :
  queuePreload u (queuePreload u s) = queuePreload u s.
Proof.
  destruct (skipped u) eqn:Hu; [unfold queuePreload; by rewrite !Hu|].
  destruct (negb (bool_decide (u ∈ preloadQueue s))
            && negb (bool_decide (is_Some (preloadedAudios s !! u)))) eqn:Hcond.
  - assert (Hq : preloadQueue (queuePreload u s) = preloadQueue s ++ [u]).
    { unfold queuePreload, processPreloadQueue. rewrite Hu, Hcond.
      cbn [isPreloading preloadQueue].
      destruct (isPreloading s); [done|].
      by destruct (preloadQueue s ++ [u]). }
    assert (Hin : u ∈ preloadQueue (queuePreload u s)).
    { rewrite Hq. apply elem_of_app. right. by left. }
    generalize dependent (queuePreload u s). intros s1 _ Hin.
    unfold queuePreload. rewrite Hu.
    by rewrite (bool_decide_eq_true_2 _ Hin).
  - assert (E : queuePreload u s = s).
    { unfold queuePreload. by rewrite Hu, Hcond. }
    by rewrite !E.
Qed.

(** A loaded entry survives every event of the preloader. *)
Lemma loaded_entry_kept s ev u e :
  preload_inv s → preloadedAudios s !! u = Some e → loaded e = true →
  preloadedAudios (preload_step s ev) !! u = Some e.
Proof.
  intros (Hw & He & _) Hu Hl.
  assert (Herr : error e = false).
  { destruct (He u e Hu) as [(? & _)|[(_ & ? & _)|(? & _)]]; congruence. }
  assert (Hprep : ∀ v c', preloadAudio v (preloadedAudios s) = (c', Loading) →
            c' !! u = Some e).
  { intros v c' Hv.
    destruct (preloadAudio_cases v (preloadedAudios s))
      as [E|(_ & E & Hold)]; rewrite E in Hv; simplify_eq.
    rewrite lookup_insert_ne; [done|]. intros ->.
    destruct Hold as [?|(e' & ? & ?)]; congruence. }
  assert (Hproc : ∀ s0, preloadedAudios s0 = preloadedAudios s →
            preloadedAudios (processPreloadQueue s0) !! u = Some e).
  { intros s0 E0. unfold processPreloadQueue.
    destruct (isPreloading s0); [by rewrite E0|].
    destruct (preloadQueue s0) as [|v q]; [by rewrite E0|]. simpl. rewrite E0.
    destruct (preloadAudio v (preloadedAudios s)) as [c' []] eqn:Hv; simpl.
    - destruct (preloadAudio_cases v (preloadedAudios s))
        as [E|(_ & E & _)]; rewrite E in Hv; by simplify_eq.
    - by apply (Hprep v). }
  assert (Hmark : ∀ v g, inflight s = Some (v, Loading) →
            alter g v (preloadedAudios s) !! u = Some e).
  { intros v g Hfl. unfold worker_ok in Hw. rewrite Hfl in Hw.
    destruct Hw as (_ & _ & Hfresh).
    destruct (Hfresh eq_refl) as (e0 & Hv & Hl0 & _).
    rewrite lookup_alter_ne; [done|]. intros ->. congruence. }
  destruct ev as [v| | | |]; simpl.
  - unfold queuePreload. destruct (skipped v); [done|].
    destruct (_ && _); [|done]. by apply Hproc.
  - destruct (timers s); [done|]. by apply Hproc.
  - by destruct (inflight s) as [[v []]|].
  - destruct (inflight s) as [[v []]|] eqn:Hfl; try done. simpl.
    by apply Hmark.
  - destruct (inflight s) as [[v []]|] eqn:Hfl; try done. simpl.
    by apply Hmark.
Qed.

(** X6.  Once an entry of the cache is loaded, no event of the preloader
    changes or removes it: it is there, as it is, after every further
    sequence of events. *)
Theorem preload_loaded_entry_is_stable (es es' : list PreloadEvent)
    (u : string) (e : PreloadedAudio) :
  let s := preload_run preload_initial es in
  preloadedAudios s !! u = Some e → loaded e = true →
  preloadedAudios (preload_run s es') !! u = Some e.
Proof.
  intros s Hu Hl.
  induction es' as [|ev es' IH] using rev_ind; [done|].
  unfold preload_run. rewrite foldl_app. simpl.
  apply loaded_entry_kept; [|done..].
  apply preload_run_from_inv, preload_run_inv.
Qed.

Lemma preload_loaded_entry_is_stable_witness :
  preloadedAudios
    (preload_run (preload_run preload_initial [Warm "a.webm"; CanPlayThrough])
       [Warm "b.webm"; LoadError; Timeout; LoadError; Warm "c.webm"])
    !! "a.webm"
  = Some {| audio := "a.webm"; loaded := true; error := false |}.
Proof.
  apply (preload_loaded_entry_is_stable [Warm "a.webm"; CanPlayThrough]).
  - vm_compute. reflexivity.
  - reflexivity.
Defined.

End PreloadInvariantProofs.

(** * Invariants of the playback session controller *)

Module SessionProofs.
Import AudioVisualizer SessionInvariants VisualizerProofs.

(** ** The props of a run are never written *)

Section Props.
Context {B : Type} (f : Setup → B).
Hypothesis f_stage : ∀ st r, f (with_stage st r) = f r.
Hypothesis f_count : ∀ n r, f (with_retryCount n r) = f r.

Lemma fmap_alter_keep (g : Setup → Setup) a (l : list Setup) :
  (∀ r, f (g r) = f r) → f <$> alter g a l = f <$> l.
Proof.
  intros Hg. rewrite (list_fmap_alter f g id).
  - by rewrite list_alter_id.
  - apply Forall_forall. intros r _. apply Hg.
Qed.

Lemma set_stage_keeps a st s : f <$> setups (set_stage a st s) = f <$> setups s.
Proof. simpl. by apply fmap_alter_keep. Qed.

Lemma set_retryCount_keeps a n s :
  f <$> setups (set_retryCount a n s) = f <$> setups s.
Proof. simpl. by apply fmap_alter_keep. Qed.

Lemma startPlayback_keeps a s : f <$> setups (startPlayback a s) = f <$> setups s.
Proof.
  unfold startPlayback.
  repeat case_match; try done; by rewrite set_stage_keeps.
Qed.

Lemma buildGraph_keeps a s : f <$> setups (buildGraph a s) = f <$> setups s.
Proof.
  unfold buildGraph. rewrite startPlayback_keeps.
  by rewrite connectNodes_setups, ensureAnalyser_setups, ensureContext_setups.
Qed.

Lemma setupAudio_keeps a s : f <$> setups (setupAudio a s) = f <$> setups s.
Proof.
  unfold setupAudio.
  destruct (setups s !! a) as [r|]; [|done].
  destruct (audioRef (ensureElement r s)); [|by rewrite ensureElement_setups].
  case_decide; [by rewrite buildGraph_keeps, ensureElement_setups|].
  destruct (isCurrentSetup r); rewrite set_stage_keeps; simpl;
    by rewrite ensureElement_setups.
Qed.

Lemma retry_keeps a n s : f <$> setups (retry a n s) = f <$> setups s.
Proof.
  unfold retry.
  by rewrite setupAudio_keeps, cleanupAudio_setups, set_retryCount_keeps.
Qed.

Lemma catchSetup_keeps a s : f <$> setups (catchSetup a s) = f <$> setups s.
Proof.
  unfold catchSetup.
  destruct (setups s !! a) as [r|]; [|done].
  destruct (isCurrentSetup r); simpl; [|by apply set_stage_keeps].
  case_bool_decide; [by apply retry_keeps|].
  by rewrite set_stage_keeps, cleanupAudio_setups.
Qed.

Lemma catchPlayback_keeps a name s :
  f <$> setups (catchPlayback a name s) = f <$> setups s.
Proof.
  unfold catchPlayback.
  destruct (setups s !! a) as [r|]; [|done].
  destruct (isCurrentSetup r); simpl; [|by apply set_stage_keeps].
  repeat case_bool_decide; try by apply set_stage_keeps.
  by apply retry_keeps.
Qed.

(** An event other than a commit or the unmount leaves the props of
    every run as they are. *)
Lemma step_keeps s e :
  (∀ u p b, e ≠ Render u p b) → e ≠ Unmount →
  f <$> setups (step s e) = f <$> setups s.
Proof.
  intros Hr Hu. destruct e as [u p b| | |u|a ready|a|a|a err|a err]; simpl;
    try done; try (by destruct (Hr u p b)).
  - unfold on_setup. destruct (setups s !! a) as [r|]; [|done].
    unfold onLoadedmetadata. destruct (stage r); try done.
    destruct (isCurrentSetup r); simpl; [|by apply set_stage_keeps].
    destruct (audioRef s); [|by apply catchSetup_keeps].
    destruct ready; [by apply buildGraph_keeps | by apply set_stage_keeps].
  - unfold on_setup. destruct (setups s !! a) as [r|]; [|done].
    unfold onCanplaythrough. destruct (stage r); try done.
    destruct (isCurrentSetup r); simpl; [|by apply set_stage_keeps].
    by apply buildGraph_keeps.
  - unfold on_setup. destruct (setups s !! a) as [r|]; [|done].
    unfold onError.
    destruct (stage r); try done;
      (destruct (isCurrentSetup r);
       [by apply catchSetup_keeps | by apply set_stage_keeps]).
  - unfold on_setup. destruct (setups s !! a) as [r|]; [|done].
    unfold onResumeSettled. destruct (stage r) as [| |c| | | |]; try done.
    destruct err as [name|]; [by apply catchPlayback_keeps|].
    set (s1 := match contexts s !! c with
               | Some Suspended => set_contexts (<[c := Running]> (contexts s)) s
               | _ => s
               end).
    assert (E1 : setups s1 = setups s)
      by (subst s1; by destruct (contexts s !! c) as [[]|]).
    destruct (audioRef s1).
    + rewrite set_stage_keeps. simpl. by rewrite E1.
    + by rewrite catchPlayback_keeps, E1.
  - unfold on_setup. destruct (setups s !! a) as [r|]; [|done].
    unfold onPlaySettled. destruct (stage r); try done.
    destruct err as [name|]; [by apply catchPlayback_keeps|].
    by rewrite set_stage_keeps, set_retryCount_keeps.
Qed.
End Props.

(** ** The run of the effect *)

Lemma startPlayback_current a s : current (startPlayback a s) = current s.
Proof. unfold startPlayback. by repeat case_match. Qed.

Lemma cleanupAudio_current s : current (cleanupAudio s) = current s.
Proof.
  destruct s as [ra rc rn rs lu els cxs ans srs ua sts cur].
  by destruct rs, ra, rc, rn.
Qed.

Lemma buildGraph_current a s : current (buildGraph a s) = current s.
Proof.
  unfold buildGraph. rewrite startPlayback_current.
  unfold connectNodes, ensureAnalyser, ensureContext.
  destruct s as [ra rc rn rs lu els cxs ans srs ua sts cur]; simpl.
  by destruct rs, ra, rc, rn.
Qed.

Lemma ensureElement_current r s : current (ensureElement r s) = current s.
Proof. unfold ensureElement. by destruct (audioRef s), (preloadedAudio r). Qed.

Lemma setupAudio_current a s : current (setupAudio a s) = current s.
Proof.
  unfold setupAudio.
  destruct (setups s !! a) as [r|]; [|done].
  destruct (audioRef (ensureElement r s)); [|by apply ensureElement_current].
  case_decide; [by rewrite buildGraph_current, ensureElement_current|].
  destruct (isCurrentSetup r); simpl; by apply ensureElement_current.
Qed.

Lemma retry_current a n s : current (retry a n s) = current s.
Proof. unfold retry. by rewrite setupAudio_current, cleanupAudio_current. Qed.

Lemma catchSetup_current a s : current (catchSetup a s) = current s.
Proof.
  unfold catchSetup.
  destruct (setups s !! a) as [r|]; [|done].
  destruct (isCurrentSetup r); simpl; [|done].
  case_bool_decide; [by apply retry_current|].
  simpl. by apply cleanupAudio_current.
Qed.

Lemma catchPlayback_current a name s : current (catchPlayback a name s) = current s.
Proof.
  unfold catchPlayback.
  destruct (setups s !! a) as [r|]; [|done].
  destruct (isCurrentSetup r); simpl; [|done].
  repeat case_bool_decide; try done.
  by apply retry_current.
Qed.

Lemma step_current s e :
  (∀ u p b, e ≠ Render u p b) → e ≠ Unmount → current (step s e) = current s.
Proof.
  intros Hr Hu. destruct e as [u p b| | |u|a ready|a|a|a err|a err]; simpl;
    try done; try (by destruct (Hr u p b)).
  - unfold on_setup. destruct (setups s !! a) as [r|]; [|done].
    unfold onLoadedmetadata. destruct (stage r); try done.
    destruct (isCurrentSetup r); simpl; [|done].
    destruct (audioRef s); [|by apply catchSetup_current].
    destruct ready; [by apply buildGraph_current | done].
  - unfold on_setup. destruct (setups s !! a) as [r|]; [|done].
    unfold onCanplaythrough. destruct (stage r); try done.
    destruct (isCurrentSetup r); simpl; [|done].
    by apply buildGraph_current.
  - unfold on_setup. destruct (setups s !! a) as [r|]; [|done].
    unfold onError.
    destruct (stage r); try done;
      (destruct (isCurrentSetup r); [by apply catchSetup_current | done]).
  - unfold on_setup. destruct (setups s !! a) as [r|]; [|done].
    unfold onResumeSettled. destruct (stage r) as [| |c| | | |]; try done.
    destruct err as [name|]; [by apply catchPlayback_current|].
    set (s1 := match contexts s !! c with
               | Some Suspended => set_contexts (<[c := Running]> (contexts s)) s
               | _ => s
               end).
    assert (E1 : current s1 = current s)
      by (subst s1; by destruct (contexts s !! c) as [[]|]).
    destruct (audioRef s1); [done|].
    by rewrite catchPlayback_current.
  - unfold on_setup. destruct (setups s !! a) as [r|]; [|done].
    unfold onPlaySettled. destruct (stage r); try done.
    destruct err as [name|]; [by apply catchPlayback_current|]. done.
Qed.

Lemma flags_lookup (l l' : list Setup) a r' :
  isCurrentSetup <$> l' = isCurrentSetup <$> l → l' !! a = Some r' →
  ∃ r, l !! a = Some r ∧ isCurrentSetup r = isCurrentSetup r'.
Proof.
  intros E Ha.
  assert (H : (isCurrentSetup <$> l) !! a = Some (isCurrentSetup r')).
  { rewrite <- E, list_lookup_fmap, Ha. done. }
  rewrite list_lookup_fmap in H.
  destruct (l !! a) as [r|]; simplify_eq/=. by exists r.
Qed.

Lemma torn_down_set_setups l s : torn_down (set_setups l s) ↔ torn_down s.
Proof. done. Qed.

(** On a torn-down session a promise that settles for a cancelled run
    only writes the locals of that run. *)
Lemma settle_torn_down s a e :
  torn_down s → (∀ r, setups s !! a = Some r → isCurrentSetup r = false) →
  settles a e → torn_down (step s e).
Proof.
  intros Ht Hflag He.
  destruct e as [| | | |b ready|b|b|b err|b err]; simpl in He; try done;
    subst b; simpl; unfold on_setup;
    destruct (setups s !! a) as [r|] eqn:Ha; try done;
    specialize (Hflag r eq_refl).
  - unfold onLoadedmetadata. rewrite Hflag. by destruct (stage r).
  - unfold onCanplaythrough. rewrite Hflag. by destruct (stage r).
  - unfold onError. rewrite Hflag. by destruct (stage r).
  - unfold onResumeSettled, catchPlayback.
    destruct (stage r) as [| |c| | | |]; try done.
    destruct err as [name|]; [by rewrite Ha, Hflag|].
    destruct Ht as (Hra & Hrc & Hrn & Hrs & Hc & Hrest).
    destruct (contexts s !! c) as [st|] eqn:Hctx.
    + destruct st; try (by rewrite Hra, Ha, Hflag).
      by specialize (Hc c Suspended Hctx ltac:(done)).
    + by rewrite Hra, Ha, Hflag.
  - unfold onPlaySettled, catchPlayback.
    destruct (stage r); try done.
    destruct err as [name|]; [by rewrite Ha, Hflag | done].
Qed.

Lemma effectCleanup_flags s :
  latest_only s → Forall (λ r, isCurrentSetup r = false) (setups (effectCleanup s)).
Proof.
  intros Hl. apply Forall_lookup. intros a r Ha.
  unfold effectCleanup in Ha. destruct (current s) as [c|] eqn:Hc.
  - change (setups (cleanupAudio (set_isCurrentSetup c false s)) !! a = Some r)
      in Ha.
    rewrite cleanupAudio_setups in Ha. simpl in Ha.
    destruct (decide (c = a)) as [->|Hne].
    + rewrite list_lookup_alter_eq in Ha.
      destruct (setups s !! a); by simplify_eq/=.
    + rewrite list_lookup_alter_ne in Ha by done.
      destruct (isCurrentSetup r) eqn:Hr; [|done].
      specialize (Hl a r Ha Hr). congruence.
  - destruct (isCurrentSetup r) eqn:Hr; [|done].
    specialize (Hl a r Ha Hr). congruence.
Qed.

Lemma effectCleanup_current s : current (effectCleanup s) = None.
Proof. unfold effectCleanup. by destruct (current s) eqn:E. Qed.

Lemma effectCleanup_idle s :
  exclusive s → (current s = None → torn_down s) → torn_down (effectCleanup s).
Proof.
  intros He Hn. destruct (current s) as [a|] eqn:Hc.
  - by apply (effectCleanup_torn_down s a).
  - unfold effectCleanup. rewrite Hc. by apply Hn.
Qed.

Lemma render_setups u p b s :
  ∃ r0,
    isCurrentSetup <$> setups (render u p b s)
    = (isCurrentSetup <$> setups (effectCleanup s)) ++ [true]
    ∧ current (render u p b s) = Some (length (setups (effectCleanup s)))
    ∧ length (setups (render u p b s)) = S (length (setups (effectCleanup s)))
    ∧ retryCount r0 = 0.
Proof.
  unfold render.
  set (s2 := if decide (u = lastUrlRef (effectCleanup s)) then effectCleanup s
             else set_lastUrlRef u (cleanupAudio (effectCleanup s))).
  assert (E2 : setups s2 = setups (effectCleanup s)).
  { subst s2. case_decide; [done|]. simpl. apply cleanupAudio_setups. }
  exists (mkSetup u p b true 0 Finished).
  split; [|split; [|split; [|done]]].
  - rewrite (setupAudio_keeps isCurrentSetup) by done. simpl.
    by rewrite fmap_app, E2.
  - rewrite setupAudio_current. simpl. by rewrite E2.
  - rewrite <- (length_fmap isCurrentSetup).
    rewrite (setupAudio_keeps isCurrentSetup) by done. simpl.
    rewrite length_fmap, length_app, E2. simpl. lia.
Qed.

Lemma settle_inv a s e :
  session_inv s → settles a e →
  latest_only (step s e)
  ∧ (current (step s e) = None → torn_down (step s e))
  ∧ (∀ a, current (step s e) = Some a → S a = length (setups (step s e))).
Proof.
  intros (Hex & Hl & Hn & Hlt) He.
  assert (Hr : ∀ u p b, e ≠ Render u p b) by (intros; by destruct e).
  assert (Hu : e ≠ Unmount) by (by destruct e).
  pose proof (step_keeps isCurrentSetup (λ _ _, eq_refl) (λ _ _, eq_refl) s e Hr Hu)
    as Hflags.
  pose proof (step_current s e Hr Hu) as Hcur.
  split; [|split].
  - intros b r' Hb Hr'.
    destruct (flags_lookup _ _ b r' Hflags Hb) as (r & Hrb & E).
    rewrite Hcur. apply (Hl b r Hrb). congruence.
  - rewrite Hcur. intros Hc.
    apply (settle_torn_down s a); [by apply Hn | | done].
    intros r Ha. destruct (isCurrentSetup r) eqn:E; [|done].
    specialize (Hl a r Ha E). congruence.
  - intros b. rewrite Hcur. intros Hb.
    rewrite <- (length_fmap isCurrentSetup), Hflags, length_fmap. by apply Hlt.
Qed.

Lemma step_session_inv s e : session_inv s → session_inv (step s e).
Proof.
  intros Hinv. pose proof Hinv as (Hex & Hl & Hn & Hlt).
  split; [by apply step_exclusive|].
  destruct e as [u p b| | |u|a ready|a|a|a err|a err].
  - simpl. destruct (render_setups u p b s) as (_ & Hf & Hc & Hlen & _).
    split; [|split].
    + intros a r Ha Hr. rewrite Hc. f_equal.
      assert (H : (isCurrentSetup <$> setups (render u p b s)) !! a = Some true).
      { by rewrite list_lookup_fmap, Ha, <- Hr. }
      rewrite Hf in H.
      apply lookup_app_Some in H as [H|[Hge H]].
      * rewrite list_lookup_fmap in H.
        destruct (setups (effectCleanup s) !! a) as [r1|] eqn:E; simplify_eq/=.
        pose proof (effectCleanup_flags s Hl) as Hall.
        rewrite Forall_lookup in Hall. specialize (Hall a r1 E). congruence.
      * rewrite length_fmap in *.
        apply list_lookup_singleton_Some in H as [H _]. lia.
    + intros E. congruence.
    + intros a Ha. rewrite Hc in Ha. simplify_eq. lia.
  - simpl. split; [|split].
    + intros a r Ha Hr.
      pose proof (effectCleanup_flags s Hl) as Hf.
      rewrite Forall_lookup in Hf. specialize (Hf a r Ha). congruence.
    + intros _. by apply effectCleanup_idle.
    + intros a. by rewrite effectCleanup_current.
  - simpl. split; [done|]. split; [|done].
    intros Hc. by apply (Hn Hc).
  - simpl. split; [done|]. split; [|done].
    intros Hc. destruct (Hn Hc) as (? & ? & ? & ? & ? & ? & ? & He).
    repeat split; try done. simpl.
    apply only_snoc_not; [done | by intros ?].
  - by apply (settle_inv a).
  - by apply (settle_inv a).
  - by apply (settle_inv a).
  - by apply (settle_inv a).
  - by apply (settle_inv a).
Qed.

Lemma mounted_session_inv : session_inv mounted.
Proof.
  split; [apply mounted_exclusive|]. split; [by intros a r Ha|].
  split; [|done]. intros _. repeat split; apply only_nil.
Qed.

Lemma run_session_inv es : session_inv (run mounted es).
Proof.
  induction es as [|e es IH] using rev_ind; [apply mounted_session_inv|].
  rewrite run_snoc. by apply step_session_inv.
Qed.

Lemma only_unique {A} (P : A → Prop) (l : list A) r i j x y :
  only P l r → l !! i = Some x → P x → l !! j = Some y → P y → i = j.
Proof.
  intros H Hi Hx Hj Hy.
  pose proof (H i x Hi Hx). pose proof (H j y Hj Hy). congruence.
Qed.

(** X7.  In every state the controller can reach there is at most one
    audio context that is not closed, at most one connected source node,
    at most one connected analyser and at most one element of the
    controller that holds a stream, and each of them is the object the
    corresponding ref points to. *)
Theorem session_holds_one_graph (es : list Event) :
  let s := run mounted es in
  exclusive s
  ∧ (∀ i j x y, contexts s !! i = Some x → x ≠ Closed →
                contexts s !! j = Some y → y ≠ Closed → i = j)
  ∧ (∀ i j x y, sources s !! i = Some x → connected x = true →
                sources s !! j = Some y → connected y = true → i = j)
  ∧ (∀ i j, analysers s !! i = Some true → analysers s !! j = Some true → i = j)
  ∧ (∀ i j x y, elements s !! i = Some x → streaming x →
                elements s !! j = Some y → streaming y → i = j).
Proof.
  intros s. pose proof (run_exclusive es) as Hex. fold s in Hex.
  split; [done|]. destruct Hex as (Hc & Hs & Hn & He).
  split; [|split; [|split]].
  - intros i j x y Hi Hx Hj Hy. by apply (only_unique _ _ _ i j x y Hc).
  - intros i j x y Hi Hx Hj Hy. by apply (only_unique _ _ _ i j x y Hs).
  - intros i j Hi Hj. by apply (only_unique _ _ _ i j true true Hn).
  - intros i j x y Hi Hx Hj Hy. by apply (only_unique _ _ _ i j x y He).
Qed.

(** X8.  Along every sequence of events a run of the setup effect makes
    at most 3 retries, and its counter [retryCount] never exceeds 3. *)
Theorem setup_retries_at_most_three (a : nat) (es : list Event) :
  retries a mounted es ≤ 3
  ∧ Forall (λ r, retryCount r ≤ 3) (setups (run mounted es)).
Proof. split; [apply at_most_three_retries | apply run_retries_bounded]. Qed.

(** X9.  [cleanupAudio] releases everything: in every state the
    controller can reach it leaves the four refs empty, no context open,
    no node connected and no element of the controller with a stream; and
    a second call right after the first changes nothing, in every
    state. *)
Theorem cleanupAudio_releases_everything :
  (∀ es, torn_down (cleanupAudio (run mounted es)))
  ∧ (∀ s, cleanupAudio (cleanupAudio s) = cleanupAudio s).
Proof.
  split.
  - intros es. apply cleanupAudio_torn_down, run_exclusive.
  - intros s. destruct s as [ra rc rn rs lu els cxs ans srs ua sts cur].
    by destruct rs, ra, rc, rn.
Qed.

Lemma same_graph_trans s1 s2 s3 :
  same_graph s1 s2 → same_graph s2 s3 → same_graph s1 s3.
Proof.
  intros (A1 & A2 & A3 & A4 & A5 & A6 & A7 & A8)
         (B1 & B2 & B3 & B4 & B5 & B6 & B7 & B8).
  repeat split; congruence.
Qed.

Lemma settles_not_commit a e :
  settles a e → (∀ u p b, e ≠ Render u p b) ∧ e ≠ Unmount.
Proof. intros He. split; [intros u p b|]; by destruct e. Qed.

(** X10.  A cancelled run of the setup effect creates, rewires and
    releases nothing, however many of its promises settle afterwards: the
    four refs, the source nodes, the analysers, the sources of the
    elements and the number of audio contexts stay as they are. *)
Theorem cancelled_run_keeps_graph (s : Visualizer) (a : nat) (r : Setup)
    (es : list Event) :
  setups s !! a = Some r → isCurrentSetup r = false →
  Forall (settles a) es →
  same_graph s (run s es).
Proof.
  intros Ha Hr Hes.
  assert (H : same_graph s (run s es)
              ∧ ∃ r', setups (run s es) !! a = Some r' ∧ isCurrentSetup r' = false).
  { induction es as [|e es IH] using rev_ind.
    - split; [apply same_graph_refl | by exists r].
    - apply Forall_app in Hes as [Hes He].
      rewrite Forall_singleton in He.
      destruct (IH Hes) as (Hg & r' & Ha' & Hr').
      rewrite run_snoc. split.
      + eapply same_graph_trans; [exact Hg|].
        by apply (superseded_same_graph _ a r').
      + destruct (settles_not_commit a e He) as [Hc Hu].
        pose proof (step_keeps isCurrentSetup (λ _ _, eq_refl) (λ _ _, eq_refl)
                      (run s es) e Hc Hu) as Hflags.
        assert (Hlk : (isCurrentSetup <$> setups (step (run s es) e)) !! a
                      = Some false).
        { by rewrite Hflags, list_lookup_fmap, Ha', <- Hr'. }
        rewrite list_lookup_fmap in Hlk.
        destruct (setups (step (run s es) e) !! a) as [r2|]; simplify_eq/=.
        by exists r2. }
  apply H.
Qed.

Lemma cancelled_run_keeps_graph_witness :
  same_graph (run mounted switch_during_resume)
    (run (run mounted switch_during_resume)
       [ResumeSettled 0 None; PlaySettled 0 (Some "AbortError"%string)]).
Proof.
  apply (cancelled_run_keeps_graph (run mounted switch_during_resume) 0
           {| audioUrl := "a.webm"; preloadedAudio := None; isPlaying := true;
              isCurrentSetup := false; retryCount := 0; stage := AwaitResume 0 |}).
  - vm_compute. reflexivity.
  - reflexivity.
  - repeat constructor.
Defined.

(** X11.  In every state the controller can reach, the only run of the
    setup effect whose flag [isCurrentSetup] is still up is the run the
    effect holds, and that run is the one started last: every earlier
    run is cancelled, and after the unmount all are. *)
Theorem only_latest_run_is_current (es : list Event) :
  let s := run mounted es in
  (∀ a r, setups s !! a = Some r → isCurrentSetup r = true →
          current s = Some a ∧ S a = length (setups s))
  ∧ (current s = None → Forall (λ r, isCurrentSetup r = false) (setups s)).
Proof.
  intros s. destruct (run_session_inv es) as (_ & Hl & _ & Hlast).
  fold s in Hl, Hlast. split.
  - intros a r Ha Hr. pose proof (Hl a r Ha Hr) as Hc. split; [done|].
    by apply Hlast.
  - intros Hc. apply Forall_lookup. intros a r Ha.
    destruct (isCurrentSetup r) eqn:Hr; [|done].
    specialize (Hl a r Ha Hr). congruence.
Qed.

Lemma run_app s es es' : run s (es ++ es') = run (run s es) es'.
Proof. unfold run. by rewrite foldl_app. Qed.

(** X12.  The unmount leaves the session torn down whatever state it was
    in, and it stays torn down while promises of the old runs settle and
    the platform goes on (every event but a new commit): the refs are
    empty, no context is open, no node is connected and no element of the
    controller holds a stream. *)
Theorem unmount_tears_session_down (es es' : list Event) :
  Forall (λ e, ∀ u p b, e ≠ Render u p b) es' →
  torn_down (run mounted (es ++ Unmount :: es')).
Proof.
  intros Hes'.
  assert (H : current (run mounted (es ++ Unmount :: es')) = None).
  { induction es' as [|e es' IH] using rev_ind.
    - rewrite run_app. simpl. apply effectCleanup_current.
    - apply Forall_app in Hes' as [Hes' He]. rewrite Forall_singleton in He.
      replace (es ++ Unmount :: es' ++ [e]) with ((es ++ Unmount :: es') ++ [e])
        by (by rewrite <- app_assoc).
      rewrite run_snoc.
      destruct e as [u p b| | | | | | | |]; try (by destruct (He u p b));
        try (rewrite step_current; [by apply IH | done | done]).
      simpl. apply effectCleanup_current. }
  destruct (run_session_inv (es ++ Unmount :: es')) as (_ & _ & Hn & _).
  by apply Hn.
Qed.

Lemma unmount_tears_session_down_witness :
  torn_down
    (run mounted (switch_during_resume
                  ++ Unmount :: [ResumeSettled 0 None; Loadedmetadata 1 true;
                                 Activate; MediaError 1])).
Proof.
  apply (unmount_tears_session_down switch_during_resume).
  repeat constructor; discriminate.
Defined.

(** ** What a commit does to the session *)

Lemma cleanupAudio_lengths s :
  length (elements (cleanupAudio s)) = length (elements s)
  ∧ length (contexts (cleanupAudio s)) = length (contexts s)
  ∧ length (sources (cleanupAudio s)) = length (sources s)
  ∧ userActivated (cleanupAudio s) = userActivated s.
Proof.
  destruct s as [ra rc rn rs lu els cxs ans srs ua sts cur].
  destruct rs, ra, rc, rn; simpl;
    rewrite ?length_alter, ?length_insert; done.
Qed.

Lemma effectCleanup_lengths s :
  length (elements (effectCleanup s)) = length (elements s)
  ∧ length (contexts (effectCleanup s)) = length (contexts s)
  ∧ length (sources (effectCleanup s)) = length (sources s)
  ∧ length (setups (effectCleanup s)) = length (setups s)
  ∧ userActivated (effectCleanup s) = userActivated s.
Proof.
  unfold effectCleanup. destruct (current s) as [a|]; [|done].
  change (length (elements (cleanupAudio (set_isCurrentSetup a false s)))
          = length (elements s)
          ∧ length (contexts (cleanupAudio (set_isCurrentSetup a false s)))
            = length (contexts s)
          ∧ length (sources (cleanupAudio (set_isCurrentSetup a false s)))
            = length (sources s)
          ∧ length (setups (cleanupAudio (set_isCurrentSetup a false s)))
            = length (setups s)
          ∧ userActivated (cleanupAudio (set_isCurrentSetup a false s))
            = userActivated s).
  destruct (cleanupAudio_lengths (set_isCurrentSetup a false s))
    as (-> & -> & -> & ->).
  rewrite cleanupAudio_setups. simpl. by rewrite length_alter.
Qed.

Lemma render_committed u p b s :
  render u p b s
  = setupAudio (length (setups (committed u s)))
      (set_current (Some (length (setups (committed u s))))
         (set_setups
            (setups (committed u s)
             ++ [{| audioUrl := u; preloadedAudio := p; isPlaying := b;
                    isCurrentSetup := true; retryCount := 0; stage := Finished |}])
            (committed u s))).
Proof. done. Qed.

Lemma committed_torn_down u s : session_inv s → torn_down (committed u s).
Proof.
  intros (Hex & _ & Hn & _). unfold committed.
  pose proof (effectCleanup_idle s Hex Hn) as Ht.
  case_decide; [done|].
  by apply (cleanupAudio_torn_down (effectCleanup s)), torn_down_exclusive.
Qed.

Lemma committed_lengths u s :
  length (elements (committed u s)) = length (elements s)
  ∧ length (contexts (committed u s)) = length (contexts s)
  ∧ length (sources (committed u s)) = length (sources s)
  ∧ length (setups (committed u s)) = length (setups s)
  ∧ userActivated (committed u s) = userActivated s.
Proof.
  unfold committed.
  destruct (effectCleanup_lengths s) as (E1 & E2 & E3 & E4 & E5).
  case_decide; [done|]. simpl.
  destruct (cleanupAudio_lengths (effectCleanup s)) as (-> & -> & -> & ->).
  by rewrite cleanupAudio_setups.
Qed.



Lemma cleanupAudio_released s p el :
  audioRef s = Some p → elements s !! p = Some el →
  elements (cleanupAudio s) !! p = Some (release el).
Proof.
  destruct s as [ra rc rn rs lu els cxs ans srs ua sts cur]. simpl.
  intros -> Hp. destruct rs, rc, rn; simpl;
    by rewrite list_lookup_alter_eq, Hp.
Qed.

Lemma cleanupAudio_idle_elements s :
  audioRef s = None → elements (cleanupAudio s) = elements s.
Proof.
  destruct s as [ra rc rn rs lu els cxs ans srs ua sts cur]. simpl.
  intros ->. by destruct rs, rc, rn.
Qed.


Lemma committed_released u s p el :
  session_inv s → audioRef s = Some p → elements s !! p = Some el →
  elements (committed u s) !! p = Some (release el).
Proof.
  intros (Hex & _ & Hn & _) Hp Hel.
  pose proof (effectCleanup_idle s Hex Hn) as Hidle.
  destruct (current s) as [a|] eqn:Hc.
  - assert (E1 : elements (effectCleanup s) !! p = Some (release el)).
    { unfold effectCleanup. rewrite Hc.
      change (elements (cleanupAudio (set_isCurrentSetup a false s)) !! p
              = Some (release el)).
      by apply cleanupAudio_released. }
    unfold committed. case_decide; [done|]. simpl.
    rewrite cleanupAudio_idle_elements; [done|].
    by destruct Hidle as (? & _).
  - destruct (Hn eq_refl) as (? & _). congruence.
Qed.


Lemma setupAudio_loads a s r e el :
  setups s !! a = Some r → audioRef (ensureElement r s) = Some e →
  elements (ensureElement r s) !! e = Some el → src el ≠ Plain (audioUrl r) →
  isCurrentSetup r = true →
  setupAudio a s
  = set_stage a AwaitMetadata
      (set_elements (alter (load_busted (audioUrl r)) e
                       (elements (ensureElement r s))) (ensureElement r s)).
Proof.
  intros Ha He Hel Hsrc Hcur. unfold setupAudio.
  rewrite Ha, He, Hel, Hcur. simpl.
  rewrite decide_False; [done|]. congruence.
Qed.







(** X15.  A prepared element serves once.  When a commit hands the
    setup effect the element that is in use (the track plays from it and
    only [isPlaying], [onEnded] or [autoplayEnabled] changed), the cleanup
    has emptied its source, so the new run loads the track again from
    its cache-busted URL on that same element and waits for metadata. *)
Theorem prepared_element_in_use_is_reloaded (es : list Event)
    (u : string) (b : bool) (p : nat) (el : Element) :
  let s := run mounted es in
  audioRef s = Some p → elements s !! p = Some el →
  let s' := step s (Render u (Some p) b) in
  audioRef s' = Some p
  ∧ elements s' !! p
    = Some {| src := CacheBusted u; paused := true; cached := cached el |}
  ∧ audioContextRef s' = None ∧ sourceNodeRef s' = None
  ∧ stage <$> setups s' !! length (setups s) = Some AwaitMetadata.
Proof.
  intros s Hp Hel s'.
  pose proof (run_session_inv es) as Hinv. fold s in Hinv.
  pose proof (committed_torn_down u s Hinv) as Ht.
  pose proof (committed_released u s p el Hinv Hp Hel) as Hce.
  destruct (committed_lengths u s) as (_ & _ & _ & Hls & _).
  assert (Hs' : s' = render u (Some p) b s) by done.
  rewrite render_committed in Hs'.
  destruct (committed u s) as [ra rc rn rs lu els cxs ans srs ua sts cur].
  destruct Ht as (Hra & Hrc & Hrn & Hrs & _). simpl in *. subst ra rc rn rs.
  unfold setupAudio in Hs'. simpl in Hs'.
  rewrite list_lookup_middle in Hs' by done.
  unfold ensureElement in Hs'. simpl in Hs'.
  rewrite Hce in Hs'. simpl in Hs'.
  rewrite <- Hls, Hs'. simpl.
  rewrite !list_lookup_alter_eq, Hce, list_lookup_middle by done.
  done.
Qed.

Lemma prepared_element_in_use_is_reloaded_witness :
  let s := run mounted [Activate; Preloaded "b.webm";
                        Render "b.webm" (Some 0) true; PlaySettled 0 None] in
  let s' := step s (Render "b.webm" (Some 0) false) in
  elements s' !! 0
  = Some {| src := CacheBusted "b.webm"; paused := true; cached := true |}
  ∧ stage <$> setups s' !! 1 = Some AwaitMetadata.
Proof.
  pose proof (prepared_element_in_use_is_reloaded
                [Activate; Preloaded "b.webm";
                 Render "b.webm" (Some 0) true; PlaySettled 0 None]
                "b.webm" false 0
                {| src := Plain "b.webm"; paused := false; cached := true |}) as H.
  cbv zeta in H.
  assert (H1 : audioRef
                 (run mounted
                    [Activate; Preloaded "b.webm";
                     Render "b.webm" (Some 0) true; PlaySettled 0 None])
               = Some 0)
    by (vm_compute; reflexivity).
  assert (H2 : elements
                 (run mounted
                    [Activate; Preloaded "b.webm";
                     Render "b.webm" (Some 0) true; PlaySettled 0 None]) !! 0
               = Some {| src := Plain "b.webm"; paused := false; cached := true |})
    by (vm_compute; reflexivity).
  specialize (H H1 H2).
  cbv zeta. split; apply H.
Defined.

(** X16.  When a load fails (an [error] event while the run waits for
    metadata or for the buffer) and the run of the effect has its 3
    retries behind it, the session is torn down, whatever state the
    controller is in otherwise: the refs are empty, nothing is open, and
    the run is finished with its counter at 3. *)
Theorem exhausted_load_tears_session_down (es : list Event) (a : nat)
    (r : Setup) :
  let s := run mounted es in
  setups s !! a = Some r → isCurrentSetup r = true → retryCount r = 3 →
  stage r = AwaitMetadata ∨ stage r = AwaitBuffer →
  let s' := step s (MediaError a) in
  torn_down s' ∧ setups s' !! a = Some (with_stage Finished r).
Proof.
  intros s Ha Hcur Hn Hst s'.
  pose proof (run_exclusive es) as Hex. fold s in Hex.
  destruct (catchSetup_exhausted a r s Hex Ha Hcur) as [E Ht].
  { rewrite Hn. done. }
  assert (Hs' : s' = catchSetup a s).
  { unfold s'. simpl. unfold on_setup. rewrite Ha. unfold onError.
    destruct Hst as [->| ->]; by rewrite Hcur. }
  rewrite Hs'. split; [done|].
  rewrite E. simpl. rewrite cleanupAudio_setups.
  by rewrite list_lookup_alter_eq, Ha.
Qed.

Lemma exhausted_load_tears_session_down_witness :
  torn_down
    (step (run mounted [Activate; Render "a.webm" None true;
                        MediaError 0; MediaError 0; MediaError 0])
       (MediaError 0)).
Proof.
  pose proof (exhausted_load_tears_session_down
                [Activate; Render "a.webm" None true;
                 MediaError 0; MediaError 0; MediaError 0] 0
                {| audioUrl := "a.webm"; preloadedAudio := None; isPlaying := true;
                   isCurrentSetup := true; retryCount := 3;
                   stage := AwaitMetadata |}) as H.
  cbv zeta in H.
  assert (H1 : setups
                 (run mounted
                    [Activate; Render "a.webm" None true;
                     MediaError 0; MediaError 0; MediaError 0]) !! 0
               = Some {| audioUrl := "a.webm"; preloadedAudio := None;
                         isPlaying := true; isCurrentSetup := true;
                         retryCount := 3; stage := AwaitMetadata |})
    by (vm_compute; reflexivity).
  specialize (H H1 eq_refl eq_refl (or_introl eq_refl)).
  exact (proj1 H).
Defined.

(** ** A run plays only on request *)

Lemma por_set_stage a st s :
  play_requested st = false →
  Forall plays_on_request (setups s) →
  Forall plays_on_request (setups (set_stage a st s)).
Proof.
  intros Hst H. apply Forall_alter; [done|].
  intros r _ _. unfold plays_on_request. simpl. by rewrite Hst.
Qed.

Lemma por_set_stage_playing a st s :
  (∀ r, setups s !! a = Some r → isPlaying r = true) →
  Forall plays_on_request (setups s) →
  Forall plays_on_request (setups (set_stage a st s)).
Proof.
  intros Hp H. simpl. apply Forall_lookup. intros b r' Hb.
  rewrite Forall_lookup in H.
  destruct (decide (a = b)) as [->|Hne].
  - rewrite list_lookup_alter_eq in Hb.
    destruct (setups s !! b) as [r|] eqn:E; simplify_eq/=.
    intros _. simpl. by apply Hp.
  - rewrite list_lookup_alter_ne in Hb by done. by apply (H b).
Qed.

Lemma por_set_retryCount a n s :
  Forall plays_on_request (setups s) →
  Forall plays_on_request (setups (set_retryCount a n s)).
Proof. intros H. apply Forall_alter; [done | by intros []]. Qed.

Lemma por_set_isCurrentSetup a b s :
  Forall plays_on_request (setups s) →
  Forall plays_on_request (setups (set_isCurrentSetup a b s)).
Proof. intros H. apply Forall_alter; [done | by intros []]. Qed.

Lemma startPlayback_por a s :
  Forall plays_on_request (setups s) →
  Forall plays_on_request (setups (startPlayback a s)).
Proof.
  intros H. unfold startPlayback.
  destruct (setups s !! a) as [r|] eqn:Ha; [|done].
  destruct (audioRef s); [|by apply por_set_stage].
  destruct (isPlaying r && isCurrentSetup r) eqn:Hb;
    [|by apply (por_set_stage a Finished (request_pause _ s))].
  apply andb_true_iff in Hb as [Hb _].
  assert (Hp : ∀ e r0, setups (request_play e s) !! a = Some r0 →
                       isPlaying r0 = true).
  { intros e r0 Hr0. simpl in Hr0. congruence. }
  assert (Hp' : ∀ r0, setups s !! a = Some r0 → isPlaying r0 = true)
    by (intros; congruence).
  repeat case_match;
    first [ by apply por_set_stage_playing
          | by apply (por_set_stage_playing a _ (request_play _ s)) ].
Qed.

Lemma buildGraph_por a s :
  Forall plays_on_request (setups s) →
  Forall plays_on_request (setups (buildGraph a s)).
Proof.
  intros H. apply startPlayback_por.
  by rewrite connectNodes_setups, ensureAnalyser_setups, ensureContext_setups.
Qed.

Lemma setupAudio_por a s :
  Forall plays_on_request (setups s) →
  Forall plays_on_request (setups (setupAudio a s)).
Proof.
  intros H. unfold setupAudio.
  destruct (setups s !! a) as [r|]; [|done].
  assert (H1 : Forall plays_on_request (setups (ensureElement r s)))
    by (by rewrite ensureElement_setups).
  destruct (audioRef (ensureElement r s)); [|done].
  case_decide; [by apply buildGraph_por|].
  destruct (isCurrentSetup r);
    by apply (por_set_stage a _ (set_elements _ (ensureElement r s))).
Qed.

Lemma retry_por a n s :
  Forall plays_on_request (setups s) →
  Forall plays_on_request (setups (retry a n s)).
Proof.
  intros H. unfold retry. apply setupAudio_por.
  rewrite cleanupAudio_setups. by apply por_set_retryCount.
Qed.

Lemma catchSetup_por a s :
  Forall plays_on_request (setups s) →
  Forall plays_on_request (setups (catchSetup a s)).
Proof.
  intros H. unfold catchSetup.
  destruct (setups s !! a) as [r|]; [|done].
  destruct (isCurrentSetup r); simpl; [|by apply por_set_stage].
  case_bool_decide; [by apply retry_por|].
  apply por_set_stage; [done|]. by rewrite cleanupAudio_setups.
Qed.

Lemma catchPlayback_por a name s :
  (∀ r, setups s !! a = Some r → isPlaying r = true) →
  Forall plays_on_request (setups s) →
  Forall plays_on_request (setups (catchPlayback a name s)).
Proof.
  intros Hp H. unfold catchPlayback.
  destruct (setups s !! a) as [r|] eqn:Ha; [|done].
  assert (Hp' : ∀ r0, setups s !! a = Some r0 → isPlaying r0 = true)
    by (intros r0 Hr0; apply Hp; congruence).
  destruct (isCurrentSetup r); simpl; [|by apply por_set_stage].
  case_bool_decide; [by apply por_set_stage_playing|].
  case_bool_decide; [by apply retry_por | by apply por_set_stage].
Qed.

Lemma step_por s e :
  Forall plays_on_request (setups s) →
  Forall plays_on_request (setups (step s e)).
Proof.
  intros H. destruct e as [u p b| | |u|a ready|a|a|a err|a err]; simpl.
  - unfold render. apply setupAudio_por. simpl.
    apply Forall_app. split; [|by repeat constructor].
    assert (H1 : Forall plays_on_request (setups (effectCleanup s))).
    { unfold effectCleanup. destruct (current s) as [c|]; [|done].
      change (Forall plays_on_request
                (setups (cleanupAudio (set_isCurrentSetup c false s)))).
      rewrite cleanupAudio_setups. by apply por_set_isCurrentSetup. }
    case_decide; [done|]. simpl. by rewrite cleanupAudio_setups.
  - unfold effectCleanup. destruct (current s) as [c|]; [|done].
    change (Forall plays_on_request
              (setups (cleanupAudio (set_isCurrentSetup c false s)))).
    rewrite cleanupAudio_setups. by apply por_set_isCurrentSetup.
  - done.
  - done.
  - unfold on_setup. destruct (setups s !! a) as [r|]; [|done].
    unfold onLoadedmetadata. destruct (stage r); try done.
    destruct (isCurrentSetup r); simpl; [|by apply por_set_stage].
    destruct (audioRef s); [|by apply catchSetup_por].
    destruct ready; [by apply buildGraph_por | by apply por_set_stage].
  - unfold on_setup. destruct (setups s !! a) as [r|]; [|done].
    unfold onCanplaythrough. destruct (stage r); try done.
    destruct (isCurrentSetup r); simpl; [|by apply por_set_stage].
    by apply buildGraph_por.
  - unfold on_setup. destruct (setups s !! a) as [r|]; [|done].
    unfold onError.
    destruct (stage r); try done;
      (destruct (isCurrentSetup r);
       [by apply catchSetup_por | by apply por_set_stage]).
  - unfold on_setup. destruct (setups s !! a) as [r|] eqn:Ha; [|done].
    unfold onResumeSettled. destruct (stage r) as [| |c| | | |] eqn:Hst; try done.
    assert (Hp : ∀ r0, setups s !! a = Some r0 → isPlaying r0 = true).
    { intros r0 Hr0. rewrite Forall_lookup in H.
      apply (H a r0 Hr0). simplify_eq. by rewrite Hst. }
    destruct err as [name|]; [by apply catchPlayback_por|].
    set (s1 := match contexts s !! c with
               | Some Suspended => set_contexts (<[c := Running]> (contexts s)) s
               | _ => s
               end).
    assert (E1 : setups s1 = setups s)
      by (subst s1; by destruct (contexts s !! c) as [[]|]).
    destruct (audioRef s1).
    + apply (por_set_stage_playing a AwaitPlay (request_play _ s1)); simpl;
        by rewrite E1.
    + apply catchPlayback_por; by rewrite E1.
  - unfold on_setup. destruct (setups s !! a) as [r|] eqn:Ha; [|done].
    unfold onPlaySettled. destruct (stage r) eqn:Hst; try done.
    assert (Hp : ∀ r0, setups s !! a = Some r0 → isPlaying r0 = true).
    { intros r0 Hr0. rewrite Forall_lookup in H.
      apply (H a r0 Hr0). simplify_eq. by rewrite Hst. }
    destruct err as [name|]; [by apply catchPlayback_por|].
    apply por_set_stage; [done|]. by apply por_set_retryCount.
Qed.

(** X17.  A run of the setup effect whose prop [isPlaying] is false
    never decides to play: in every state the controller can reach, such
    a run is not waiting for [resume()], not waiting for [play()] and
    not deferred to a user gesture. *)
Theorem paused_run_never_requests_play (es : list Event) :
  Forall (λ r, isPlaying r = false → play_requested (stage r) = false)
         (setups (run mounted es)).
Proof.
  assert (H : Forall plays_on_request (setups (run mounted es))).
  { induction es as [|e es IH] using rev_ind; [constructor|].
    rewrite run_snoc. by apply step_por. }
  eapply Forall_impl; [exact H|].
  intros r Hr Hp. unfold plays_on_request in Hr.
  destruct (play_requested (stage r)); [|done].
  specialize (Hr eq_refl). congruence.
Qed.

End SessionProofs.

(** * Properties of taps, swipes, keys, loading and autoplay *)

Module ControlsProofs.
Import AudioFeed FeedControls.

(** ** Tests on numbers *)


Lemma gt_false (a b : Q) : gt a b = false ↔ (a <= b)%Q.
Proof. unfold gt. by rewrite negb_false_iff, Qle_bool_iff. Qed.

Lemma falsy_true (x : Q) : falsy x = true ↔ (x == 0)%Q.
Proof. apply Qeq_bool_iff. Qed.


(** ** A commit after a handler *)

Lemma commit_same_deps prev next :
  length (snippets next) = length (snippets prev) →
  autoplayEnabled next = autoplayEnabled prev →
  commit prev next = next.
Proof.
  intros Hl Ha. unfold commit.
  by rewrite !bool_decide_eq_true_2.
Qed.




Lemma commit_refl s : commit s s = s.
Proof. by apply commit_same_deps. Qed.



(** ** Gestures *)

(** The refs after the moves of a gesture. *)
Lemma moves_ignored (ms : list Touch) (r : Refs) :
  falsy (touchStartX r) = true → foldl (λ r m, handleTouchMove m r) r ms = r.
Proof.
  intros Hx. induction ms as [|m ms IH]; [done|].
  simpl. unfold handleTouchMove at 2. by rewrite Hx.
Qed.

Lemma perform_moves (ms : list Touch) (rest : list Action) (r : Refs) (s : Feed) :
  perform ((TouchMove <$> ms) ++ rest) r s
  = perform rest (foldl (λ r m, handleTouchMove m r) r ms) s.
Proof.
  revert r. induction ms as [|m ms IH]; intros r; [done|].
  simpl. rewrite commit_refl. apply IH.
Qed.

Lemma act_TouchEnd t now r s :
  act (TouchEnd t now) r s
  = ((handleTouchEnd t now r s).1, commit s <$> (handleTouchEnd t now r s).2).
Proof. unfold act. by destruct (handleTouchEnd t now r s). Qed.

Lemma perform_TouchStart t now acts r s :
  perform (TouchStart t now :: acts) r s
  = perform acts (handleTouchStart t now r) s.
Proof. simpl. by rewrite commit_refl. Qed.

Lemma perform_TouchEnd t now r s :
  perform [TouchEnd t now] r s
  = ((handleTouchEnd t now r s).1, commit s <$> (handleTouchEnd t now r s).2).
Proof.
  cbn [perform]. rewrite act_TouchEnd.
  by destruct (commit s <$> (handleTouchEnd t now r s).2).
Qed.


(** X18.  A touch that starts at [clientX = 0] is not handled: the
    handlers take the zero in [touchStartX] for "no touch in progress",
    so whatever the finger does until it lifts (moves of any length, a
    tap) neither the feed nor the refs change after the touch start. *)
Theorem touch_starting_at_x_zero_is_ignored (t0 t1 : Touch) (now0 now1 : Z)
    (ms : list Touch) (r : Refs) (s : Feed) :
  (clientX t0 == 0)%Q →
  perform (TouchStart t0 now0 :: (TouchMove <$> ms) ++ [TouchEnd t1 now1]) r s
  = (handleTouchStart t0 now0 r, Some s).
Proof.
  intros Hx. apply falsy_true in Hx.
  rewrite perform_TouchStart, perform_moves, moves_ignored by done.
  rewrite perform_TouchEnd. unfold handleTouchEnd.
  cbn [touchStartX handleTouchStart]. rewrite Hx.
  cbn. by rewrite commit_refl.
Qed.

Lemma touch_starting_at_x_zero_is_ignored_witness :
  perform [TouchStart (mkTouch 0 300) 1000; TouchMove (mkTouch 0 200);
           TouchMove (mkTouch 0 100); TouchEnd (mkTouch 0 100) 1100]
    refs_initial scenario
  = (handleTouchStart (mkTouch 0 300) 1000 refs_initial, Some scenario).
Proof.
  apply (touch_starting_at_x_zero_is_ignored (mkTouch 0 300) (mkTouch 0 100)
           1000 1100 [mkTouch 0 200; mkTouch 0 100]).
  reflexivity.
Defined.







(** ** Loading *)

Lemma dense_Some (l : list nat) : dense (Some <$> l) = Some l.
Proof. unfold dense. by apply mapM_fmap_Some. Qed.

Lemma generatePlayOrder_dense (random : nat → Q) (n : nat) :
  unit_interval random →
  ∃ order, dense (generatePlayOrder random n) = Some order ∧ order ≡ₚ seq 0 n.
Proof.
  intros Hr. unfold generatePlayOrder.
  destruct (ShuffleProofs.shuffleFrom_permutation random Hr (n - 1) 0 (seq 0 n))
    as (order & -> & Hp).
  { rewrite length_seq. lia. }
  exists order. by rewrite dense_Some.
Qed.

Lemma filteredSnippets_files (getPublicUrl : string → string)
    (files : list FileObject) :
  filteredSnippets (rawSnippets getPublicUrl files)
  = (λ f, mkSnippet (getPublicUrl (file_name f)) (file_name f)
            (file_created_at f) None)
    <$> filter (λ f, JS.includes ".emptyFolderPlaceholder" (file_name f) = false)
          files.
Proof.
  unfold filteredSnippets, rawSnippets.
  induction files as [|f files IH]; [done|].
  rewrite fmap_cons, !filter_cons. simpl.
  repeat case_decide; try done; rewrite ?fmap_cons; by f_equal.
Qed.

(** X21.  When the listing arrives and [Math.random()] returns numbers
    in [0, 1), [fetchSnippets] installs exactly the listed files whose
    name does not contain [.emptyFolderPlaceholder], in the order of the
    listing, each with the public URL of its name and no like; the play
    order it installs with them is a permutation of their indices; the
    spinner is taken down; position, play state and autoplay are left as
    they are.  When the listing fails, only the spinner is taken down. *)
Theorem fetchSnippets_installs_tracks_and_order (random : nat → Q)
    (getPublicUrl : string → string) (files : list FileObject) (v : View) :
  unit_interval random →
  (∃ v',
     fetchSnippets random getPublicUrl (Listed files) v = Some v'
     ∧ isLoading v' = false
     ∧ snippets (feed v')
       = (λ f, mkSnippet (getPublicUrl (file_name f)) (file_name f)
                 (file_created_at f) None)
         <$> filter (λ f, JS.includes ".emptyFolderPlaceholder" (file_name f)
                          = false) files
     ∧ playOrder (feed v') ≡ₚ seq 0 (length (snippets (feed v')))
     ∧ currentIndex (feed v') = currentIndex (feed v)
     ∧ isPlaying (feed v') = isPlaying (feed v)
     ∧ autoplayEnabled (feed v') = autoplayEnabled (feed v))
  ∧ fetchSnippets random getPublicUrl ListFailed v
    = Some {| feed := feed v; isLoading := false |}.
Proof.
  intros Hr. split; [|done].
  unfold fetchSnippets.
  set (filtered := filteredSnippets (rawSnippets getPublicUrl files)).
  destruct (generatePlayOrder_dense random (length filtered) Hr)
    as (order & -> & Hp).
  eexists. split; [done|]. simpl. repeat split; try done.
  apply filteredSnippets_files.
Qed.

Lemma fetchSnippets_installs_tracks_and_order_witness :
  ∃ v',
    fetchSnippets (λ k, Z.of_nat (k mod 7) # 7)%Q (λ n, "https://store/" +:+ n)
      (Listed [mkFile "b.webm" "2024-01-02"; mkFile ".emptyFolderPlaceholder" "";
               mkFile "a.webm" "2024-01-01"]) view_initial = Some v'
    ∧ isLoading v' = false
    ∧ snippets (feed v')
      = [mkSnippet "https://store/b.webm" "b.webm" "2024-01-02" None;
         mkSnippet "https://store/a.webm" "a.webm" "2024-01-01" None].
Proof.
  destruct (fetchSnippets_installs_tracks_and_order
              (λ k, Z.of_nat (k mod 7) # 7)%Q (λ n, "https://store/" +:+ n)
              [mkFile "b.webm" "2024-01-02"; mkFile ".emptyFolderPlaceholder" "";
               mkFile "a.webm" "2024-01-01"] view_initial)
    as [(v' & H1 & H2 & H3 & _) _].
  - intros k. pose proof (Nat.mod_upper_bound k 7). split.
    + unfold Qle; simpl. lia.
    + unfold Qlt; simpl. lia.
  - exists v'. split; [exact H1|]. split; [exact H2|]. exact H3.
Defined.

(** ** Navigation on a loaded feed *)

Lemma rem_of_nat (i n : nat) :
  n ≠ 0 → JS.rem (JS.of_nat i) (JS.of_nat n) = JS.of_nat (i mod n).
Proof.
  intros Hn. unfold JS.rem, JS.of_nat.
  destruct (Z.eqb_spec (Z.of_nat n) 0) as [?|_]; [lia|].
  f_equal. rewrite Z.rem_mod_nonneg by lia. by rewrite Nat2Z.inj_mod.
Qed.

Lemma handleNext_position s i :
  snippets s ≠ [] → currentIndex s = JS.of_nat i →
  currentIndex (handleNext s) = JS.of_nat (S i mod length (snippets s)).
Proof.
  intros Hne Hi. unfold handleNext. simpl. rewrite Hi.
  assert (Hn : length (snippets s) ≠ 0) by (by destruct (snippets s)).
  rewrite <- rem_of_nat by done. f_equal.
  unfold JS.add, JS.of_nat. f_equal. lia.
Qed.

Lemma handlePrevious_position s i :
  snippets s ≠ [] → currentIndex s = JS.of_nat i →
  currentIndex (handlePrevious s)
  = JS.of_nat ((i + length (snippets s) - 1) mod length (snippets s)).
Proof.
  intros Hne Hi. unfold handlePrevious. simpl. rewrite Hi.
  assert (Hn : length (snippets s) ≠ 0) by (by destruct (snippets s)).
  rewrite <- rem_of_nat by done. f_equal.
  unfold JS.add, JS.sub, JS.of_nat. f_equal. lia.
Qed.

Lemma same_tracks_refl l : same_tracks l l.
Proof. apply Forall_Forall2_diag, Forall_forall. by intros. Qed.

Lemma same_tracks_trans l1 l2 l3 :
  same_tracks l1 l2 → same_tracks l2 l3 → same_tracks l1 l3.
Proof.
  unfold same_tracks. intros H12 H23.
  eapply Forall2_trans; [|exact H12|exact H23].
  intros x y z (? & ? & ?) (? & ? & ?). repeat split; congruence.
Qed.

Lemma same_tracks_length l l' : same_tracks l l' → length l' = length l.
Proof. intros H. symmetry. by eapply Forall2_length. Qed.

(** What an action keeps of a loaded feed. *)
Lemma loaded_feed_kept s s' :
  loaded_feed s → snippets s' = snippets s → playOrder s' = playOrder s →
  (∃ i, currentIndex s' = JS.of_nat i ∧ i < length (snippets s)) →
  loaded_feed s' ∧ same_tracks (snippets s) (snippets s')
  ∧ playOrder s' = playOrder s.
Proof.
  intros (Hne & Hp & _) Hs Ho Hi. unfold loaded_feed.
  rewrite Hs, Ho. repeat split; try done. apply same_tracks_refl.
Qed.

Lemma handleNext_loaded s :
  loaded_feed s →
  loaded_feed (handleNext s)
  ∧ same_tracks (snippets s) (snippets (handleNext s))
  ∧ playOrder (handleNext s) = playOrder s.
Proof.
  intros Hl. pose proof Hl as (Hne & _ & i & Hi & Hlt).
  apply loaded_feed_kept; try done.
  eexists. split; [by apply handleNext_position|].
  apply Nat.mod_upper_bound. lia.
Qed.

Lemma handlePrevious_loaded s :
  loaded_feed s →
  loaded_feed (handlePrevious s)
  ∧ same_tracks (snippets s) (snippets (handlePrevious s))
  ∧ playOrder (handlePrevious s) = playOrder s.
Proof.
  intros Hl. pose proof Hl as (Hne & _ & i & Hi & Hlt).
  apply loaded_feed_kept; try done.
  eexists. split; [by apply handlePrevious_position|].
  apply Nat.mod_upper_bound. lia.
Qed.

Lemma handleDoubleTap_loaded s :
  loaded_feed s →
  ∃ s', handleDoubleTap s = Some s'
        ∧ loaded_feed s' ∧ same_tracks (snippets s) (snippets s')
        ∧ playOrder s' = playOrder s.
Proof.
  intros (Hne & Hp & i & Hi & Hlt).
  destruct (lookup_lt_is_Some_2 (snippets s) i Hlt) as [t Ht].
  unfold handleDoubleTap, toggleAt. rewrite Hi. unfold JS.of_nat, JS.index.
  destruct (Z.ltb_spec (Z.of_nat i) 0); [lia|].
  rewrite Nat2Z.id, Ht. eexists. split; [done|]. simpl.
  unfold loaded_feed. simpl. rewrite length_insert.
  split; [|split; [|done]].
  - split; [|split; [done|]].
    + intros E. apply (f_equal length) in E. rewrite length_insert in E.
      simpl in E. lia.
    + exists i. by rewrite Hi.
  - unfold same_tracks.
    rewrite <- (list_insert_id (snippets s) i t Ht) at 1.
    apply Forall2_insert; [apply same_tracks_refl | done].
Qed.

Lemma commit_cases prev next :
  commit prev next = next ∨ commit prev next = setIsPlaying true next.
Proof.
  unfold commit, autoplayEffect.
  destruct (_ && _); [by left|]. destruct (_ || _); [by left | by right].
Qed.

Lemma commit_loaded prev next :
  loaded_feed next →
  loaded_feed (commit prev next)
  ∧ snippets (commit prev next) = snippets next
  ∧ playOrder (commit prev next) = playOrder next.
Proof. intros H. by destruct (commit_cases prev next) as [-> | ->]. Qed.

Lemma act_loaded a r s :
  loaded_feed s →
  ∃ s', (act a r s).2 = Some s'
        ∧ loaded_feed s' ∧ same_tracks (snippets s) (snippets s')
        ∧ playOrder s' = playOrder s.
Proof.
  intros Hl.
  assert (Hh : ∃ s1, (let (r', s') :=
                        match a with
                        | KeyDown key => (r, Some (handleKeyDown key s))
                        | Click => (r, Some (handleClick s))
                        | TouchStart t now => (handleTouchStart t now r, Some s)
                        | TouchMove t => (handleTouchMove t r, Some s)
                        | TouchEnd t now => handleTouchEnd t now r s
                        | TrackEnded => (r, Some (handleTrackEnd s))
                        | AutoplayButton => (r, Some (toggleAutoplay s))
                        end in s') = Some s1
                     ∧ loaded_feed s1 ∧ same_tracks (snippets s) (snippets s1)
                     ∧ playOrder s1 = playOrder s).
  { assert (Hsame : ∀ s1, snippets s1 = snippets s → playOrder s1 = playOrder s →
                          currentIndex s1 = currentIndex s →
                          loaded_feed s1 ∧ same_tracks (snippets s) (snippets s1)
                          ∧ playOrder s1 = playOrder s).
    { intros s1 E1 E2 E3. apply loaded_feed_kept; try done.
      destruct Hl as (_ & _ & i & Hi & Hlt). exists i. by rewrite E3. }
    destruct a as [key| |t now|t|t now| |].
    - exists (handleKeyDown key s). split; [done|]. unfold handleKeyDown.
      destruct (_ || _); [by apply handlePrevious_loaded|].
      destruct (_ || _); [by apply handleNext_loaded | by apply Hsame].
    - exists (handleClick s). split; [done|]. by apply Hsame.
    - exists s. split; [done|]. by apply Hsame.
    - exists s. split; [done|]. by apply Hsame.
    - unfold handleTouchEnd.
      destruct (falsy _); [exists s; split; [done | by apply Hsame]|].
      destruct (isTouchMoveRef r).
      + destruct (gt (Qabs _) 50); [|exists s; split; [done | by apply Hsame]].
        destruct (gt _ 0); eexists; (split; [done|]);
          [by apply handlePrevious_loaded | by apply handleNext_loaded].
      + destruct (_ && _ && _); [|exists s; split; [done | by apply Hsame]].
        destruct (_ <? _)%Z; [by apply handleDoubleTap_loaded|].
        exists (handleTap s). split; [done | by apply Hsame].
    - exists (handleTrackEnd s). split; [done|]. unfold handleTrackEnd.
      destruct (autoplayEnabled s); [by apply handleNext_loaded | by apply Hsame].
    - exists (toggleAutoplay s). split; [done|]. by apply Hsame. }
  destruct Hh as (s1 & E & Hl1 & Hs1 & Ho1).
  exists (commit s s1). unfold act.
  destruct (match a with
            | KeyDown key => (r, Some (handleKeyDown key s))
            | Click => (r, Some (handleClick s))
            | TouchStart t now => (handleTouchStart t now r, Some s)
            | TouchMove t => (handleTouchMove t r, Some s)
            | TouchEnd t now => handleTouchEnd t now r s
            | TrackEnded => (r, Some (handleTrackEnd s))
            | AutoplayButton => (r, Some (toggleAutoplay s))
            end) as [r' o].
  subst o. simpl. split; [done|].
  destruct (commit_loaded s s1 Hl1) as (C1 & C2 & C3).
  split; [done|]. by rewrite C2, C3.
Qed.

Lemma getCurrentTrack_loaded s :
  loaded_feed s →
  ∃ i k t, currentIndex s = JS.of_nat i ∧ playOrder s !! i = Some k
           ∧ snippets s !! k = Some t ∧ getCurrentTrack s = Some t.
Proof.
  intros (Hne & Hp & i & Hi & Hlt).
  assert (Hlen : length (playOrder s) = length (snippets s))
    by (by rewrite Hp, length_seq).
  destruct (lookup_lt_is_Some_2 (playOrder s) i) as [k Hk]; [lia|].
  assert (Hkn : k < length (snippets s)).
  { apply list_elem_of_lookup_2 in Hk. rewrite Hp in Hk.
    apply elem_of_seq in Hk. lia. }
  destruct (lookup_lt_is_Some_2 (snippets s) k Hkn) as [t Ht].
  exists i, k, t. repeat split; try done.
  unfold getCurrentTrack.
  rewrite !bool_decide_eq_false_2 by lia. simpl.
  rewrite Hi, rem_of_nat by lia. rewrite Hlen, Nat.mod_small by done.
  unfold JS.index, JS.of_nat.
  destruct (Z.ltb_spec (Z.of_nat i) 0); [lia|].
  by rewrite Nat2Z.id, Hk.
Qed.

(** X22.  On a loaded feed (a non-empty track list, a play order that
    is a permutation of its indices, the index within the list) no
    sequence of key presses, clicks, touches, track ends and autoplay
    toggles makes a render throw, and after it the feed is loaded still:
    the index is within the list, the tracks are the same up to their
    [liked] flags, the play order is the same, and there is a current
    track. *)
Theorem loaded_feed_stays_loaded (acts : list Action) (r : Refs) (s : Feed) :
  loaded_feed s →
  ∃ s', (perform acts r s).2 = Some s'
        ∧ loaded_feed s'
        ∧ same_tracks (snippets s) (snippets s')
        ∧ playOrder s' = playOrder s
        ∧ is_Some (getCurrentTrack s').
Proof.
  revert r s. induction acts as [|a acts IH]; intros r s Hl.
  - exists s. simpl. split; [done|]. split; [done|].
    split; [apply same_tracks_refl|]. split; [done|].
    destruct (getCurrentTrack_loaded s Hl) as (i & k & t & _ & _ & _ & ->).
    by eexists.
  - destruct (act_loaded a r s Hl) as (s1 & E & Hl1 & Hs1 & Ho1).
    cbn [perform]. destruct (act a r s) as [r1 o]. simpl in E. subst o.
    destruct (IH r1 s1 Hl1) as (s' & E' & Hl' & Hs' & Ho' & Hc').
    exists s'. split; [done|]. split; [done|].
    split; [by eapply same_tracks_trans|]. split; [congruence | done].
Qed.

Lemma loaded_feed_stays_loaded_witness :
  ∃ s', (perform [KeyDown "ArrowDown"; TouchStart (mkTouch 100 300) 1000;
                  TouchEnd (mkTouch 100 300) 1050; KeyDown "ArrowUp";
                  KeyDown "ArrowUp"; TrackEnded; AutoplayButton; Click]
           refs_initial scenario).2 = Some s'
        ∧ loaded_feed s'.
Proof.
  destruct (loaded_feed_stays_loaded
              [KeyDown "ArrowDown"; TouchStart (mkTouch 100 300) 1000;
               TouchEnd (mkTouch 100 300) 1050; KeyDown "ArrowUp";
               KeyDown "ArrowUp"; TrackEnded; AutoplayButton; Click]
              refs_initial scenario) as (s' & H1 & H2 & _).
  - split; [discriminate|]. split; [|by exists 0; split; [|simpl; lia]].
    simpl. apply Permutation_swap.
  - exists s'. split; [exact H1 | exact H2].
Defined.

(** ** One cycle through the feed *)

Lemma lookup_all {A} (l : list A) : (l !!.) <$> seq 0 (length l) = Some <$> l.
Proof.
  apply list_eq. intros j. rewrite !list_lookup_fmap.
  destruct (decide (j < length l)) as [Hlt|Hge].
  - destruct (lookup_lt_is_Some_2 l j Hlt) as [x Hx].
    rewrite (proj2 (lookup_seq 0 (length l) j j)) by done. simpl.
    by rewrite Hx.
  - rewrite (lookup_ge_None_2 l j) by lia.
    rewrite (lookup_ge_None_2 (seq 0 (length l)) j); [done|].
    rewrite length_seq. lia.
Qed.

Lemma rotation (i n : nat) :
  i < n → (λ k, (i + k) mod n) <$> seq 0 n ≡ₚ seq 0 n.
Proof.
  intros Hi.
  assert (Hsplit : seq 0 n = seq 0 (n - i) ++ seq (n - i) i).
  { replace n with ((n - i) + i) at 1 by lia. by rewrite seq_app. }
  rewrite Hsplit at 1. rewrite fmap_app.
  assert (E1 : (λ k, (i + k) mod n) <$> seq 0 (n - i) = seq i (n - i)).
  { replace (seq i (n - i)) with (seq (i + 0) (n - i)) by (f_equal; lia).
    rewrite <- (fmap_add_seq i 0 (n - i)).
    apply Forall_fmap_ext, Forall_forall. intros k Hk.
    apply elem_of_seq in Hk. apply Nat.mod_small. lia. }
  assert (E2 : (λ k, (i + k) mod n) <$> seq (n - i) i = seq 0 i).
  { replace (seq (n - i) i) with (seq (n - i + 0) i) by (f_equal; lia).
    rewrite <- (fmap_add_seq (n - i) 0 i).
    rewrite <- list_fmap_compose.
    rewrite <- (list_fmap_id (seq 0 i)) at 2.
    apply Forall_fmap_ext, Forall_forall. intros k Hk.
    apply elem_of_seq in Hk. simpl.
    replace (i + (n - i + k)) with (k + 1 * n) by lia.
    rewrite Nat.Div0.mod_add. apply Nat.mod_small. lia. }
  rewrite E1, E2, Permutation_app_comm, <- seq_app.
  by replace (i + (n - i)) with n by lia.
Qed.

Lemma iter_handleNext s i k :
  snippets s ≠ [] → currentIndex s = JS.of_nat i →
  let sk := Nat.iter k handleNext s in
  snippets sk = snippets s ∧ playOrder sk = playOrder s
  ∧ currentIndex sk = JS.of_nat ((i + k) mod length (snippets s))
    ∨ k = 0 ∧ sk = s.
Proof.
  intros Hne Hi. induction k as [|k IH]; [by right|]. left.
  rewrite Nat.iter_succ.
  assert (Hk : snippets (Nat.iter k handleNext s) = snippets s
               ∧ playOrder (Nat.iter k handleNext s) = playOrder s
               ∧ ∃ j, currentIndex (Nat.iter k handleNext s) = JS.of_nat j
                      ∧ S j mod length (snippets s)
                        = (i + S k) mod length (snippets s)).
  { destruct IH as [(E1 & E2 & E3)|[-> ->]].
    - repeat split; try done. eexists. split; [done|].
      replace (S ((i + k) mod length (snippets s)))
        with ((i + k) mod length (snippets s) + 1) by lia.
      rewrite Nat.Div0.add_mod_idemp_l. f_equal. lia.
    - repeat split; try done. exists i. split; [done|]. f_equal. lia. }
  destruct Hk as (E1 & E2 & j & Hj & Hmod).
  split; [done|]. split; [done|].
  rewrite (handleNext_position _ j) by (by rewrite ?E1).
  by rewrite E1, Hmod.
Qed.

(** X23.  On a loaded feed, going to the next track as many times as
    there are tracks shows every track exactly once: the current tracks
    of the positions passed, the starting one included, are the track
    list up to order, wherever in the list the walk starts. *)
Theorem next_cycle_visits_every_track_once (s : Feed) :
  loaded_feed s →
  (λ k, getCurrentTrack (Nat.iter k handleNext s))
    <$> seq 0 (length (snippets s))
  ≡ₚ Some <$> snippets s.
Proof.
  intros Hl. pose proof Hl as (Hne & Hp & i & Hi & Hlt).
  set (n := length (snippets s)) in *.
  set (g := λ j, playOrder s !! j ≫= (snippets s !!.)).
  assert (Hlen : length (playOrder s) = n) by (by rewrite Hp, length_seq).
  assert (E : (λ k, getCurrentTrack (Nat.iter k handleNext s)) <$> seq 0 n
              = g <$> ((λ k, (i + k) mod n) <$> seq 0 n)).
  { rewrite <- list_fmap_compose.
    apply Forall_fmap_ext, Forall_forall. intros k _. simpl.
    assert (Hk : loaded_feed (Nat.iter k handleNext s)
                 ∧ snippets (Nat.iter k handleNext s) = snippets s
                 ∧ playOrder (Nat.iter k handleNext s) = playOrder s
                 ∧ currentIndex (Nat.iter k handleNext s)
                   = JS.of_nat ((i + k) mod n)).
    { destruct (iter_handleNext s i k Hne Hi) as [(E1 & E2 & E3)|[-> ->]].
      - split; [|done]. unfold loaded_feed. rewrite E1, E2.
        repeat split; try done. eexists. split; [done|].
        apply Nat.mod_upper_bound. lia.
      - repeat split; try done.
        + by exists i.
        + rewrite Nat.add_0_r, Nat.mod_small by done. done. }
    destruct Hk as (Hlk & E1 & E2 & E3).
    destruct (getCurrentTrack_loaded _ Hlk) as (j & k' & t & Hj & Hk' & Ht & ->).
    rewrite E3 in Hj. injection Hj as Hj. apply Nat2Z.inj in Hj. subst j.
    unfold g. rewrite E1 in Ht. rewrite E2 in Hk'.
    rewrite Hk'. simpl. by rewrite Ht. }
  rewrite E, rotation by done.
  assert (E2 : g <$> seq 0 n
               = (λ o, o ≫= (snippets s !!.))
                 <$> ((playOrder s !!.) <$> seq 0 (length (playOrder s)))).
  { rewrite Hlen. by rewrite <- list_fmap_compose. }
  rewrite E2, lookup_all, <- list_fmap_compose.
  assert (E' : (λ o : option nat, o ≫= (snippets s !!.)) ∘ Some
               <$> playOrder s
               = (snippets s !!.) <$> playOrder s).
  { by apply Forall_fmap_ext, Forall_forall. }
  rewrite E', Hp. unfold n. by rewrite lookup_all.
Qed.

Lemma next_cycle_visits_every_track_once_witness :
  [getCurrentTrack scenario; getCurrentTrack (handleNext scenario);
   getCurrentTrack (handleNext (handleNext scenario))]
  ≡ₚ [Some trackA; Some trackB; Some trackC].
Proof.
  apply (next_cycle_visits_every_track_once scenario).
  split; [discriminate|]. split; [|by exists 0; split; [|simpl; lia]].
  simpl. apply Permutation_swap.
Defined.

(** ** Autoplay *)

(** X24.  The component finishes mounting with autoplay on, and playing
    whenever the listing holds a track: [initializeAudio] sets
    [isPlaying] to false, but it also turns autoplay on, and the
    autoplay effect that this triggers sets [isPlaying] to true.  The
    feed ends up paused only when no track is listed or the listing
    failed.  This is so whether React commits the updates of
    [fetchSnippets] and of [initializeAudio] separately or together. *)
Theorem mount_ends_playing (separately : bool) (random : nat → Q)
    (getPublicUrl : string → string) (files : list FileObject) :
  unit_interval random →
  (∃ v,
     mount separately random getPublicUrl (Listed files) = Some v
     ∧ isLoading v = false
     ∧ snippets (feed v) = filteredSnippets (rawSnippets getPublicUrl files)
     ∧ playOrder (feed v) ≡ₚ seq 0 (length (snippets (feed v)))
     ∧ currentIndex (feed v) = JS.Int 0
     ∧ autoplayEnabled (feed v) = true
     ∧ isPlaying (feed v) = negb (bool_decide (snippets (feed v) = [])))
  ∧ mount separately random getPublicUrl ListFailed
    = Some {| feed := setAutoplayEnabled true initial; isLoading := false |}.
Proof.
  intros Hr. split.
  - unfold mount, fetchSnippets.
    set (filtered := filteredSnippets (rawSnippets getPublicUrl files)).
    destruct (generatePlayOrder_dense random (length filtered) Hr)
      as (order & -> & Hp).
    eexists. split; [done|].
    cbn [feed isLoading view_initial].
    destruct filtered as [|t filtered']; destruct separately;
      unfold commit, autoplayEffect, initializeAudio; simpl in *;
      rewrite ?andb_false_r; simpl; by repeat split.
  - unfold mount, fetchSnippets. by destruct separately.
Qed.

Lemma mount_ends_playing_witness :
  ∃ v,
    mount true (λ k, Z.of_nat (k mod 7) # 7)%Q (λ n, "https://store/" +:+ n)
      (Listed [mkFile "b.webm" "2024-01-02"; mkFile "a.webm" "2024-01-01"])
    = Some v
    ∧ autoplayEnabled (feed v) = true
    ∧ isPlaying (feed v) = true.
Proof.
  destruct (mount_ends_playing true
              (λ k, Z.of_nat (k mod 7) # 7)%Q (λ n, "https://store/" +:+ n)
              [mkFile "b.webm" "2024-01-02"; mkFile "a.webm" "2024-01-01"])
    as [(v & H1 & _ & H3 & _ & _ & H6 & H7) _].
  - intros k. pose proof (Nat.mod_upper_bound k 7). split.
    + unfold Qle; simpl. lia.
    + unfold Qlt; simpl. lia.
  - exists v. split; [exact H1|]. split; [exact H6|].
    rewrite H7, H3. reflexivity.
Defined.

(** X25.  The autoplay button, with the commit that follows it: turning
    autoplay on starts playback whenever there is a track, also on a
    feed the user has paused; turning it off leaves the play state as it
    is.  Position, tracks and play order are not touched. *)
Theorem autoplay_button_starts_playback (r : Refs) (s : Feed) :
  (act AutoplayButton r s).1 = r
  ∧ (act AutoplayButton r s).2
    = Some {| snippets := snippets s; currentIndex := currentIndex s;
              isPlaying :=
                if autoplayEnabled s then isPlaying s
                else if bool_decide (length (snippets s) = 0) then isPlaying s
                else true;
              autoplayEnabled := negb (autoplayEnabled s);
              playOrder := playOrder s |}.
Proof.
  split; [done|]. unfold act, toggleAutoplay, commit, autoplayEffect. simpl.
  rewrite bool_decide_eq_true_2 by done. simpl.
  destruct (autoplayEnabled s); simpl.
  - by rewrite orb_true_r.
  - rewrite orb_false_r.
    by destruct (bool_decide (length (snippets s) = 0)).
Qed.

(** ** The progress bar *)

(** X26.  The height of the progress bar.  With the index within a list
    of at least two tracks it is a percentage from 0 to 100, 0 at the
    first position, 100 at the last and below 100 before it.  With one
    track the division is 0/0 and the height is [NaN]. *)
Theorem progressHeight_range (s : Feed) (i : nat) :
  currentIndex s = JS.of_nat i → i < length (snippets s) →
  (length (snippets s) = 1 → progressHeight s = Undefined)
  ∧ (2 ≤ length (snippets s) →
     ∃ q, progressHeight s = Finite q
          ∧ (0 <= q)%Q ∧ (q <= 100)%Q
          ∧ (i = 0 → (q == 0)%Q)
          ∧ (S i = length (snippets s) → (q == 100)%Q)
          ∧ (S i < length (snippets s) → (q < 100)%Q)).
Proof.
  intros Hi Hlt. unfold progressHeight. rewrite Hi. unfold JS.of_nat.
  split.
  - intros Hn. rewrite Hn. simpl.
    assert (i = 0) as -> by lia. done.
  - intros Hn.
    set (d := (Z.of_nat (length (snippets s)) - 1)%Z).
    assert (Hd : (1 <= d)%Z) by (unfold d; lia).
    assert (Hid : (0 <= Z.of_nat i <= d)%Z) by (unfold d; lia).
    destruct (Z.eqb_spec d 0) as [?|_]; [lia|].
    eexists. split; [done|].
    assert (Hdq : (0 < inject_Z d)%Q) by (rewrite <- (Zlt_Qlt 0); lia).
    set (x := (inject_Z (Z.of_nat i) / inject_Z d)%Q).
    assert (Hx0 : (0 <= x)%Q).
    { apply Qle_shift_div_l; [done|]. rewrite Qmult_0_l.
      rewrite <- (Zle_Qle 0). lia. }
    assert (Hx1 : (x <= 1)%Q).
    { apply Qle_shift_div_r; [done|]. rewrite Qmult_1_l.
      rewrite <- Zle_Qle. lia. }
    split; [lra|]. split; [lra|]. split; [|split].
    + intros ->. unfold x. simpl. unfold Qdiv. rewrite Qmult_0_l. lra.
    + intros Hlast. assert (Z.of_nat i = d) as E by (unfold d; lia).
      unfold x. rewrite E. unfold Qdiv.
      rewrite Qmult_inv_r; [lra|]. intros H. rewrite H in Hdq.
      by apply Qlt_irrefl in Hdq.
    + intros Hbefore.
      assert (Hxl : (x < 1)%Q).
      { apply Qlt_shift_div_r; [done|]. rewrite Qmult_1_l.
        rewrite <- Zlt_Qlt. unfold d. lia. }
      lra.
Qed.

Lemma progressHeight_range_witness :
  ∃ q, progressHeight (handleNext (handleNext scenario)) = Finite q
       ∧ (q == 100)%Q.
Proof.
  destruct (progressHeight_range (handleNext (handleNext scenario)) 2)
    as [_ H].
  - reflexivity.
  - simpl. lia.
  - destruct H as (q & H1 & _ & _ & _ & H5 & _); [simpl; lia|].
    exists q. split; [exact H1|]. apply H5. reflexivity.
Defined.

End ControlsProofs.

(** ** AudioRecorder: what the record button keeps and what it leaks *)

Module RecorderProofs.
Import AudioRecorder.

Lemma recorder_run_app (s : Recorder) (es es' : list RecorderEvent) :
  recorder_run s (es ++ es') = recorder_run (recorder_run s es) es'.
Proof. apply foldl_app. Qed.

Lemma recorder_step_inv (s : Recorder) (e : RecorderEvent) :
  recorder_inv s → recorder_inv (recorder_step s e).
Proof.
  unfold recorder_inv. intros Hinv. destruct e; simpl.
  - (* Press *) done.
  - (* Release *)
    unfold stopRecording. destruct (mediaRecorder s) as [c|] eqn:Hc; [|by rewrite Hc].
    destruct (isRecording s) eqn:Hr; simpl; [|by rewrite Hc, Hr].
    destruct Hinv as [Hlen _]. split; [|done].
    by rewrite length_alter.
  - (* Granted *)
    unfold granted. destruct (requests s) as [|n]; [done|]. simpl.
    rewrite length_app, Nat.add_comm. split; [done|]. intros _.
    by rewrite lookup_app_r, Nat.sub_diag.
  - (* Denied *)
    unfold denied. by destruct (requests s).
  - (* Dataavailable *)
    by destruct (decide _).
  - (* Stop *)
    by destruct (decide _).
Qed.

Lemma recorder_initial_inv : recorder_inv recorder_initial.
Proof. done. Qed.

Lemma recorder_run_from_inv (es : list RecorderEvent) (s : Recorder) :
  recorder_inv s → recorder_inv (recorder_run s es).
Proof.
  revert s. induction es as [|e es IH]; intros s Hinv; [done|].
  simpl. apply IH. by apply recorder_step_inv.
Qed.

Lemma recorder_step_older (s : Recorder) (e : RecorderEvent) (m : nat) :
  recorder_inv s → S m < length (recorders s) →
  recorders (recorder_step s e) !! m = recorders s !! m
  ∧ S m < length (recorders (recorder_step s e)).
Proof.
  unfold recorder_inv. intros Hinv Hm. destruct e; simpl; try done.
  - unfold stopRecording. destruct (mediaRecorder s) as [c|] eqn:Hc; [|done].
    destruct (isRecording s); [|done]. simpl. destruct Hinv as [Hlen _].
    rewrite length_alter. split; [|done].
    apply list_lookup_alter_ne. lia.
  - unfold granted. destruct (requests s); [done|]. simpl.
    rewrite length_app. split; [|lia].
    apply lookup_app_l. lia.
  - unfold denied. by destruct (requests s).
  - by destruct (decide _).
  - by destruct (decide _).
Qed.

Lemma delivered_cons (s : Recorder) (e : RecorderEvent) (es : list RecorderEvent) :
  delivered s (e :: es) = delivered s [e] ++ delivered (recorder_step s e) es.
Proof. simpl. by rewrite app_nil_r. Qed.

Lemma recorder_step_chunks (s : Recorder) (e : RecorderEvent) :
  concat (uploads (recorder_step s e)) ++ audioChunks (recorder_step s e)
  = concat (uploads s) ++ audioChunks s ++ delivered s [e].
Proof.
  destruct e; simpl; rewrite ?app_nil_r; try done.
  - unfold stopRecording. destruct (mediaRecorder s); [|done].
    by destruct (isRecording s).
  - unfold granted. by destruct (requests s).
  - unfold denied. by destruct (requests s).
  - destruct (decide _); simpl; by rewrite ?app_nil_r.
  - destruct (decide _); simpl; [|by rewrite ?app_nil_r].
    rewrite concat_app. simpl. by rewrite !app_nil_r.
Qed.

(** X27.  The recorders share one buffer, and nothing that reaches it is
    lost, repeated or reordered: after any sequence of presses,
    releases, answers of the platform and events of the recorders, the
    blobs uploaded so far followed by the blobs still buffered are the
    blobs that were there before followed by the blobs delivered since,
    in the order of delivery, whichever recorder delivered them. *)
Theorem recorder_uploads_conserve_chunks (s : Recorder) (es : list RecorderEvent) :
  concat (uploads (recorder_run s es)) ++ audioChunks (recorder_run s es)
  = concat (uploads s) ++ audioChunks s ++ delivered s es.
Proof.
  revert s. induction es as [|e es IH]; intros s.
  - simpl. by rewrite app_nil_r.
  - change (recorder_run s (e :: es)) with (recorder_run (recorder_step s e) es).
    rewrite IH, app_assoc, recorder_step_chunks.
    rewrite (delivered_cons s e es). by rewrite <- !app_assoc.
Qed.

(** X28.  While the button shows that it is recording, the recorder
    the ref holds is one that has been started and not stopped, on a
    stream whose tracks have not been stopped: in every state reached
    from the mount, [isRecording] implies that [mediaRecorder.current]
    is recording with a live microphone. *)
Theorem recording_flag_means_live_recorder (es : list RecorderEvent) :
  isRecording (recorder_run recorder_initial es) = true →
  ∃ m, mediaRecorder (recorder_run recorder_initial es) = Some m
       ∧ recorders (recorder_run recorder_initial es) !! m
         = Some {| recording := true; live := true |}.
Proof.
  intros Hrec.
  pose proof (recorder_run_from_inv es _ recorder_initial_inv) as Hinv.
  unfold recorder_inv in Hinv.
  destruct (mediaRecorder (recorder_run recorder_initial es)) as [c|].
  - exists c. split; [done|]. by apply Hinv.
  - destruct Hinv as [_ Hoff]. congruence.
Qed.

Lemma recording_flag_means_live_recorder_witness :
  ∃ m, mediaRecorder (recorder_run recorder_initial [Press; Granted]) = Some m
       ∧ recorders (recorder_run recorder_initial [Press; Granted]) !! m
         = Some {| recording := true; live := true |}.
Proof.
  apply (recording_flag_means_live_recorder [Press; Granted]). reflexivity.
Defined.

(** X29.  Only the recorder created last can be stopped.  Once a newer
    recorder exists, nothing the user or the platform does changes an
    older one: a recorder that was still recording when the next one was
    created keeps recording, and the tracks of its stream are never
    stopped. *)
Theorem superseded_recorder_is_never_stopped
    (es es' : list RecorderEvent) (m : nat) :
  S m < length (recorders (recorder_run recorder_initial es)) →
  recorders (recorder_run recorder_initial (es ++ es')) !! m
  = recorders (recorder_run recorder_initial es) !! m.
Proof.
  rewrite recorder_run_app.
  pose proof (recorder_run_from_inv es _ recorder_initial_inv) as Hinv.
  generalize dependent (recorder_run recorder_initial es). intros s Hinv.
  revert s Hinv. induction es' as [|e es' IH]; intros s Hinv Hm; [done|].
  destruct (recorder_step_older s e m Hinv Hm) as [Heq Hm'].
  change (recorder_run s (e :: es')) with (recorder_run (recorder_step s e) es').
  rewrite IH; [done| by apply recorder_step_inv | done].
Qed.

Lemma superseded_recorder_is_never_stopped_witness :
  recorders (recorder_run recorder_initial
               ([Press; Press; Granted; Granted]
                ++ [Release; Stop 1; Press; Granted; Release])) !! 0
  = Some {| recording := true; live := true |}.
Proof.
  rewrite (superseded_recorder_is_never_stopped
             [Press; Press; Granted; Granted]
             [Release; Stop 1; Press; Granted; Release] 0).
  - reflexivity.
  - simpl. lia.
Defined.

End RecorderProofs.
